(** * ConvI text pipeline: turn parser, speaker ids, enrichment, entity
    deduplication

    Shallow embedding of [app/text_pipeline/__init__.py],
    [app/text_pipeline/nlp_processor.py] and [app/text_pipeline/schemas.py].

    Python [str] values are sequences of Unicode code points and are modelled
    as [list N].  Collaborators whose code is outside the repository sources
    at hand (langdetect behind [detect_language] / [dominant_language],
    Stanza, the non-ASCII part of [str.lower] and of NFC normalisation) are
    parameters of the development. *)

From Stdlib Require Import String Ascii.
From stdpp Require Import gmap list strings pretty.

Local Open Scope N_scope.
#[local] Set Warnings "-clear-no-such-hyp".

(** ** Python strings *)

Definition char := N.
Definition str := list char.

(** An ASCII literal as a Python string. *)
Definition lit (s : string) : str :=
  map N_of_ascii (list_ascii_of_string s).

Module Py.

(** [Py_UNICODE_ISSPACE]: the characters [str.strip], [str.split], [str.isspace]
  and the regular expression class [\s] treat as whitespace. *)
Definition isspace (c : char) : bool :=
((9 <=? c) && (c <=? 13)) || ((28 <=? c) && (c <=? 32)) ||
(c =? 133) || (c =? 160) || (c =? 5760) ||
((8192 <=? c) && (c <=? 8202)) || (c =? 8232) || (c =? 8233) ||
(c =? 8239) || (c =? 8287) || (c =? 12288).

(** Line boundaries of [str.splitlines]. *)
Definition islinebreak (c : char) : bool :=
((10 <=? c) && (c <=? 13)) || ((28 <=? c) && (c <=? 30)) ||
(c =? 133) || (c =? 8232) || (c =? 8233).

Definition isascii (c : char) : bool := c <? 128.

Definition isalpha_ascii (c : char) : bool :=
((65 <=? c) && (c <=? 90)) || ((97 <=? c) && (c <=? 122)).

Fixpoint drop_while (p : char → bool) (s : str) : str :=
match s with
| c :: s' => if p c then drop_while p s' else s
| [] => []
end.

Definition lstrip (s : str) : str := drop_while isspace s.
Definition rstrip (s : str) : str := reverse (drop_while isspace (reverse s)).

(** [s.strip()] *)
Definition strip (s : str) : str := rstrip (lstrip s).

(** [s.splitlines()]: [cur] is the line being read, most recent character
  first.  A carriage return followed by a line feed is one boundary, and a
  final boundary opens no further line. *)
Fixpoint splitlines_from (cur : str) (s : str) : list str :=
match s with
| [] => match cur with [] => [] | _ => [reverse cur] end
| c :: s' =>
    if c =? 13 then
      match s' with
      | 10 :: s'' => reverse cur :: splitlines_from [] s''
      | _ => reverse cur :: splitlines_from [] s'
      end
    else if islinebreak c then reverse cur :: splitlines_from [] s'
    else splitlines_from (c :: cur) s'
end.

Definition splitlines (s : str) : list str := splitlines_from [] s.

(** [s.split()]: the maximal runs of non-whitespace characters. *)
Fixpoint split_from (cur : str) (s : str) : list str :=
match s with
| [] => match cur with [] => [] | _ => [reverse cur] end
| c :: s' =>
    if isspace c then
      match cur with
      | [] => split_from [] s'
      | _ => reverse cur :: split_from [] s'
      end
    else split_from (c :: cur) s'
end.

Definition split (s : str) : list str := split_from [] s.

(** [sep.join(parts)] *)
Fixpoint join (sep : str) (parts : list str) : str :=
match parts with
| [] => []
| [p] => p
| p :: rest => p ++ sep ++ join sep rest
end.

Definition lower_ascii (c : char) : char :=
if (65 <=? c) && (c <=? 90) then c + 32 else c.

Definition upper_ascii (c : char) : char :=
if (97 <=? c) && (c <=? 122) then c - 32 else c.

End Py.

(** ** Regular expressions

    The fragment of Python's [re] that [_TURN_RE] is written in, with the
    backtracking semantics of the [re] engine: a greedy star tries the longest
    repetition first, a lazy star the shortest, and the first alternative
    under which the rest of the pattern matches wins. *)

Inductive regex :=
| Bol                                   (* ^ *)
| Class (p : char → bool)               (* one character of a class *)
| Star (greedy : bool) (p : char → bool) (* p* and p*? for a class p *)
| Cat (r1 r2 : regex)
| Group (n : nat) (r : regex).          (* capturing group number n *)

(** The groups captured so far, most recent first. *)
Definition captures := list (nat * str).

Definition cont := str → nat → captures → option captures.

(** [exec r s pos caps k]: match [r] at offset [pos], where [s] is what is
    left of the subject, then continue with [k]. *)
Fixpoint exec (r : regex) (s : str) (pos : nat) (caps : captures) (k : cont)
  : option captures :=
  match r with
  | Bol => if decide (pos = 0%nat) then k s pos caps else None
  | Class p =>
      match s with
      | c :: s' => if p c then k s' (S pos) caps else None
      | [] => None
      end
  | Star true p =>
      (fix go (s : str) (pos : nat) : option captures :=
         match s with
         | c :: s' =>
             if p c then
               match go s' (S pos) with
               | Some m => Some m
               | None => k s pos caps
               end
             else k s pos caps
         | [] => k s pos caps
         end) s pos
  | Star false p =>
      (fix go (s : str) (pos : nat) : option captures :=
         match k s pos caps with
         | Some m => Some m
         | None =>
             match s with
             | c :: s' => if p c then go s' (S pos) else None
             | [] => None
             end
         end) s pos
  | Cat r1 r2 =>
      exec r1 s pos caps (λ s' pos' caps', exec r2 s' pos' caps' k)
  | Group n r =>
      exec r s pos caps
        (λ s' pos' caps', k s' pos' ((n, take (pos' - pos) s) :: caps'))
  end.

(** [pattern.match(s)]: anchored at the start of [s], not at its end. *)
Definition re_match (r : regex) (s : str) : option captures :=
  exec r s 0 [] (λ _ _ caps, Some caps).

(** [m.group(n)] *)
Definition group (n : nat) (m : captures) : str :=
  match list_find (λ e, e.1 = n) m with
  | Some (_, (_, w)) => w
  | None => []
  end.

Fixpoint seq_re (rs : list regex) (last : regex) : regex :=
  match rs with
  | [] => last
  | r :: rs' => Cat r (seq_re rs' last)
  end.

(** ** 1. Turn parser *)

Definition is_letter (c : char) : bool := Py.isalpha_ascii c.
Definition is_letter_or_space (c : char) : bool :=
  Py.isalpha_ascii c || Py.isspace c.
Definition is_colon (c : char) : bool := c =? 58.
Definition any_char (c : char) : bool := true.

(** The pattern of the source, piece by piece:
      ^   \s*   ( [A-Za-z] [A-Za-z\s]*? )   \s*   :   \s*   ( .* )
    compiled with DOTALL, under which the dot matches every character. *)
Definition _TURN_RE : regex :=
  seq_re
    [ Bol;
      Star true Py.isspace;
      Group 1 (Cat (Class is_letter) (Star false is_letter_or_space));
      Star true Py.isspace;
      Class is_colon;
      Star true Py.isspace ]
    (Group 2 (Star true any_char)).

(** The parser's loop variables [turns], [current_label], [current_lines]. *)
Record parser_state := ParserState {
  turns : list (str * str);
  current_label : option str;
  current_lines : list str
}.

(** [if current_label is not None and current_lines: turns.append(...)] *)
Definition flush_turn (st : parser_state) : list (str * str) :=
  match current_label st, current_lines st with
  | Some l, _ :: _ =>
      turns st ++ [(l, Py.strip (Py.join (lit " ") (current_lines st)))]
  | _, _ => turns st
  end.

(** One iteration of [for raw_line in transcript.splitlines()]. *)
Definition parse_line (st : parser_state) (raw_line : str) : parser_state :=
  let line := Py.strip raw_line in
  match line with
  | [] => st
  | _ =>
      match re_match _TURN_RE line with
      | Some m =>
          ParserState (flush_turn st)
                      (Some (Py.strip (group 1 m)))
                      [Py.strip (group 2 m)]
      | None =>
          match current_label st with
          | Some _ =>
              ParserState (turns st) (current_label st)
                          (current_lines st ++ [line])
          | None => st
          end
      end
  end.

(** The loop and the final flush, on the lines of the transcript. *)
Definition parse_lines (lines : list str) : list (str * str) :=
  flush_turn (fold_left parse_line lines (ParserState [] None [])).

Definition _parse_turns (transcript : str) : list (str * str) :=
  parse_lines (Py.splitlines transcript).

(** A line that opens a turn: not blank once stripped, and matched by
    [_TURN_RE]. *)
Definition is_label_line (raw_line : str) : bool :=
  match Py.strip raw_line with
  | [] => false
  | line => bool_decide (is_Some (re_match _TURN_RE line))
  end.

Definition label_line_count (transcript : str) : nat :=
  length (filter is_label_line (Py.splitlines transcript)).

(** The lines a turn accumulates after its label line: the later lines,
    stripped, without the blank ones. *)
Definition continuation (lines : list str) : list str :=
  filter (λ l, l ≠ []) (map Py.strip lines).

(** Once a label has been seen, a turn is open and holds at least the
    remainder of its label line. *)
Definition turn_open_with_text (st : parser_state) : Prop :=
  current_label st = None ∨
  (is_Some (current_label st) ∧ current_lines st ≠ []).

(** The words a pattern matches at offset [pos], whatever the order in which
    the engine tries them. *)
Fixpoint matches (r : regex) (pos : nat) (w : str) : Prop :=
  match r with
  | Bol => w = [] ∧ pos = 0%nat
  | Class p => ∃ c, w = [c] ∧ p c = true
  | Star _ p => Forall (λ c, p c = true) w
  | Cat r1 r2 =>
      ∃ w1 w2, w = w1 ++ w2 ∧ matches r1 pos w1
               ∧ matches r2 (pos + length w1)%nat w2
  | Group _ r => matches r pos w
  end.

(** The line feed, as a one-character string. *)
Definition LF : str := [10].

(** The transcripts of the two parsing scenarios. *)
Definition scenario_1 : str :=
  lit "Agent: Good morning." ++ LF ++ lit "Customer: I lost my card." ++ LF
  ++ lit "Agent: I can help with that.".

Definition scenario_2 : str :=
  lit "Agent: Hello," ++ LF ++ lit "how can I help?" ++ LF
  ++ lit "Customer: Thanks.".

(** ** Roles and schemas *)

(** Modelled from the spec: the [Role] enumeration of [app/schemas.py] is not
    among the sources at hand.  The spec fixes its variants as agent, customer
    and unknown, and the docstring of [_make_speaker_id] fixes the upper-cased
    values as AGENT, CUSTOMER and UNKNOWN. *)
Inductive Role := agent | customer | unknown.

Definition Role_value (r : Role) : str :=
  match r with
  | agent => lit "agent"
  | customer => lit "customer"
  | unknown => lit "unknown"
  end.

Module NamedEntity.
Record t := mk {
  text : str;
  label : str;
  start_char : Z;
  end_char : Z
}.
End NamedEntity.

Module ProcessedTurn.
Record t {Conf : Type} := mk {
  turn_index : nat;
  speaker_label : str;
  role : Role;
  original_text : str;
  cleaned_text : str;
  lemmatized_text : str;
  language : str;
  language_confidence : Conf;
  entities : list NamedEntity.t;
  tokens : list str
}.
Arguments t : clear implicits.
Arguments mk {Conf}.
End ProcessedTurn.

Module TextPipelineOutput.
Record t {Conf : Type} := mk {
  raw_transcript : str;
  dominant_language : str;
  turns : list (ProcessedTurn.t Conf);
  all_entities : list NamedEntity.t;
  speaker_count : nat
}.
Arguments t : clear implicits.
Arguments mk {Conf}.
End TextPipelineOutput.

(** The dictionary [process_text] returns. *)
Module NlpResult.
Record t := mk {
  cleaned_text : str;
  lemmatized_text : str;
  tokens : list str;
  entities : list NamedEntity.t
}.
End NlpResult.

(** What the code reads of a Stanza document. *)
Module Stanza.
Module Word.
Record t := mk { text : str; lemma : option str }.
End Word.
Module Span.
Record t := mk { text : str; type : str; start_char : Z; end_char : Z }.
End Span.
Module Sentence.
Record t := mk { words : list Word.t; ents : list Span.t }.
End Sentence.
Module Document.
Record t := mk { sentences : list Sentence.t }.
End Document.
Inductive DownloadMethod := REUSE_RESOURCES | DOWNLOAD_RESOURCES.
End Stanza.

(** ** Exceptions and effects

    A computation reads and updates a state and either returns a value or
    raises.  [Err] is the type of the exceptions the collaborators raise;
    they are instances of Python's [Exception], which is what the handlers of
    the source catch. *)

Inductive exn {Err : Type} :=
| ValueError (msg : string)
| ValidationError (field : string)
| Raised (e : Err).
Arguments exn : clear implicits.

Inductive outcome {Err A : Type} :=
| Returns (a : A)
| Raises (e : exn Err).
Arguments outcome : clear implicits.

Definition M (S Err A : Type) : Type := S → outcome Err A * S.

Definition ret {S Err A} (a : A) : M S Err A := λ st, (Returns a, st).

Definition raise {S Err A} (e : exn Err) : M S Err A := λ st, (Raises e, st).

Definition bind {S Err A B} (m : M S Err A) (k : A → M S Err B) : M S Err B :=
  λ st, match m st with
        | (Returns a, st') => k a st'
        | (Raises e, st') => (Raises e, st')
        end.

(** [try: m  except Exception as exc: h exc] *)
Definition try_except {S Err A} (m : M S Err A) (h : exn Err → M S Err A)
  : M S Err A :=
  λ st, match m st with
        | (Returns a, st') => (Returns a, st')
        | (Raises e, st') => h e st'
        end.

Notation "'let*' x ':=' m 'in' k" := (bind m (λ x, k))
  (at level 10, x pattern, m at level 200, k at level 200,
   format "'[v' 'let*'  x  :=  m  'in'  '/' k ']'").

Fixpoint mapM {S Err A B} (f : A → M S Err B) (l : list A)
  : M S Err (list B) :=
  match l with
  | [] => ret []
  | a :: l' => let* b := f a in let* bs := mapM f l' in ret (b :: bs)
  end.

Fixpoint foldM {S Err A B} (f : B → A → M S Err B) (l : list A) (b : B)
  : M S Err B :=
  match l with
  | [] => ret b
  | a :: l' => let* b' := f b a in foldM f l' b'
  end.

(** A call into a collaborator: it may change the collaborator's state
    (downloaded models, loaded resources) and returns or raises. *)
Definition extcall (World Err A : Type) : Type := World → (Err + A) * World.

(** The state a run reads and updates: the collaborators' state and the
    entries of the [lru_cache] of [_get_pipeline], most recently used first. *)
Record state {World Pipeline : Type} := State {
  world : World;
  pipeline_cache : list (str * Pipeline)
}.
Arguments state : clear implicits.
Arguments State {World Pipeline}.

(** ** The language detector

    [run_text_pipeline] imports [detect_language] from
    [app/text_pipeline/language_detector.py], and has no handler of its own
    around the call. *)
Module language_detector.

(** Modelled from the spec: [detect_language] of
    [app/text_pipeline/language_detector.py], which is not among the sources
    at hand.  The spec makes it part of the boundary around the external
    language detector, with a local fallback on failure (System overview),
    invoked once per turn text and answering a language code and a
    confidence (4.4, 6); a failure in language detection is recovered locally
    and is silent to the caller, the turn being emitted with fallback values
    (7).  [language_model] is the external language-identification model,
    which returns or raises; the spec names no fallback values for the
    language, so the pair is the parameter [fallback]. *)
Definition detect_language {World Err Conf : Type}
    (language_model : str → extcall World Err (str * Conf))
    (fallback : str * Conf) (text : str) : extcall World Err (str * Conf) :=
  λ w, match language_model text w with
       | (inr answer, w') => (inr answer, w')
       | (inl _, w') => (inr fallback, w')
       end.

End language_detector.

(** ** Collaborators for the examples

    Collaborators without a state of their own: a detector that always
    answers, one that always raises, a Stanza that always raises, and a
    Stanza whose pipelines report the whole text as one PERSON entity. *)
Module Stub.

Definition unicode (s : str) : str := s.

Definition in_bounds (conf : bool) : bool := conf.

Definition detect_en (text : str) : extcall unit unit (str * bool) :=
  λ w, (inr (lit "en", true), w).

Definition detect_ml (text : str) : extcall unit unit (str * bool) :=
  λ w, (inr (lit "ml", true), w).


Definition dominant_en (texts : list str) : extcall unit unit str :=
  λ w, (inr (lit "en"), w).

Definition Pipeline_fails (lang : str) (method : Stanza.DownloadMethod)
  : extcall unit unit unit :=
  λ w, (inl tt, w).

Definition Pipeline_loads (lang : str) (method : Stanza.DownloadMethod)
  : extcall unit unit unit :=
  λ w, (inr tt, w).

Definition download_fails (lang : str) : extcall unit unit unit :=
  λ w, (inl tt, w).

Definition call_fails (nlp : unit) (text : str)
  : extcall unit unit Stanza.Document.t :=
  λ w, (inl tt, w).

Definition call_person (nlp : unit) (text : str)
  : extcall unit unit Stanza.Document.t :=
  λ w, (inr (Stanza.Document.mk
               [Stanza.Sentence.mk
                  [Stanza.Word.mk text None]
                  [Stanza.Span.mk text (lit "PERSON") 0
                     (Z.of_nat (length text))]]), w).

Definition st0 : state unit unit := State tt [].

(** Two turns naming the same person in different case. *)
Definition same_person : str :=
  lit "Agent: Rahul Menon" ++ [10] ++ lit "Customer: rahul menon".

(** A Stanza whose pipelines report the whole text twice, first as a PERSON
    and then as an ORG entity. *)
Definition call_two_labels (nlp : unit) (text : str)
  : extcall unit unit Stanza.Document.t :=
  λ w, (inr (Stanza.Document.mk
               [Stanza.Sentence.mk
                  [Stanza.Word.mk text None]
                  [Stanza.Span.mk text (lit "PERSON") 0
                     (Z.of_nat (length text));
                   Stanza.Span.mk text (lit "ORG") 0
                     (Z.of_nat (length text))]]), w).

(** Three turns: a name, the same name in another case, and another name. *)
Definition three_mentions : str :=
  lit "Agent: Rahul Menon" ++ [10] ++ lit "Customer: rahul menon" ++ [10]
  ++ lit "Agent: Kochi".

(** A Stanza whose pipelines are known by the language they were built for,
    and mark what they produce with it: the text is one word whose lemma is
    the language of the pipeline, and one entity whose type is that
    language. *)
Definition Pipeline_named (lang : str) (method : Stanza.DownloadMethod)
  : extcall unit unit str :=
  λ w, (inr lang, w).

Definition call_named (nlp : str) (text : str)
  : extcall unit unit Stanza.Document.t :=
  λ w, (inr (Stanza.Document.mk
               [Stanza.Sentence.mk
                  [Stanza.Word.mk text (Some nlp)]
                  [Stanza.Span.mk text nlp 0 (Z.of_nat (length text))]]), w).

(** A language model that raises on every text, one that raises on the text
    hi only, and the answer used in its place. *)
Definition model_fails (text : str) : extcall unit unit (str * bool) :=
  λ w, (inl tt, w).

Definition model_fails_on_hi (text : str) : extcall unit unit (str * bool) :=
  λ w, if decide (text = lit "hi") then (inl tt, w)
       else (inr (lit "ml", true), w).

Definition fallback_en : str * bool := (lit "en", true).

(** Two turns, the first with the text hi. *)
Definition greeting : str :=
  lit "Agent: hi" ++ [10] ++ lit "Customer: hello".


(** Turns of two labels with the same role and of a label with no role. *)
Definition two_agents : str :=
  lit "Agent: a" ++ [10] ++ lit "Rep: b" ++ [10] ++ lit "Agent: c" ++ [10]
  ++ lit "Bob: d".

End Stub.

Section TextPipeline.

Context {World Err Conf Pipeline : Type}.

(** [str.lower], [str.upper] and NFC normalisation outside ASCII. *)
Variables unicode_lower unicode_upper unicode_NFC : str → str.

(** The bounds [ge=0.0, le=1.0] pydantic checks on [language_confidence]. *)
Variable confidence_in_bounds : Conf → bool.

(** [app.text_pipeline.language_detector], not among the sources at hand. *)
Variable detect_language : str → extcall World Err (str * Conf).
Variable dominant_language : list str → extcall World Err str.

(** Stanza: [stanza.Pipeline(lang=..., download_method=...)],
    [stanza.download(lang)] and the call [nlp(cleaned)]. *)
Variable stanza_Pipeline :
  str → Stanza.DownloadMethod → extcall World Err Pipeline.
Variable stanza_download : str → extcall World Err unit.
Variable Pipeline_call : Pipeline → str → extcall World Err Stanza.Document.t.

Local Abbreviation St := (state World Pipeline).
Local Abbreviation Eff := (M St Err).

Definition call {A} (op : extcall World Err A) : Eff A :=
  λ st, match op (world st) with
        | (inr a, w) => (Returns a, State w (pipeline_cache st))
        | (inl e, w) => (Raises (Raised e), State w (pipeline_cache st))
        end.

Definition get_cache : Eff (list (str * Pipeline)) :=
  λ st, (Returns (pipeline_cache st), st).

Definition put_cache (c : list (str * Pipeline)) : Eff unit :=
  λ st, (Returns tt, State (world st) c).

(** *** Library functions on strings *)

Definition str_lower (s : str) : str :=
  if forallb Py.isascii s then map Py.lower_ascii s else unicode_lower s.

Definition str_upper (s : str) : str :=
  if forallb Py.isascii s then map Py.upper_ascii s else unicode_upper s.

(** [unicodedata.normalize] to NFC: ASCII text is already normalised. *)
Definition unicodedata_normalize_NFC (s : str) : str :=
  if forallb Py.isascii s then s else unicode_NFC s.

(** [re.sub] of a pattern [p+], one or more characters of the class [p]:
    every maximal run of such characters is replaced by [repl].  [in_run]
    tells that the character before belonged to a run. *)
Fixpoint re_sub_plus_from (in_run : bool) (p : char → bool) (repl s : str)
  : str :=
  match s with
  | [] => []
  | c :: s' =>
      if p c then
        if in_run then re_sub_plus_from true p repl s'
        else repl ++ re_sub_plus_from true p repl s'
      else c :: re_sub_plus_from false p repl s'
  end.

Definition re_sub_plus := re_sub_plus_from false.

(** *** nlp_processor.py *)

Definition lru_maxsize : nat := 8.

Fixpoint cache_find (lang : str) (c : list (str * Pipeline))
  : option Pipeline :=
  match c with
  | [] => None
  | (l, nlp) :: c' => if decide (l = lang) then Some nlp
                      else cache_find lang c'
  end.

Definition cache_remove (lang : str) (c : list (str * Pipeline))
  : list (str * Pipeline) :=
  filter (λ e, e.1 ≠ lang) c.

(** The body of [_get_pipeline]. *)
Definition load_pipeline (lang : str) : Eff Pipeline :=
  try_except
    (call (stanza_Pipeline lang Stanza.REUSE_RESOURCES))
    (λ _, let* _ := call (stanza_download lang) in
          call (stanza_Pipeline lang Stanza.DOWNLOAD_RESOURCES)).

(** [_get_pipeline] under [lru_cache(maxsize=8)]: a hit returns the stored
    pipeline and makes it the most recent entry; a miss runs the body and, if
    it returns, stores the result, dropping the least recent entry beyond
    eight.  A body that raises stores nothing. *)
Definition _get_pipeline (lang : str) : Eff Pipeline :=
  let* cache := get_cache in
  match cache_find lang cache with
  | Some nlp =>
      let* _ := put_cache ((lang, nlp) :: cache_remove lang cache) in
      ret nlp
  | None =>
      let* nlp := load_pipeline lang in
      let* _ := put_cache (take lru_maxsize ((lang, nlp) :: cache)) in
      ret nlp
  end.

Definition STANZA_SUPPORTED : gset str :=
  list_to_set
    [lit "en"; lit "hi"; lit "zh"; lit "fr"; lit "de"; lit "es"; lit "ar";
     lit "ja"].

Definition _resolve_nlp_lang (detected_lang : str) : str :=
  if decide (detected_lang ∈ STANZA_SUPPORTED) then detected_lang
  else lit "en".

(** The class  [^\S\n\r\t ]  of the first substitution of [clean_text]. *)
Definition odd_space (c : char) : bool :=
  negb (negb (Py.isspace c) || (c =? 10) || (c =? 13) || (c =? 9)
        || (c =? 32)).

Definition clean_text (text : str) : str :=
  let text := unicodedata_normalize_NFC text in
  let text := re_sub_plus odd_space (lit " ") text in
  let text := re_sub_plus Py.isspace (lit " ") text in
  Py.strip text.

(** [word.lemma if word.lemma else word.text] *)
Definition lemma_or_text (w : Stanza.Word.t) : str :=
  match Stanza.Word.lemma w with
  | Some (c :: l) => c :: l
  | _ => Stanza.Word.text w
  end.

Definition doc_words (doc : Stanza.Document.t) : list Stanza.Word.t :=
  concat (map Stanza.Sentence.words (Stanza.Document.sentences doc)).

Definition entity_of_span (ent : Stanza.Span.t) : NamedEntity.t :=
  NamedEntity.mk (Stanza.Span.text ent) (Stanza.Span.type ent)
                 (Stanza.Span.start_char ent) (Stanza.Span.end_char ent).

Definition doc_entities (doc : Stanza.Document.t) : list NamedEntity.t :=
  map entity_of_span
      (concat (map Stanza.Sentence.ents (Stanza.Document.sentences doc))).

(** The result [process_text] returns from its handler. *)
Definition degraded_result (cleaned : str) : NlpResult.t :=
  NlpResult.mk cleaned cleaned (Py.split cleaned) [].

Definition process_text (text lang : str) : Eff NlpResult.t :=
  let cleaned := clean_text text in
  let nlp_lang := _resolve_nlp_lang lang in
  let* r :=
    try_except
      (let* nlp := _get_pipeline nlp_lang in
       let* doc := call (Pipeline_call nlp cleaned) in
       ret (Some doc))
      (λ exc, ret None) in
  match r with
  | None => ret (degraded_result cleaned)
  | Some doc =>
      let tokens := map Stanza.Word.text (doc_words doc) in
      let lemmas := map lemma_or_text (doc_words doc) in
      let lemmatized_text := Py.join (lit " ") lemmas in
      ret (NlpResult.mk cleaned lemmatized_text tokens (doc_entities doc))
  end.

(** *** __init__.py: roles and speaker ids *)

Definition _ROLE_MAP : gmap str Role :=
  list_to_map
    [(lit "agent", agent); (lit "representative", agent);
     (lit "rep", agent); (lit "banker", agent); (lit "officer", agent);
     (lit "executive", agent); (lit "support", agent);
     (lit "customer", customer); (lit "client", customer);
     (lit "caller", customer); (lit "user", customer)].

Definition _resolve_role (label : str) : Role :=
  default unknown (_ROLE_MAP !! Py.strip (str_lower label)).

(** [role_counter[key]] on a [Counter]: a missing key counts as zero. *)
Definition counter_get (c : gmap str nat) (key : str) : nat :=
  default 0%nat (c !! key).

(** The identifier and the counter after [role_counter[key] += 1]. *)
Definition _make_speaker_id (role : Role) (role_counter : gmap str nat)
  : str * gmap str nat :=
  let key := str_upper (Role_value role) in
  let idx := counter_get role_counter key in
  (key ++ lit "_" ++ lit (pretty idx), <[key := S idx]> role_counter).

(** *** __init__.py: the orchestrator *)

Definition no_turns_message : string :=
  "Could not parse any speaker turns from the transcript. Expected format: 'Speaker: text' (one turn per line).".

(** Construction of a [ProcessedTurn]: pydantic validates the bounds of
    [language_confidence]. *)
Definition new_ProcessedTurn (turn_index : nat) (speaker_label : str)
    (role : Role) (original_text cleaned_text lemmatized_text language : str)
    (language_confidence : Conf) (entities : list NamedEntity.t)
    (tokens : list str) : Eff (ProcessedTurn.t Conf) :=
  if confidence_in_bounds language_confidence then
    ret (ProcessedTurn.mk turn_index speaker_label role original_text
           cleaned_text lemmatized_text language language_confidence
           entities tokens)
  else raise (ValidationError "language_confidence").

(** The variables the main loop updates.  [speaker_ids] is not a variable
    of the source: it lists the value the local [speaker_id] is bound to at
    each iteration, which the source stores in no field of its output. *)
Record loop_state := LoopState {
  processed_turns : list (ProcessedTurn.t Conf);
  all_entities : list NamedEntity.t;
  role_counter : gmap str nat;
  seen_speakers : gmap str str;
  speaker_ids : list str
}.

(** [if label not in seen_speakers: ... else: ...], giving [speaker_id],
    [role] and the updated counter and dictionary. *)
Definition assign_speaker (label : str) (role_counter : gmap str nat)
    (seen_speakers : gmap str str)
  : str * Role * gmap str nat * gmap str str :=
  match seen_speakers !! label with
  | None =>
      let role := _resolve_role label in
      let '(speaker_id, role_counter') :=
        _make_speaker_id role role_counter in
      (speaker_id, role, role_counter', <[label := speaker_id]> seen_speakers)
  | Some speaker_id =>
      (speaker_id, _resolve_role label, role_counter, seen_speakers)
  end.

(** One iteration of the loop over [enumerate(zip(raw_turns, turn_langs))]. *)
Definition turn_body (acc : loop_state)
    (item : nat * ((str * str) * (str * Conf))) : Eff loop_state :=
  let '(idx, ((label, text), (lang, conf))) := item in
  let '(speaker_id, role, role_counter', seen_speakers') :=
    assign_speaker label (role_counter acc) (seen_speakers acc) in
  let* nlp_result := process_text text lang in
  let* turn :=
    new_ProcessedTurn idx label role text
      (NlpResult.cleaned_text nlp_result)
      (NlpResult.lemmatized_text nlp_result)
      lang conf
      (NlpResult.entities nlp_result)
      (NlpResult.tokens nlp_result) in
  ret (LoopState (processed_turns acc ++ [turn])
                 (all_entities acc ++ NlpResult.entities nlp_result)
                 role_counter' seen_speakers'
                 (speaker_ids acc ++ [speaker_id])).

Definition entity_key (ent : NamedEntity.t) : str * str :=
  (str_lower (NamedEntity.text ent), NamedEntity.label ent).

(** One iteration of the deduplication loop over [seen_ent_keys] and
    [unique_entities]. *)
Definition dedupe_step (acc : gset (str * str) * list NamedEntity.t)
    (ent : NamedEntity.t) : gset (str * str) * list NamedEntity.t :=
  let key := entity_key ent in
  if decide (key ∈ acc.1) then acc
  else ({[key]} ∪ acc.1, acc.2 ++ [ent]).

Definition dedupe_entities (all_entities : list NamedEntity.t)
  : list NamedEntity.t :=
  (fold_left dedupe_step all_entities (∅, [])).2.

Definition enumerate {A} (l : list A) : list (nat * A) :=
  imap (λ i x, (i, x)) l.

(** [run_text_pipeline], returning next to its output the final values of
    the loop variables. *)
Definition run_text_pipeline_loop (transcript : str)
  : Eff (TextPipelineOutput.t Conf * loop_state) :=
  let raw_turns := _parse_turns transcript in
  match raw_turns with
  | [] => raise (ValueError no_turns_message)
  | _ =>
      let* turn_langs :=
        mapM (λ t, call (detect_language t.2)) raw_turns in
      let* call_dominant_lang :=
        call (dominant_language (map snd raw_turns)) in
      let* final :=
        foldM turn_body (enumerate (zip raw_turns turn_langs))
              (LoopState [] [] ∅ ∅ []) in
      let unique_entities := dedupe_entities (all_entities final) in
      let unique_speakers := size (seen_speakers final) in
      ret (TextPipelineOutput.mk transcript call_dominant_lang
             (processed_turns final) unique_entities unique_speakers,
           final)
  end.

Definition run_text_pipeline (transcript : str)
  : Eff (TextPipelineOutput.t Conf) :=
  let* r := run_text_pipeline_loop transcript in ret r.1.


(** *** Notions the statements use *)

(** The effect of one iteration on [role_counter], [seen_speakers] and
    [speaker_ids]; it depends on the label alone. *)
Definition speaker_step
    (acc : gmap str nat * gmap str str * list str) (label : str)
  : gmap str nat * gmap str str * list str :=
  let '(speaker_id, _, role_counter', seen_speakers') :=
    assign_speaker label acc.1.1 acc.1.2 in
  (role_counter', seen_speakers', acc.2 ++ [speaker_id]).

Definition speaker_fold (labels : list str)
  : gmap str nat * gmap str str * list str :=
  fold_left speaker_step labels (∅, ∅, []).

(** The turn an iteration appends for an item of
    [enumerate(zip(raw_turns, turn_langs))], where [P text lang r] is what is
    known of the result [r] of [process_text] on the turn's text and
    language. *)
Definition turn_with (P : str → str → NlpResult.t → Prop)
    (item : nat * ((str * str) * (str * Conf)))
    (turn : ProcessedTurn.t Conf) : Prop :=
  let '(idx, ((label, text), (lang, conf))) := item in
  confidence_in_bounds conf = true ∧
  ∃ r, P text lang r ∧
       turn = ProcessedTurn.mk idx label (_resolve_role label) text
                (NlpResult.cleaned_text r) (NlpResult.lemmatized_text r)
                lang conf (NlpResult.entities r) (NlpResult.tokens r).

(** The language detector returns on every call, with a confidence within
    the bounds of the schema. *)
Definition detector_returns : Prop :=
  (∀ text w, ∃ lang conf w',
      detect_language text w = (inr (lang, conf), w')
      ∧ confidence_in_bounds conf = true)
  ∧ (∀ texts w, ∃ lang w', dominant_language texts w = (inr lang, w')).

(** Stanza raises on every call that reaches it: every call of a pipeline
    raises, or every construction of a pipeline raises and none has been
    constructed and cached before. *)
Definition processing_raises : Prop :=
  ∀ nlp text w, ∃ e w', Pipeline_call nlp text w = (inl e, w').

Definition construction_raises : Prop :=
  ∀ lang method w, ∃ e w', stanza_Pipeline lang method w = (inl e, w').

Definition stanza_raises (cache : list (str * Pipeline)) : Prop :=
  processing_raises ∨ (construction_raises ∧ cache = []).

(** The calls of [detect_language], one per parsed turn, in order. *)
Definition detect_all (raw_turns : list (str * str))
  : Eff (list (str * Conf)) :=
  mapM (λ t, call (detect_language t.2)) raw_turns.

(** The key [_make_speaker_id] counts under for a label, and the identifier
    it forms. *)
Definition key_of_label (label : str) : str :=
  str_upper (Role_value (_resolve_role label)).

Definition speaker_id_of (key : str) (idx : nat) : str :=
  key ++ lit "_" ++ lit (pretty idx).

(** The registry after the turns of [labels]: every identifier handed out
    was formed under its label's key below the key's counter, no identifier
    serves two labels, the dictionary holds the labels seen, and [ids] are
    the identifiers of [labels] in the dictionary. *)
Definition registry_ok
    (acc : gmap str nat * gmap str str * list str) (labels : list str)
  : Prop :=
  (∀ label sid, acc.1.2 !! label = Some sid →
     ∃ idx, sid = speaker_id_of (key_of_label label) idx
            ∧ (idx < counter_get acc.1.1 (key_of_label label))%nat) ∧
  (∀ l1 l2 sid, acc.1.2 !! l1 = Some sid → acc.1.2 !! l2 = Some sid →
     l1 = l2) ∧
  dom acc.1.2 = list_to_set labels ∧
  Forall2 (λ label sid, acc.1.2 !! label = Some sid) labels acc.2.

(** Every counter of [role_counter] holds the number of labels of the
    dictionary that count under its key. *)
Definition counters_ok (acc : gmap str nat * gmap str str * list str) : Prop :=
  ∀ key, counter_get acc.1.1 key
         = size (filter (λ l, key_of_label l = key) (dom acc.1.2 : gset str)).

(** The keys of the cache are distinct supported languages. *)
Definition cache_supported (cache : list (str * Pipeline)) : Prop :=
  NoDup cache.*1 ∧ ∀ lang, lang ∈ cache.*1 → lang ∈ STANZA_SUPPORTED.

(** What follows the first group of [_TURN_RE]:  \s*  :  \s*  ( .* ) *)
Definition turn_tail : regex :=
  seq_re [Star true Py.isspace; Class is_colon; Star true Py.isspace]
         (Group 2 (Star true any_char)).

(** A label as the parser produces it: it begins with a letter, is made of
    letters and whitespace and is stripped. *)
Definition label_wellformed (label : str) : Prop :=
  (∃ c tl, label = c :: tl ∧ is_letter c = true) ∧
  Forall (λ c, is_letter_or_space c = true) label ∧
  Py.strip label = label.

(** * Properties *)

Local Close Scope N_scope.

(** ** Strings *)

Lemma drop_while_suffix p s : ∃ pre, s = pre ++ Py.drop_while p s.
Proof.
  induction s as [|c s IH]; simpl.
  - by exists [].
  - destruct (p c).
    + destruct IH as [pre Hpre]. exists (c :: pre).
      simpl. by f_equal.
    + by exists [].
Qed.

Lemma drop_while_elem p s c : c ∈ Py.drop_while p s → c ∈ s.
Proof using.
  destruct (drop_while_suffix p s) as [pre Hs]. intros Hc.
  rewrite Hs. apply elem_of_app. by right.
Qed.

Lemma strip_elem s c : c ∈ Py.strip s → c ∈ s.
Proof using.
  unfold Py.strip, Py.rstrip, Py.lstrip. intros Hc.
  apply (proj1 (elem_of_reverse _ _)) in Hc. apply drop_while_elem in Hc.
  apply (proj1 (elem_of_reverse _ _)) in Hc. by apply drop_while_elem in Hc.
Qed.

Lemma splitlines_from_elem s : ∀ cur l c,
  l ∈ Py.splitlines_from cur s → c ∈ l → c ∈ cur ∨ c ∈ s.
Proof.
  induction s as [s IH] using (induction_ltof1 _ length).
  unfold ltof in IH. intros cur l c Hl Hc. destruct s as [|a s]; simpl in Hl.
  - destruct cur; [by apply elem_of_nil in Hl|].
    apply list_elem_of_singleton in Hl. subst l.
    rewrite elem_of_reverse in Hc. by left.
  - assert (Hhere : l = reverse cur → c ∈ cur ∨ c ∈ a :: s).
    { intros ->. rewrite elem_of_reverse in Hc. by left. }
    assert (Hrest : ∀ s', length s' < length (a :: s) → (∀ x, x ∈ s' → x ∈ s) →
              l ∈ Py.splitlines_from [] s' → c ∈ cur ∨ c ∈ a :: s).
    { intros s' Hlen Hsub Hin.
      destruct (IH s' Hlen [] l c Hin Hc) as [H|H]; [by apply elem_of_nil in H|].
      right. apply elem_of_cons. right. by apply Hsub. }
    destruct (a =? 13)%N.
    + destruct s as [|b s'].
      * apply elem_of_cons in Hl as [Hl|Hl]; [by apply Hhere|].
        apply (Hrest []); [simpl; lia|done|done].
      * destruct (decide (b = 10%N)) as [->|Hb].
        -- apply elem_of_cons in Hl as [Hl|Hl]; [by apply Hhere|].
           apply (Hrest s'); [simpl; lia| |done].
           intros x Hx. apply elem_of_cons. by right.
        -- assert (Hl' : l ∈ reverse cur :: Py.splitlines_from [] (b :: s')).
           { destruct b as [|pb]; [done|].
             repeat (destruct pb as [pb|pb|]; try done). }
           apply elem_of_cons in Hl' as [Hl'|Hl']; [by apply Hhere|].
           apply (Hrest (b :: s')); [simpl; lia|done|done].
    + destruct (Py.islinebreak a).
      * apply elem_of_cons in Hl as [Hl|Hl]; [by apply Hhere|].
        apply (Hrest s); [simpl; lia|done|done].
      * destruct (IH s ltac:(simpl; lia) (a :: cur) l c Hl Hc) as [H|H].
        -- apply elem_of_cons in H as [->|H]; [right; left|by left].
        -- right. apply elem_of_cons. by right.
Qed.

Lemma splitlines_elem s l c : l ∈ Py.splitlines s → c ∈ l → c ∈ s.
Proof.
  intros Hl Hc. destruct (splitlines_from_elem s [] l c Hl Hc) as [H|H];
    [by apply elem_of_nil in H|done].
Qed.

(** ** The regular expression engine *)

(** Whatever the engine matches is a word of the pattern, followed by what the
    continuation accepted. *)
Ltac empty_word s caps :=
  exists [], s, caps; simpl; rewrite ?Nat.add_0_r;
  split_and!; first [done | by constructor | by simplify_eq/=].

Lemma exec_sound r : ∀ s pos caps k m,
  exec r s pos caps k = Some m →
  ∃ w s' caps', s = w ++ s' ∧ matches r pos w
                ∧ k s' (pos + length w)%nat caps' = Some m.
Proof.
  induction r as [|p|g p|r1 IH1 r2 IH2|n r IH]; intros s pos caps k m H;
    simpl in H.
  - destruct (decide (pos = 0%nat)) as [->|]; [|done].
    by empty_word s caps.
  - destruct s as [|c s]; [done|]. destruct (p c) eqn:Hp; [|done].
    exists [c], s, caps. split_and!; [done|by exists c|].
    by rewrite Nat.add_1_r.
  - destruct g.
    + revert pos H. induction s as [|c s IHs]; intros pos H.
      * by empty_word (@nil char) caps.
      * destruct (p c) eqn:Hp; [|by empty_word (c :: s) caps].
        match type of H with
        | match ?g with _ => _ end = _ => destruct g eqn:Hg
        end; [|by empty_word (c :: s) caps].
        injection H as ->.
        destruct (IHs _ Hg) as (w & s' & caps' & -> & Hw & Hk).
        exists (c :: w), s', caps'. split_and!; [done|by constructor|].
        simpl. by rewrite <- Nat.add_succ_comm.
    + revert pos H. induction s as [|c s IHs]; intros pos H.
      * destruct (k [] pos caps) eqn:Hk; [|done].
        by empty_word (@nil char) caps.
      * destruct (k (c :: s) pos caps) eqn:Hk;
          [by empty_word (c :: s) caps|].
        destruct (p c) eqn:Hp; [|done].
        destruct (IHs _ H) as (w & s' & caps' & -> & Hw & Hk').
        exists (c :: w), s', caps'. split_and!; [done|by constructor|].
        simpl. by rewrite <- Nat.add_succ_comm.
  - apply IH1 in H as (w1 & s1 & caps1 & -> & Hw1 & H).
    apply IH2 in H as (w2 & s2 & caps2 & -> & Hw2 & H).
    exists (w1 ++ w2), s2, caps2. split_and!.
    + by rewrite app_assoc.
    + by exists w1, w2.
    + by rewrite length_app, Nat.add_assoc.
  - apply IH in H as (w & s' & caps' & -> & Hw & H).
    by exists w, s', ((n, take (pos + length w - pos) (w ++ s')) :: caps').
Qed.

(** A line [_TURN_RE] matches contains a colon. *)
Lemma turn_re_colon line m : re_match _TURN_RE line = Some m → 58%N ∈ line.
Proof using.
  unfold re_match. intros H.
  apply exec_sound in H as (w & s' & caps' & -> & Hw & _).
  simpl in Hw.
  destruct Hw as (w1 & t1 & -> & _ & Hw).
  destruct Hw as (w2 & t2 & -> & _ & Hw).
  destruct Hw as (w3 & t3 & -> & _ & Hw).
  destruct Hw as (w4 & t4 & -> & _ & Hw).
  destruct Hw as (w5 & t5 & -> & (c & -> & Hc) & _).
  apply N.eqb_eq in Hc. subst c.
  apply elem_of_app. left.
  do 4 (apply elem_of_app; right). apply elem_of_app. left.
  by apply list_elem_of_singleton.
Qed.

(** ** The turn parser *)

Lemma is_label_line_match raw_line :
  is_label_line raw_line = true →
  Py.strip raw_line ≠ [] ∧ ∃ m, re_match _TURN_RE (Py.strip raw_line) = Some m.
Proof.
  unfold is_label_line. destruct (Py.strip raw_line) as [|c l]; [done|].
  intros H. apply bool_decide_eq_true in H as [m Hm]. split; [done|by exists m].
Qed.

Lemma is_label_line_no_match raw_line :
  is_label_line raw_line = false →
  Py.strip raw_line = [] ∨ re_match _TURN_RE (Py.strip raw_line) = None.
Proof.
  unfold is_label_line. destruct (Py.strip raw_line) as [|c l]; [by left|].
  intros H. apply bool_decide_eq_false in H. right.
  destruct (re_match _ _); [|done]. by destruct H.
Qed.

(** A label line closes the open turn and opens the next one. *)
Lemma parse_line_label st raw_line m :
  Py.strip raw_line ≠ [] →
  re_match _TURN_RE (Py.strip raw_line) = Some m →
  parse_line st raw_line
  = ParserState (flush_turn st) (Some (Py.strip (group 1 m)))
                [Py.strip (group 2 m)].
Proof.
  intros Hne Hm. unfold parse_line.
  destruct (Py.strip raw_line) as [|c l] eqn:E; [done|]. by rewrite Hm.
Qed.

(** Any other line extends the open turn, or is dropped when it is blank or
    no turn is open. *)
Lemma parse_line_other st raw_line :
  is_label_line raw_line = false →
  parse_line st raw_line
  = match current_label st with
    | Some _ =>
        ParserState (turns st) (current_label st)
                    (current_lines st ++ continuation [raw_line])
    | None => st
    end.
Proof.
  intros H. unfold parse_line, continuation. simpl.
  destruct (is_label_line_no_match _ H) as [E|E].
  - rewrite E. simpl. rewrite app_nil_r. by destruct st as [t [l|] ls].
  - destruct (Py.strip raw_line) as [|c l] eqn:E'.
    + simpl. rewrite app_nil_r. by destruct st as [t [lb|] ls].
    + rewrite E. rewrite filter_cons_True by done. done.
Qed.

Lemma fold_other_closed lines : ∀ st,
  Forall (λ l, is_label_line l = false) lines →
  current_label st = None →
  fold_left parse_line lines st = st.
Proof.
  induction lines as [|l lines IH]; intros st Hall Hst; [done|].
  apply Forall_cons in Hall as [Hl Hall]. simpl.
  rewrite parse_line_other, Hst by done. by apply IH.
Qed.

Lemma continuation_cons l lines :
  continuation (l :: lines) = continuation [l] ++ continuation lines.
Proof.
  unfold continuation. simpl.
  destruct (decide (Py.strip l ≠ [])).
  - by rewrite !filter_cons_True by done.
  - by rewrite !filter_cons_False by done.
Qed.

Lemma fold_other_open lines : ∀ st label,
  Forall (λ l, is_label_line l = false) lines →
  current_label st = Some label →
  fold_left parse_line lines st
  = ParserState (turns st) (Some label)
                (current_lines st ++ continuation lines).
Proof.
  induction lines as [|l lines IH]; intros st label Hall Hst.
  - simpl. unfold continuation. simpl. rewrite app_nil_r.
    destruct st; simpl in *; by subst.
  - apply Forall_cons in Hall as [Hl Hall]. simpl.
    rewrite parse_line_other, Hst by done.
    rewrite (IH _ label) by done. simpl.
    by rewrite (continuation_cons l lines), app_assoc.
Qed.

Lemma parse_line_open st l :
  turn_open_with_text st → turn_open_with_text (parse_line st l).
Proof.
  intros Hst. destruct (is_label_line l) eqn:E.
  - apply is_label_line_match in E as [Hne [m Hm]].
    rewrite (parse_line_label _ _ m) by done. right. by split; [eexists|].
  - rewrite parse_line_other by done.
    destruct Hst as [Hst|[[lb Hst] Hne]]; rewrite Hst; [by left|].
    right. split; [done|]. simpl. destruct (current_lines st); [done|].
    by rewrite <- app_comm_cons.
Qed.

Lemma flush_turn_length st :
  turn_open_with_text st →
  length (flush_turn st)
  = (length (turns st)
     + match current_label st with Some _ => 1 | None => 0 end)%nat.
Proof.
  unfold flush_turn. intros [H|[[lb H] Hne]]; rewrite H.
  - lia.
  - destruct (current_lines st); [done|]. rewrite length_app. simpl. lia.
Qed.

Lemma parse_line_count st l :
  turn_open_with_text st →
  length (flush_turn (parse_line st l))
  = (length (flush_turn st) + if is_label_line l then 1 else 0)%nat.
Proof.
  intros Hst. destruct (is_label_line l) eqn:E.
  - apply is_label_line_match in E as [Hne [m Hm]].
    rewrite (parse_line_label _ _ m) by done.
    unfold flush_turn at 1. simpl. by rewrite length_app.
  - rewrite !flush_turn_length by auto using parse_line_open.
    rewrite parse_line_other by done.
    destruct (current_label st) eqn:Hl; simpl; [lia|by rewrite Hl].
Qed.

Lemma fold_parse_count lines : ∀ st,
  turn_open_with_text st →
  length (flush_turn (fold_left parse_line lines st))
  = (length (flush_turn st) + length (filter is_label_line lines))%nat.
Proof.
  induction lines as [|l lines IH]; intros st Hst; simpl; [lia|].
  rewrite IH by auto using parse_line_open.
  rewrite parse_line_count by done.
  destruct (is_label_line l) eqn:E.
  - rewrite filter_cons_True by (by apply Is_true_true). simpl. lia.
  - rewrite filter_cons_False by (by apply Is_true_false). lia.
Qed.

(** Every label line yields one turn. *)
Lemma parse_lines_length lines :
  length (parse_lines lines) = length (filter is_label_line lines).
Proof.
  unfold parse_lines. rewrite fold_parse_count by (by left). done.
Qed.

(** A label line followed by lines that are not label lines, up to the end of
    the input, yields the last turn: its label, and the remainder of the label
    line and the lines after it joined by single spaces. *)
Lemma parse_lines_block before label_line after m :
  Py.strip label_line ≠ [] →
  re_match _TURN_RE (Py.strip label_line) = Some m →
  Forall (λ l, is_label_line l = false) after →
  parse_lines (before ++ label_line :: after)
  = parse_lines before
    ++ [(Py.strip (group 1 m),
         Py.strip (Py.join (lit " ")
                     (Py.strip (group 2 m) :: continuation after)))].
Proof.
  intros Hne Hm Hafter. unfold parse_lines.
  rewrite fold_left_app. simpl.
  rewrite (parse_line_label _ _ m) by done.
  rewrite (fold_other_open _ _ (Py.strip (group 1 m))) by done.
  done.
Qed.

(** ** Effects *)

Lemma bind_returns {S A B} (m : M S Err A) (k : A → M S Err B) st a st' :
  m st = (Returns a, st') → bind m k st = k a st'.
Proof. unfold bind. by intros ->. Qed.

Lemma bind_raises {S A B} (m : M S Err A) (k : A → M S Err B) st e st' :
  m st = (Raises e, st') → bind m k st = (Raises e, st').
Proof. unfold bind. by intros ->. Qed.

Lemma bind_inv {S A B} (m : M S Err A) (k : A → M S Err B) st b st' :
  bind m k st = (Returns b, st') →
  ∃ a st1, m st = (Returns a, st1) ∧ k a st1 = (Returns b, st').
Proof.
  unfold bind. destruct (m st) as [[a|e] st1]; [|done]. intros H.
  by exists a, st1.
Qed.

(** ** The NLP processor *)

(** [process_text] returns on every input, whatever Stanza does, and the
    cleaned text of its result is [clean_text] of the input. *)
Lemma process_text_returns text lang st :
  ∃ r st', process_text text lang st = (Returns r, st')
           ∧ NlpResult.cleaned_text r = clean_text text.
Proof.
  unfold process_text. unfold bind at 1. unfold try_except.
  match goal with
  | |- context [match ?c st with _ => _ end] =>
      destruct (c st) as [[[doc|]|e] st1]
  end; simpl; eauto.
Qed.

Lemma call_raises {A} (op : extcall World Err A) st e w' :
  op (world st) = (inl e, w') →
  call op st = (Raises (Raised e), State w' (pipeline_cache st)).
Proof. unfold call. by intros ->. Qed.

Lemma call_cache {A} (op : extcall World Err A) st o st' :
  call op st = (o, st') → pipeline_cache st' = pipeline_cache st.
Proof.
  unfold call. destruct (op (world st)) as [[e|a] w]; by intros [= <- <-].
Qed.

Lemma load_pipeline_raises lang st :
  construction_raises →
  ∃ e st', load_pipeline lang st = (Raises e, st')
           ∧ pipeline_cache st' = pipeline_cache st.
Proof.
  intros Hp. unfold load_pipeline, try_except.
  destruct (Hp lang Stanza.REUSE_RESOURCES (world st)) as (e & w' & H).
  rewrite (call_raises _ _ _ _ H). unfold bind.
  destruct (call (stanza_download lang) _) as [[[]|e1] st1] eqn:Hd;
    apply call_cache in Hd; simpl in Hd; [|by eauto].
  destruct (Hp lang Stanza.DOWNLOAD_RESOURCES (world st1)) as (e2 & w2 & H2).
  rewrite (call_raises _ _ _ _ H2). eauto.
Qed.

(** When Stanza raises, [process_text] returns the result of its handler, and
    Stanza goes on raising. *)
Lemma process_text_degraded text lang st :
  stanza_raises (pipeline_cache st) →
  ∃ st', process_text text lang st
         = (Returns (degraded_result (clean_text text)), st')
         ∧ stanza_raises (pipeline_cache st').
Proof.
  intros Hs. unfold process_text. unfold bind at 1. unfold try_except.
  set (lang' := _resolve_nlp_lang lang).
  destruct Hs as [Hc|[Hp Hcache]].
  - match goal with
    | |- context [match ?c st with _ => _ end] =>
        destruct (c st) as [[[doc|]|e] st1] eqn:E
    end; simpl; [|by eexists; split; [|left]..].
    exfalso. apply bind_inv in E as (nlp & st2 & _ & E).
    apply bind_inv in E as (doc' & st3 & E & _).
    destruct (Hc nlp (clean_text text) (world st2)) as (e & w' & H).
    by rewrite (call_raises _ _ _ _ H) in E.
  - destruct (load_pipeline_raises lang' st Hp) as (e & s' & H & Hs').
    assert (E : _get_pipeline lang' st = (Raises e, s')).
    { unfold _get_pipeline.
      rewrite (bind_returns _ _ st (pipeline_cache st) st) by done.
      rewrite Hcache. simpl. by rewrite (bind_raises _ _ _ _ _ H). }
    rewrite (bind_raises _ _ _ _ _ E). simpl.
    eexists; split; [done|]. right. split; [done|]. by rewrite Hs'.
Qed.

(** ** The main loop *)

Lemma new_ProcessedTurn_inv idx label role text cleaned lemmatized lang conf
    ents toks st turn st' :
  new_ProcessedTurn idx label role text cleaned lemmatized lang conf ents toks
    st = (Returns turn, st') →
  confidence_in_bounds conf = true ∧ st' = st ∧
  turn = ProcessedTurn.mk idx label role text cleaned lemmatized lang conf
           ents toks.
Proof.
  unfold new_ProcessedTurn. destruct (confidence_in_bounds conf); [|done].
  by intros [= <- <-].
Qed.

Lemma assign_speaker_role label rc seen :
  (assign_speaker label rc seen).1.1.2 = _resolve_role label.
Proof.
  unfold assign_speaker. destruct (seen !! label); [done|].
  by destruct (_make_speaker_id _ _).
Qed.

Section Loop.

Variable I : list (str * Pipeline) → Prop.
Variable P : str → str → NlpResult.t → Prop.
Hypothesis process_text_spec : ∀ text lang st r st',
  I (pipeline_cache st) → process_text text lang st = (Returns r, st') →
  I (pipeline_cache st') ∧ P text lang r.

Lemma turn_body_inv acc item st final st' :
  I (pipeline_cache st) →
  turn_body acc item st = (Returns final, st') →
  I (pipeline_cache st') ∧
  ∃ turn,
    turn_with P item turn ∧
    processed_turns final = processed_turns acc ++ [turn] ∧
    all_entities final = all_entities acc ++ ProcessedTurn.entities turn ∧
    (role_counter final, seen_speakers final, speaker_ids final)
    = speaker_step (role_counter acc, seen_speakers acc, speaker_ids acc)
                   item.2.1.1.
Proof.
  intros HI. destruct item as [idx [[label text] [lang conf]]].
  unfold turn_body, speaker_step. simpl.
  pose proof (assign_speaker_role label (role_counter acc) (seen_speakers acc))
    as Hrole.
  destruct (assign_speaker _ _ _) as [[[sid role] rc'] seen']. simpl in Hrole.
  intros H. apply bind_inv in H as (r & st1 & Hr & H).
  apply bind_inv in H as (turn & st2 & Ht & H).
  apply new_ProcessedTurn_inv in Ht as (Hconf & -> & ->).
  injection H as <- <-. simpl.
  destruct (process_text_spec _ _ _ _ _ HI Hr) as [HI' HP].
  subst role. split; [done|]. eexists. split_and!; [done| |done..].
  by exists r.
Qed.

Lemma foldM_turn_body_inv items : ∀ acc st final st',
  I (pipeline_cache st) →
  foldM turn_body items acc st = (Returns final, st') →
  I (pipeline_cache st') ∧
  ∃ new_turns,
    Forall2 (turn_with P) items new_turns ∧
    processed_turns final = processed_turns acc ++ new_turns ∧
    all_entities final
    = all_entities acc ++ concat (map ProcessedTurn.entities new_turns) ∧
    (role_counter final, seen_speakers final, speaker_ids final)
    = fold_left speaker_step (map (λ item, item.2.1.1) items)
        (role_counter acc, seen_speakers acc, speaker_ids acc).
Proof.
  induction items as [|item items IH]; intros acc st final st' HI H.
  - injection H as <- <-. split; [done|]. exists [].
    by rewrite !app_nil_r.
  - simpl in H. apply bind_inv in H as (acc1 & st1 & H1 & H).
    apply turn_body_inv in H1 as (HI1 & turn & Ht & Hp & He & Hs); [|done].
    apply IH in H as (HI' & new_turns & Hn & Hp' & He' & Hs'); [|done].
    split; [done|]. exists (turn :: new_turns). split_and!.
    + by constructor.
    + by rewrite Hp', Hp, <- app_assoc.
    + rewrite He', He. simpl. by rewrite !app_assoc.
    + rewrite Hs'. simpl. by rewrite Hs.
Qed.

End Loop.

Lemma turn_body_returns acc idx label text lang conf st :
  confidence_in_bounds conf = true →
  ∃ final st', turn_body acc (idx, ((label, text), (lang, conf))) st
               = (Returns final, st').
Proof.
  intros Hconf. unfold turn_body.
  destruct (assign_speaker _ _ _) as [[[sid role] rc'] seen'].
  destruct (process_text_returns text lang st) as (r & st1 & Hr & _).
  rewrite (bind_returns _ _ _ _ _ Hr).
  unfold new_ProcessedTurn. rewrite Hconf. unfold bind, ret. eauto.
Qed.

Lemma foldM_turn_body_returns items : ∀ acc st,
  Forall (λ item, confidence_in_bounds item.2.2.2 = true) items →
  ∃ final st', foldM turn_body items acc st = (Returns final, st').
Proof.
  induction items as [|[idx [[label text] [lang conf]]] items IH];
    intros acc st Hall.
  - simpl. unfold ret. eauto.
  - apply Forall_cons in Hall as [Hconf Hall]. simpl in Hconf.
    destruct (turn_body_returns acc idx label text lang conf st Hconf)
      as (acc1 & st1 & H1).
    simpl. rewrite (bind_returns _ _ _ _ _ H1). by apply IH.
Qed.

(** ** Language detection *)

Lemma mapM_length {S A B} (f : A → M S Err B) l : ∀ st bs st',
  mapM f l st = (Returns bs, st') → length bs = length l.
Proof.
  induction l as [|a l IH]; intros st bs st' H; simpl in H.
  - by injection H as <- <-.
  - apply bind_inv in H as (b & st1 & _ & H).
    apply bind_inv in H as (bs' & st2 & H & Hr).
    injection Hr as <- <-. simpl. f_equal. by eapply IH.
Qed.

Lemma detect_all_cache raw_turns : ∀ st o st',
  detect_all raw_turns st = (o, st') → pipeline_cache st' = pipeline_cache st.
Proof.
  induction raw_turns as [|t l IH]; intros st o st' H; simpl in H.
  - by injection H as <- <-.
  - unfold detect_all in *. simpl in H. unfold bind at 1 in H.
    destruct (call (detect_language t.2) st) as [[b|e] st1] eqn:H1;
      apply call_cache in H1.
    + unfold bind at 1 in H.
      destruct (mapM _ l st1) as [[bs|e] st2] eqn:H2; apply IH in H2.
      * injection H as <- <-. congruence.
      * injection H as <- <-. congruence.
    + injection H as <- <-. congruence.
Qed.

Lemma detect_all_returns raw_turns : ∀ st,
  detector_returns →
  ∃ turn_langs st',
    detect_all raw_turns st = (Returns turn_langs, st')
    ∧ Forall (λ lc, confidence_in_bounds lc.2 = true) turn_langs.
Proof.
  intros st [Hd _]. revert st.
  induction raw_turns as [|t l IH]; intros st.
  - exists [], st. by split.
  - destruct (Hd t.2 (world st)) as (lang & conf & w' & H & Hconf).
    destruct (IH (State w' (pipeline_cache st))) as (tl & st' & Htl & Hall).
    exists ((lang, conf) :: tl), st'. split; [|by constructor].
    unfold detect_all in *. simpl. unfold bind at 1. unfold call at 1.
    rewrite H. unfold bind at 1. by rewrite Htl.
Qed.

Lemma items_labels (raw_turns : list (str * str)) :
  ∀ (turn_langs : list (str * Conf)) (g : nat → nat),
  length turn_langs = length raw_turns →
  map (λ item : nat * ((str * str) * (str * Conf)), item.2.1.1)
      (imap (λ i x, (g i, x)) (zip raw_turns turn_langs))
  = map fst raw_turns.
Proof.
  induction raw_turns as [|t l IH]; intros [|lc tl] g Hlen; try done.
  simpl. f_equal. apply (IH tl (g ∘ S)). simpl in Hlen. lia.
Qed.

Lemma items_confidences (raw_turns : list (str * str)) :
  ∀ (turn_langs : list (str * Conf)) (g : nat → nat),
  Forall (λ lc, confidence_in_bounds lc.2 = true) turn_langs →
  Forall (λ item : nat * ((str * str) * (str * Conf)),
            confidence_in_bounds item.2.2.2 = true)
         (imap (λ i x, (g i, x)) (zip raw_turns turn_langs)).
Proof.
  induction raw_turns as [|t l IH]; intros [|lc tl] g Hall;
    try by constructor.
  apply Forall_cons in Hall as [Hc Hall]. simpl. constructor; [done|].
  apply (IH tl (g ∘ S) Hall).
Qed.

Lemma enumerate_labels (raw_turns : list (str * str))
    (turn_langs : list (str * Conf)) :
  length turn_langs = length raw_turns →
  map (λ item : nat * ((str * str) * (str * Conf)), item.2.1.1)
      (enumerate (zip raw_turns turn_langs))
  = map fst raw_turns.
Proof. exact (items_labels raw_turns turn_langs id). Qed.

Lemma enumerate_confidences (raw_turns : list (str * str))
    (turn_langs : list (str * Conf)) :
  Forall (λ lc, confidence_in_bounds lc.2 = true) turn_langs →
  Forall (λ item : nat * ((str * str) * (str * Conf)),
            confidence_in_bounds item.2.2.2 = true)
         (enumerate (zip raw_turns turn_langs)).
Proof. exact (items_confidences raw_turns turn_langs id). Qed.

(** ** The orchestrator *)

Section Run.

Variable I : list (str * Pipeline) → Prop.
Variable P : str → str → NlpResult.t → Prop.
Hypothesis process_text_spec : ∀ text lang st r st',
  I (pipeline_cache st) → process_text text lang st = (Returns r, st') →
  I (pipeline_cache st') ∧ P text lang r.

(** What a run that returns has done. *)
Lemma run_loop_inv transcript st out final st' :
  I (pipeline_cache st) →
  run_text_pipeline_loop transcript st = (Returns (out, final), st') →
  _parse_turns transcript ≠ [] ∧
  ∃ turn_langs st1 dominant,
    detect_all (_parse_turns transcript) st = (Returns turn_langs, st1) ∧
    length turn_langs = length (_parse_turns transcript) ∧
    out = TextPipelineOutput.mk transcript dominant (processed_turns final)
            (dedupe_entities (all_entities final))
            (size (seen_speakers final)) ∧
    Forall2 (turn_with P)
            (enumerate (zip (_parse_turns transcript) turn_langs))
            (processed_turns final) ∧
    all_entities final
    = concat (map ProcessedTurn.entities (processed_turns final)) ∧
    (role_counter final, seen_speakers final, speaker_ids final)
    = speaker_fold (map fst (_parse_turns transcript)).
Proof.
  intros HI H. unfold run_text_pipeline_loop in H.
  destruct (_parse_turns transcript) as [|t raw] eqn:Hraw; [done|].
  split; [done|].
  apply bind_inv in H as (turn_langs & st1 & Hd & H).
  apply bind_inv in H as (dominant & st2 & Hdom & H).
  apply bind_inv in H as (final' & st3 & Hloop & H).
  injection H as <- <- <-.
  pose proof (mapM_length _ _ _ _ _ Hd) as Hlen.
  apply (foldM_turn_body_inv I P process_text_spec) in Hloop
    as (_ & new_turns & Hturns & Hp & He & Hs).
  - exists turn_langs, st1, dominant. simpl in Hp, He.
    split_and!; [done|done|done|by rewrite Hp|by rewrite He, Hp|].
    rewrite Hs. unfold speaker_fold.
    by rewrite (enumerate_labels (t :: raw) turn_langs).
  - apply call_cache in Hdom. apply detect_all_cache in Hd. congruence.
Qed.

End Run.

(** A run returns when the transcript has a turn and the detector returns. *)
Lemma run_loop_returns transcript st :
  detector_returns → _parse_turns transcript ≠ [] →
  ∃ out final st',
    run_text_pipeline_loop transcript st = (Returns (out, final), st').
Proof.
  intros Hdet Hraw. unfold run_text_pipeline_loop.
  destruct (_parse_turns transcript) as [|t raw] eqn:E; [done|].
  destruct (detect_all_returns (t :: raw) st Hdet) as (tl & st1 & Hd & Hall).
  rewrite (bind_returns _ _ _ _ _ Hd).
  destruct Hdet as [_ Hdom].
  destruct (Hdom (map snd (t :: raw)) (world st1)) as (lang & w' & Hl).
  assert (Hcall : call (dominant_language (map snd (t :: raw))) st1
                  = (Returns lang, State w' (pipeline_cache st1))).
  { unfold call. by rewrite Hl. }
  rewrite (bind_returns _ _ _ _ _ Hcall).
  destruct (foldM_turn_body_returns (enumerate (zip (t :: raw) tl))
              (LoopState [] [] ∅ ∅ []) (State w' (pipeline_cache st1)))
    as (final & st' & Hf).
  { by apply enumerate_confidences. }
  rewrite (bind_returns _ _ _ _ _ Hf). unfold ret. eauto.
Qed.

Lemma run_text_pipeline_inv transcript st out st' :
  run_text_pipeline transcript st = (Returns out, st') →
  ∃ final, run_text_pipeline_loop transcript st = (Returns (out, final), st').
Proof.
  unfold run_text_pipeline. intros H.
  apply bind_inv in H as ([out' final] & st1 & H & Hr).
  injection Hr as <- <-. by exists final.
Qed.

(** ** Speaker identifiers *)

Lemma lit_inj s1 s2 : lit s1 = lit s2 → s1 = s2.
Proof.
  unfold lit. intros H.
  rewrite <- (string_of_list_ascii_of_string s1),
          <- (string_of_list_ascii_of_string s2).
  f_equal. revert H.
  generalize (list_ascii_of_string s1) (list_ascii_of_string s2).
  induction l as [|a l IH]; intros [|b l'] H; try done.
  simpl in H. injection H as Hab Hl. f_equal; [|by apply IH].
  by rewrite <- (ascii_N_embedding a), <- (ascii_N_embedding b), Hab.
Qed.

Lemma role_key role :
  str_upper (Role_value role)
  = match role with
    | agent => lit "AGENT"
    | customer => lit "CUSTOMER"
    | unknown => lit "UNKNOWN"
    end.
Proof. by destruct role. Qed.

(** Identifiers are equal only for equal keys and equal indices. *)
Lemma speaker_id_of_inj l1 l2 i j :
  speaker_id_of (key_of_label l1) i = speaker_id_of (key_of_label l2) j →
  key_of_label l1 = key_of_label l2 ∧ i = j.
Proof.
  unfold speaker_id_of, key_of_label. rewrite !role_key.
  destruct (_resolve_role l1), (_resolve_role l2); intros H;
    try discriminate H; (split; [done|]);
    apply app_inv_head, app_inv_head, lit_inj in H;
    by apply (inj pretty) in H.
Qed.

Lemma _make_speaker_id_eq role rc :
  _make_speaker_id role rc
  = (speaker_id_of (str_upper (Role_value role))
       (counter_get rc (str_upper (Role_value role))),
     <[str_upper (Role_value role)
       := S (counter_get rc (str_upper (Role_value role)))]> rc).
Proof. done. Qed.

Lemma counter_get_insert rc key n key' :
  counter_get (<[key := n]> rc) key'
  = if decide (key = key') then n else counter_get rc key'.
Proof. unfold counter_get. rewrite lookup_insert. by case_decide. Qed.

Lemma speaker_step_ok acc labels label :
  registry_ok acc labels →
  registry_ok (speaker_step acc label) (labels ++ [label]).
Proof.
  destruct acc as [[rc seen] ids]. intros (Ha & Hb & Hdom & Hids).
  simpl in *. unfold speaker_step, assign_speaker. cbn [fst snd].
  destruct (seen !! label) as [sid|] eqn:Hseen.
  - split_and!; simpl; [done|done| |].
    + rewrite list_to_set_app_L, <- Hdom. simpl.
      apply (elem_of_dom_2 (D := gset str)) in Hseen. set_solver.
    + apply Forall2_app; [done|]. by constructor.
  - rewrite _make_speaker_id_eq. fold (key_of_label label).
    set (key := key_of_label label). set (idx := counter_get rc key).
    split_and!; simpl.
    + intros label' sid'. rewrite lookup_insert. case_decide as Hl.
      * intros [= <-]. subst label'. exists idx. split; [done|].
        rewrite counter_get_insert. fold key. case_decide; [lia|done].
      * intros H. destruct (Ha _ _ H) as (idx' & -> & Hlt).
        exists idx'. split; [done|]. rewrite counter_get_insert.
        case_decide as Hk; [|done]. rewrite <- Hk in Hlt. fold idx in Hlt. lia.
    + assert (Hfresh : ∀ l sid, seen !! l = Some sid →
                sid ≠ speaker_id_of key idx).
      { intros l sid H ->. destruct (Ha _ _ H) as (idx' & Heq & Hlt).
        apply speaker_id_of_inj in Heq as [Hk Hi].
        fold key in Hk. rewrite <- Hk in Hlt. fold idx in Hlt. lia. }
      intros l1 l2 sid. rewrite !lookup_insert.
      destruct (decide (label = l1)) as [<-|?],
               (decide (label = l2)) as [<-|?]; try done.
      * intros [= <-] H. by destruct (Hfresh _ _ H).
      * intros H [= <-]. by destruct (Hfresh _ _ H).
      * apply Hb.
    + by rewrite dom_insert_L, list_to_set_app_L, Hdom; set_solver.
    + apply Forall2_app.
      * eapply Forall2_impl; [done|]. intros l sid H. simpl in H.
        rewrite lookup_insert_ne; [done|]. intros <-. congruence.
      * constructor; [|done]. by rewrite lookup_insert_eq.
Qed.

Lemma fold_speaker_step_ok ls : ∀ acc labels,
  registry_ok acc labels →
  registry_ok (fold_left speaker_step ls acc) (labels ++ ls).
Proof.
  induction ls as [|l ls IH]; intros acc labels H; simpl.
  - by rewrite app_nil_r.
  - rewrite (cons_middle l labels ls), app_assoc.
    by apply IH, speaker_step_ok.
Qed.

Lemma speaker_fold_ok labels : registry_ok (speaker_fold labels) labels.
Proof.
  apply (fold_speaker_step_ok labels (∅, ∅, []) []).
  split_and!; simpl; [done|done|set_solver|done].
Qed.

(** ** Entity deduplication *)

Lemma fold_dedupe_keys l : ∀ acc,
  (fold_left dedupe_step l acc).1
  = acc.1 ∪ list_to_set (entity_key <$> l).
Proof.
  induction l as [|x l IH]; intros [K U]; simpl.
  - set_solver.
  - rewrite IH. unfold dedupe_step. simpl.
    destruct (decide (entity_key x ∈ K)); simpl; set_solver.
Qed.

Lemma dedupe_snoc l x :
  dedupe_entities (l ++ [x])
  = dedupe_entities l
    ++ (if decide (entity_key x ∈ entity_key <$> l) then [] else [x]).
Proof.
  unfold dedupe_entities. rewrite fold_left_app.
  pose proof (fold_dedupe_keys l (∅, [])) as HK.
  destruct (fold_left dedupe_step l (∅, [])) as [K U].
  cbn [fst snd fold_left] in *. unfold dedupe_step. cbn [fst snd].
  assert (HK' : entity_key x ∈ K ↔ entity_key x ∈ entity_key <$> l).
  { rewrite HK, elem_of_union, elem_of_list_to_set. split; [|by right].
    intros [H|H]; [|done]. by apply elem_of_empty in H. }
  destruct (decide (entity_key x ∈ entity_key <$> l)) as [Hin|Hin].
  - rewrite decide_True by (by apply HK'). cbn [snd]. by rewrite app_nil_r.
  - rewrite decide_False by (by rewrite HK'). done.
Qed.

Lemma dedupe_keys_elem l k :
  k ∈ entity_key <$> dedupe_entities l ↔ k ∈ entity_key <$> l.
Proof.
  induction l as [|x l IH] using rev_ind; [done|].
  rewrite dedupe_snoc, !fmap_app, !elem_of_app, IH.
  destruct (decide (entity_key x ∈ entity_key <$> l)) as [Hin|Hin]; simpl.
  - split; (intros [H|H]; [by left|]).
    + by apply elem_of_nil in H.
    + apply list_elem_of_singleton in H. subst k. by left.
  - done.
Qed.

Lemma dedupe_keys_NoDup l : NoDup (entity_key <$> dedupe_entities l).
Proof.
  induction l as [|x l IH] using rev_ind; [constructor|].
  rewrite dedupe_snoc, fmap_app.
  destruct (decide (entity_key x ∈ entity_key <$> l)) as [Hin|Hin]; simpl.
  - by rewrite app_nil_r.
  - apply NoDup_app. split_and!; [done| |apply NoDup_singleton].
    intros k Hk Hx. apply list_elem_of_singleton in Hx. subst k.
    by apply Hin, (proj1 (dedupe_keys_elem l (entity_key x))).
Qed.

Lemma dedupe_sublist l : dedupe_entities l `sublist_of` l.
Proof.
  induction l as [|x l IH] using rev_ind; [done|].
  rewrite dedupe_snoc. apply sublist_app; [done|].
  destruct (decide _); [apply sublist_nil_l|done].
Qed.

Lemma snoc_eq_middle {A} (l p1 p2 : list A) x e :
  l ++ [x] = p1 ++ e :: p2 →
  (p2 = [] ∧ l = p1 ∧ x = e) ∨ ∃ p2', p2 = p2' ++ [x] ∧ l = p1 ++ e :: p2'.
Proof.
  destruct p2 as [|y p2 _] using rev_ind; intros H.
  - left. apply app_inj_tail in H as [-> ->]. done.
  - right. exists p2. rewrite app_comm_cons, app_assoc in H.
    apply app_inj_tail in H as [-> ->]. done.
Qed.

(** The entities kept are the first occurrences of their keys. *)
Lemma dedupe_first_occurrences l e :
  e ∈ dedupe_entities l ↔
  ∃ pre post, l = pre ++ e :: post ∧ entity_key e ∉ entity_key <$> pre.
Proof.
  induction l as [|x l IH] using rev_ind.
  - split; [by intros H%elem_of_nil|]. intros (pre & post & H & _).
    by destruct pre.
  - rewrite dedupe_snoc, elem_of_app, IH. split.
    + intros [(pre & post & -> & Hpre)|Hx].
      * exists pre, (post ++ [x]). by rewrite <- app_assoc.
      * destruct (decide _) as [|Hnew]; [by apply elem_of_nil in Hx|].
        apply list_elem_of_singleton in Hx. subst e.
        exists l, []. done.
    + intros (pre & post & H & Hpre).
      apply snoc_eq_middle in H as [(-> & -> & ->)|(post' & -> & ->)].
      * right. rewrite decide_False by done. by apply list_elem_of_singleton.
      * left. by exists pre, post'.
Qed.

(** ** The turns of the output *)

Lemma turn_with_fields P items turns :
  Forall2 (turn_with P) items turns →
  map ProcessedTurn.turn_index turns = map fst items ∧
  map ProcessedTurn.speaker_label turns = map (λ item, item.2.1.1) items ∧
  map ProcessedTurn.original_text turns = map (λ item, item.2.1.2) items ∧
  map ProcessedTurn.language turns = map (λ item, item.2.2.1) items ∧
  Forall (λ turn, ∃ r,
            P (ProcessedTurn.original_text turn)
              (ProcessedTurn.language turn) r ∧
            ProcessedTurn.cleaned_text turn = NlpResult.cleaned_text r ∧
            ProcessedTurn.lemmatized_text turn = NlpResult.lemmatized_text r ∧
            ProcessedTurn.tokens turn = NlpResult.tokens r ∧
            ProcessedTurn.entities turn = NlpResult.entities r) turns.
Proof.
  induction 1 as [|[idx [[label text] [lang conf]]] turn items turns
                   (Hconf & r & HP & ->) _ (IH1 & IH2 & IH3 & IH4 & IH5)];
    [done|].
  simpl. rewrite IH1, IH2, IH3, IH4.
  split_and!; try done. constructor; [|done]. by exists r.
Qed.

Lemma items_languages (raw_turns : list (str * str)) :
  ∀ (turn_langs : list (str * Conf)) (g : nat → nat),
  length turn_langs = length raw_turns →
  map (λ item : nat * ((str * str) * (str * Conf)), item.2.2.1)
      (imap (λ i x, (g i, x)) (zip raw_turns turn_langs))
  = map fst turn_langs.
Proof.
  induction raw_turns as [|t l IH]; intros [|lc tl] g Hlen; try done.
  simpl. f_equal. apply (IH tl (g ∘ S)). simpl in Hlen. lia.
Qed.

Lemma enumerate_languages (raw_turns : list (str * str))
    (turn_langs : list (str * Conf)) :
  length turn_langs = length raw_turns →
  map (λ item : nat * ((str * str) * (str * Conf)), item.2.2.1)
      (enumerate (zip raw_turns turn_langs))
  = map fst turn_langs.
Proof. exact (items_languages raw_turns turn_langs id). Qed.

Lemma items_texts (raw_turns : list (str * str)) :
  ∀ (turn_langs : list (str * Conf)) (g : nat → nat),
  length turn_langs = length raw_turns →
  map (λ item : nat * ((str * str) * (str * Conf)), item.2.1.2)
      (imap (λ i x, (g i, x)) (zip raw_turns turn_langs))
  = map snd raw_turns.
Proof.
  induction raw_turns as [|t l IH]; intros [|lc tl] g Hlen; try done.
  simpl. f_equal. apply (IH tl (g ∘ S)). simpl in Hlen. lia.
Qed.

Lemma enumerate_texts (raw_turns : list (str * str))
    (turn_langs : list (str * Conf)) :
  length turn_langs = length raw_turns →
  map (λ item : nat * ((str * str) * (str * Conf)), item.2.1.2)
      (enumerate (zip raw_turns turn_langs))
  = map snd raw_turns.
Proof. exact (items_texts raw_turns turn_langs id). Qed.

Lemma items_indices {A} (l : list A) : ∀ (g : nat → nat),
  map fst (imap (λ i x, (g i, x)) l) = map g (seq 0 (length l)).
Proof.
  induction l as [|x l IH]; intros g; [done|].
  simpl. f_equal. rewrite <- seq_shift, map_map. apply (IH (g ∘ S)).
Qed.

Lemma enumerate_indices {A} (l : list A) :
  map fst (enumerate l) = seq 0 (length l).
Proof.
  etrans; [exact (items_indices l id)|apply map_id].
Qed.

Lemma no_spec : ∀ text lang (st : St) (r : NlpResult.t) (st' : St),
  True → process_text text lang st = (Returns r, st') →
  True ∧ (λ (_ _ : str) (_ : NlpResult.t), True) text lang r.
Proof. done. Qed.

(** What every returning run satisfies: one turn per parsed turn, with the
    parsed labels and texts and the detected languages, and the speaker
    variables the labels determine. *)
Lemma run_loop_shape transcript st out final st' :
  run_text_pipeline_loop transcript st = (Returns (out, final), st') →
  ∃ turn_langs st1,
    detect_all (_parse_turns transcript) st = (Returns turn_langs, st1) ∧
    map ProcessedTurn.speaker_label (TextPipelineOutput.turns out)
    = map fst (_parse_turns transcript) ∧
    map ProcessedTurn.original_text (TextPipelineOutput.turns out)
    = map snd (_parse_turns transcript) ∧
    map ProcessedTurn.language (TextPipelineOutput.turns out)
    = map fst turn_langs ∧
    TextPipelineOutput.turns out = processed_turns final ∧
    TextPipelineOutput.all_entities out
    = dedupe_entities
        (concat (map ProcessedTurn.entities (TextPipelineOutput.turns out))) ∧
    TextPipelineOutput.speaker_count out = size (seen_speakers final) ∧
    (role_counter final, seen_speakers final, speaker_ids final)
    = speaker_fold (map fst (_parse_turns transcript)).
Proof.
  intros H.
  apply (run_loop_inv (λ _, True) (λ _ _ _, True) no_spec) in H
    as (Hne & tl & st1 & dominant & Hd & Hlen & -> & Hturns & He & Hs);
    [|done].
  apply turn_with_fields in Hturns as (_ & Hl & Ht & Hg & _).
  exists tl, st1. simpl. rewrite Hl, Ht, Hg, He.
  by rewrite enumerate_labels, enumerate_texts, enumerate_languages.
Qed.

(** ** The cache of pipelines *)

Lemma load_pipeline_cache lang st o st' :
  load_pipeline lang st = (o, st') → pipeline_cache st' = pipeline_cache st.
Proof.
  unfold load_pipeline, try_except.
  destruct (call (stanza_Pipeline lang Stanza.REUSE_RESOURCES) st)
    as [[nlp|e] s1] eqn:H1; apply call_cache in H1.
  - intros [= <- <-]. done.
  - unfold bind.
    destruct (call (stanza_download lang) s1) as [[[]|e1] s2] eqn:H2;
      apply call_cache in H2.
    + intros H3. apply call_cache in H3. congruence.
    + intros [= <- <-]. congruence.
Qed.

(** A call of [_get_pipeline] that hits the cache returns the cached pipeline
    and leaves the collaborators alone. *)
Lemma get_pipeline_hit lang st nlp :
  cache_find lang (pipeline_cache st) = Some nlp →
  _get_pipeline lang st
  = (Returns nlp,
     State (world st) ((lang, nlp) :: cache_remove lang (pipeline_cache st))).
Proof.
  intros H. unfold _get_pipeline.
  rewrite (bind_returns _ _ st (pipeline_cache st) st) by done.
  by rewrite H.
Qed.

Lemma get_pipeline_miss lang st :
  cache_find lang (pipeline_cache st) = None →
  _get_pipeline lang st
  = match load_pipeline lang st with
    | (Returns nlp, st') =>
        (Returns nlp,
         State (world st')
               (take lru_maxsize ((lang, nlp) :: pipeline_cache st)))
    | (Raises e, st') => (Raises e, st')
    end.
Proof.
  intros H. unfold _get_pipeline.
  rewrite (bind_returns _ _ st (pipeline_cache st) st) by done.
  rewrite H. unfold bind at 1.
  by destruct (load_pipeline lang st) as [[nlp|e] st'].
Qed.

Lemma cache_find_head lang nlp c : cache_find lang ((lang, nlp) :: c) = Some nlp.
Proof. simpl. by rewrite decide_True. Qed.

Lemma cache_find_None lang (c : list (str * Pipeline)) :
  cache_find lang c = None ↔ lang ∉ c.*1.
Proof.
  induction c as [|[l nlp] c IH]; simpl.
  - split; [intros _ H; by apply elem_of_nil in H|done].
  - rewrite not_elem_of_cons. destruct (decide (l = lang)) as [->|Hne].
    + split; [done|]. by intros [? _].
    + rewrite IH. split; [by split|by intros [_ ?]].
Qed.

Lemma cache_remove_keys lang (c : list (str * Pipeline)) l :
  l ∈ (cache_remove lang c).*1 ↔ l ∈ c.*1 ∧ l ≠ lang.
Proof.
  unfold cache_remove. induction c as [|[l0 nlp] c IH]; simpl.
  - split; [intros H|intros [H _]]; by apply elem_of_nil in H.
  - destruct (decide (l0 ≠ lang)) as [Hne|Heq].
    + rewrite filter_cons_True by done. simpl. rewrite !elem_of_cons, IH.
      split; [intros [->|[? ?]]; by auto|intros [[->|?] ?]; by auto].
    + rewrite filter_cons_False by done. rewrite IH, elem_of_cons.
      apply dec_stable in Heq. subst l0.
      split; [intros [? ?]; by auto|intros [[->|?] ?]; by auto].
Qed.

Lemma cache_remove_NoDup lang (c : list (str * Pipeline)) :
  NoDup c.*1 → NoDup (cache_remove lang c).*1.
Proof.
  induction c as [|[l0 nlp] c IH]; simpl; [done|].
  intros [Hnotin Hnd]%NoDup_cons. unfold cache_remove in *.
  destruct (decide (l0 ≠ lang)) as [Hne|Heq].
  - rewrite filter_cons_True by done. simpl. apply NoDup_cons. split.
    + intros Hin. apply Hnotin.
      by apply (cache_remove_keys lang c l0) in Hin as [? _].
    + by apply IH.
  - rewrite filter_cons_False by done. by apply IH.
Qed.

Lemma cache_find_remove_ne lang l (c : list (str * Pipeline)) :
  l ≠ lang → cache_find l (cache_remove lang c) = cache_find l c.
Proof.
  intros Hne. unfold cache_remove.
  induction c as [|[l0 nlp] c IH]; [done|].
  destruct (decide (l0 ≠ lang)) as [Hne0|Heq].
  - rewrite filter_cons_True by done. simpl. by rewrite IH.
  - rewrite filter_cons_False by done. apply dec_stable in Heq. subst l0.
    simpl. by rewrite decide_False by done.
Qed.

Lemma process_text_cache text lang st o st' :
  process_text text lang st = (o, st') →
  ∃ o1 st1, _get_pipeline (_resolve_nlp_lang lang) st = (o1, st1)
            ∧ pipeline_cache st' = pipeline_cache st1.
Proof.
  unfold process_text. unfold bind at 1. unfold try_except.
  unfold bind at 1.
  destruct (_get_pipeline (_resolve_nlp_lang lang) st) as [[nlp|e] s1] eqn:Hg.
  - unfold bind at 1.
    destruct (call (Pipeline_call nlp (clean_text text)) s1)
      as [[doc|e] s2] eqn:Hc; apply call_cache in Hc;
      simpl; intros [= <- <-]; exists (Returns nlp), s1; by split.
  - simpl. intros [= <- <-]. by exists (Raises e), s1.
Qed.

Lemma cache_find_take_None l n (c : list (str * Pipeline)) :
  cache_find l c = None → cache_find l (take n c) = None.
Proof.
  revert n. induction c as [|[l0 nlp] c IH]; intros [|n] H; try done.
  simpl in *. destruct (decide (l0 = l)); [done|]. by apply IH.
Qed.

(** A call of [_get_pipeline] stores no pipeline under another language. *)
Lemma get_pipeline_other_key l lang st o st' :
  l ≠ lang → _get_pipeline lang st = (o, st') →
  cache_find l (pipeline_cache st) = None →
  cache_find l (pipeline_cache st') = None.
Proof.
  intros Hne H Hl.
  destruct (cache_find lang (pipeline_cache st)) as [nlp0|] eqn:Hc.
  - rewrite (get_pipeline_hit _ _ _ Hc) in H. injection H as <- <-. simpl.
    rewrite decide_False by done. by rewrite cache_find_remove_ne.
  - rewrite (get_pipeline_miss _ _ Hc) in H.
    destruct (load_pipeline lang st) as [[nlp0|e0] s1] eqn:Hload.
    + injection H as <- <-.
      apply (cache_find_take_None l lru_maxsize
               ((lang, nlp0) :: pipeline_cache st)).
      simpl. by rewrite decide_False by done.
    + injection H as <- <-. apply load_pipeline_cache in Hload.
      by rewrite Hload.
Qed.

Lemma trace_spec : ∀ text lang (st : St) (r : NlpResult.t) (st' : St),
  True → process_text text lang st = (Returns r, st') →
  True ∧ (λ text lang r,
            ∃ st0 st1, process_text text lang st0 = (Returns r, st1))
           text lang r.
Proof. intros text lang st r st' _ H. split; [done|]. by exists st, st'. Qed.

(** * The claims *)

Lemma parse_scenario_1 :
  _parse_turns scenario_1
  = [(lit "Agent", lit "Good morning.");
     (lit "Customer", lit "I lost my card.");
     (lit "Agent", lit "I can help with that.")].
Proof. by vm_compute. Qed.

Lemma speaker_fold_parts final labels :
  (role_counter final, seen_speakers final, speaker_ids final)
  = speaker_fold labels →
  speaker_ids final = (speaker_fold labels).2 ∧
  seen_speakers final = (speaker_fold labels).1.2.
Proof. by intros <-. Qed.

(** C1.  On the transcript of three lines  Agent: Good morning. /
    Customer: I lost my card. / Agent: I can help with that.  the run returns,
    whatever the collaborators return as long as the detector does not raise;
    its output has exactly three turns; the identifiers the loop binds to
    [speaker_id] are AGENT_0, CUSTOMER_0, AGENT_0 in that order, the third
    being the first one again; and [speaker_count] is 2. *)
Theorem scenario_1_speaker_ids st :
  detector_returns →
  ∃ out final st',
    run_text_pipeline_loop scenario_1 st = (Returns (out, final), st') ∧
    run_text_pipeline scenario_1 st = (Returns out, st') ∧
    length (TextPipelineOutput.turns out) = 3 ∧
    map ProcessedTurn.speaker_label (TextPipelineOutput.turns out)
    = [lit "Agent"; lit "Customer"; lit "Agent"] ∧
    speaker_ids final = [lit "AGENT_0"; lit "CUSTOMER_0"; lit "AGENT_0"] ∧
    TextPipelineOutput.speaker_count out = 2.
Proof.
  intros Hdet.
  destruct (run_loop_returns scenario_1 st Hdet) as (out & final & st' & Hrun).
  { by rewrite parse_scenario_1. }
  exists out, final, st'.
  pose proof (run_loop_shape _ _ _ _ _ Hrun)
    as (tl & st1 & _ & Hlabels & _ & _ & _ & _ & Hcount & Hs).
  rewrite parse_scenario_1 in Hlabels, Hs. simpl in Hlabels, Hs.
  apply speaker_fold_parts in Hs as [Hids Hseen].
  split_and!.
  - done.
  - unfold run_text_pipeline. by rewrite (bind_returns _ _ _ _ _ Hrun).
  - by rewrite <- (length_map ProcessedTurn.speaker_label), Hlabels.
  - done.
  - rewrite Hids. by vm_compute.
  - rewrite Hcount, Hseen. by vm_compute.
Qed.

(** C2.  In every run that returns, the assignment of identifiers to labels
    is a function and is injective: at each turn the loop binds [speaker_id]
    to the entry of [seen_speakers] for the turn's label, so two turns have
    the same label exactly when they have the same identifier, no identifier
    is the entry of two labels, and [speaker_count] is the number of distinct
    labels. *)
Theorem speaker_ids_function_and_injective transcript st out final st' :
  run_text_pipeline_loop transcript st = (Returns (out, final), st') →
  let labels :=
    map ProcessedTurn.speaker_label (TextPipelineOutput.turns out) in
  let ids := speaker_ids final in
  labels = map fst (_parse_turns transcript) ∧
  length ids = length labels ∧
  (∀ i label sid, labels !! i = Some label → ids !! i = Some sid →
     seen_speakers final !! label = Some sid) ∧
  (∀ i j li lj si sj,
     labels !! i = Some li → labels !! j = Some lj →
     ids !! i = Some si → ids !! j = Some sj →
     (li = lj ↔ si = sj)) ∧
  (∀ l1 l2 sid, seen_speakers final !! l1 = Some sid →
     seen_speakers final !! l2 = Some sid → l1 = l2) ∧
  TextPipelineOutput.speaker_count out
  = size (list_to_set labels : gset str).
Proof.
  intros Hrun labels ids.
  pose proof (run_loop_shape _ _ _ _ _ Hrun)
    as (tl & st1 & _ & Hlabels & _ & _ & _ & _ & Hcount & Hs).
  fold labels in Hlabels. rewrite <- Hlabels in Hs.
  pose proof (speaker_fold_ok labels) as (_ & Hinj & Hdom & Hids).
  rewrite <- Hs in Hinj, Hdom, Hids. simpl in Hinj, Hdom, Hids. fold ids in Hids.
  assert (Hfun : ∀ i label sid, labels !! i = Some label →
            ids !! i = Some sid → seen_speakers final !! label = Some sid).
  { intros i label sid Hl Hi. by apply (Forall2_lookup_lr _ _ _ _ _ _ Hids Hl Hi). }
  split_and!.
  - done.
  - symmetry. by eapply Forall2_length.
  - done.
  - intros i j li lj si sj Hli Hlj Hsi Hsj.
    pose proof (Hfun _ _ _ Hli Hsi) as Hi.
    pose proof (Hfun _ _ _ Hlj Hsj) as Hj. split.
    + intros <-. congruence.
    + intros <-. by eapply Hinj.
  - done.
  - by rewrite Hcount, <- Hdom, size_dom.
Qed.

Lemma no_colon_no_label_line transcript :
  58%N ∉ transcript →
  Forall (λ l, is_label_line l = false) (Py.splitlines transcript).
Proof using.
  intros Hno. apply Forall_forall. intros l Hl.
  destruct (is_label_line l) eqn:E; [|done]. exfalso.
  apply is_label_line_match in E as [_ [m Hm]].
  apply turn_re_colon, strip_elem in Hm.
  by apply Hno, (splitlines_elem _ l).
Qed.

Lemma parse_lines_nil lines :
  parse_lines lines = [] ↔ Forall (λ l, is_label_line l = false) lines.
Proof.
  rewrite <- length_zero_iff_nil, parse_lines_length, length_zero_iff_nil.
  split.
  - intros H. apply Forall_forall. intros l Hl.
    destruct (is_label_line l) eqn:E; [|done].
    assert (l ∈ filter is_label_line lines) as Hin
      by (apply list_elem_of_filter; split; [by apply Is_true_true|done]).
    rewrite H in Hin. by apply elem_of_nil in Hin.
  - intros H. induction H as [|l lines Hl _ IH]; [done|].
    by rewrite filter_cons_False by (by apply Is_true_false).
Qed.

Ltac same_raise H := simpl in H |- *; intros [= ->]; by apply H.

Lemma call_no_value_error {A} (op : extcall World Err A) st msg :
  (call op st).1 ≠ Raises (ValueError msg).
Proof. unfold call. by destruct (op (world st)) as [[e|a] w]. Qed.

Lemma detect_all_no_value_error raw_turns msg : ∀ st,
  (detect_all raw_turns st).1 ≠ Raises (ValueError msg).
Proof.
  unfold detect_all. induction raw_turns as [|t l IH]; intros st; [done|].
  simpl. unfold bind at 1.
  pose proof (call_no_value_error (detect_language t.2) st msg) as Hc.
  destruct (call (detect_language t.2) st) as [[b|e] s1]; [|same_raise Hc].
  unfold bind at 1. specialize (IH s1).
  destruct (mapM _ l s1) as [[bs|e] s2]; [done|same_raise IH].
Qed.

Lemma turn_body_no_value_error acc item st msg :
  (turn_body acc item st).1 ≠ Raises (ValueError msg).
Proof.
  destruct item as [idx [[label text] [lang conf]]]. unfold turn_body.
  destruct (assign_speaker _ _ _) as [[[sid role] rc'] seen'].
  destruct (process_text_returns text lang st) as (r & s2 & Hr & _).
  rewrite (bind_returns _ _ _ _ _ Hr). unfold bind, new_ProcessedTurn.
  by destruct (confidence_in_bounds conf).
Qed.

Lemma foldM_turn_body_no_value_error items msg : ∀ acc st,
  (foldM turn_body items acc st).1 ≠ Raises (ValueError msg).
Proof.
  induction items as [|item items IH]; intros acc st; [done|].
  simpl. unfold bind at 1.
  pose proof (turn_body_no_value_error acc item st msg) as Hb.
  destruct (turn_body acc item st) as [[acc1|e] s1]; [apply IH|same_raise Hb].
Qed.

(** C3.  When the parser produces no turn, [run_text_pipeline] raises the
    parse error, calls no collaborator and returns no output; this is so in
    particular for every transcript without a colon, and exactly for the
    transcripts without a label line.  When the parser produces a turn, the
    run does not raise that error. *)
Theorem parse_failure_is_fatal transcript st :
  (_parse_turns transcript = [] →
   run_text_pipeline transcript st
   = (Raises (ValueError no_turns_message), st)) ∧
  (58%N ∉ transcript → _parse_turns transcript = []) ∧
  (label_line_count transcript = 0 ↔ _parse_turns transcript = []) ∧
  (_parse_turns transcript ≠ [] →
   ∀ msg, (run_text_pipeline transcript st).1 ≠ Raises (ValueError msg)).
Proof.
  split_and!.
  - intros H. unfold run_text_pipeline, run_text_pipeline_loop, bind, raise.
    by rewrite H.
  - intros H. by apply parse_lines_nil, no_colon_no_label_line.
  - unfold label_line_count, _parse_turns.
    by rewrite <- parse_lines_length, length_zero_iff_nil.
  - intros Hne msg. unfold run_text_pipeline, run_text_pipeline_loop.
    destruct (_parse_turns transcript) as [|t raw]; [done|].
    set (raw_turns := t :: raw). unfold bind at 1. unfold bind at 1.
    pose proof (detect_all_no_value_error raw_turns msg st) as Hd.
    unfold detect_all in Hd.
    destruct (mapM _ raw_turns st) as [[tl|e] st1]; [|same_raise Hd].
    unfold bind at 1.
    pose proof (call_no_value_error
                  (dominant_language (map snd raw_turns)) st1 msg) as Hc.
    destruct (call (dominant_language (map snd raw_turns)) st1)
      as [[dl|e] st2]; [|same_raise Hc].
    unfold bind at 1.
    pose proof (foldM_turn_body_no_value_error
                  (enumerate (zip raw_turns tl)) msg
                  (LoopState [] [] ∅ ∅ []) st2) as Hf.
    destruct (foldM turn_body _ _ st2) as [[final|e] st3]; [done|same_raise Hf].
Qed.

Lemma degraded_spec : ∀ text lang (st : St) (r : NlpResult.t) (st' : St),
  stanza_raises (pipeline_cache st) →
  process_text text lang st = (Returns r, st') →
  stanza_raises (pipeline_cache st')
  ∧ (λ text (_ : str) r, r = degraded_result (clean_text text)) text lang r.
Proof.
  intros text lang st r st' Hs H.
  destruct (process_text_degraded text lang st Hs) as (st2 & H2 & Hs2).
  rewrite H in H2. by injection H2 as -> ->.
Qed.

(** C4.  When Stanza raises on every call that reaches it, [process_text]
    still returns, for every text and language: the cleaned text is
    [clean_text] of the input, the lemmatized text equals the cleaned text,
    the tokens are the whitespace split of the cleaned text and there is no
    entity.  A run over any transcript with a turn then returns, and every
    one of its turns carries these values. *)
Theorem nlp_failure_degrades :
  (∀ text lang st,
     stanza_raises (pipeline_cache st) →
     ∃ r st',
       process_text text lang st = (Returns r, st') ∧
       NlpResult.cleaned_text r = clean_text text ∧
       NlpResult.lemmatized_text r = clean_text text ∧
       NlpResult.tokens r = Py.split (clean_text text) ∧
       NlpResult.entities r = []) ∧
  (∀ transcript st,
     stanza_raises (pipeline_cache st) →
     detector_returns →
     _parse_turns transcript ≠ [] →
     ∃ out st',
       run_text_pipeline transcript st = (Returns out, st') ∧
       length (TextPipelineOutput.turns out)
       = length (_parse_turns transcript) ∧
       Forall (λ turn,
                 ProcessedTurn.cleaned_text turn
                 = clean_text (ProcessedTurn.original_text turn) ∧
                 ProcessedTurn.lemmatized_text turn
                 = ProcessedTurn.cleaned_text turn ∧
                 ProcessedTurn.tokens turn
                 = Py.split (ProcessedTurn.cleaned_text turn) ∧
                 ProcessedTurn.entities turn = [])
              (TextPipelineOutput.turns out)).
Proof.
  split.
  - intros text lang st Hs.
    destruct (process_text_degraded text lang st Hs) as (st' & H & _).
    by exists (degraded_result (clean_text text)), st'.
  - intros transcript st Hs Hdet Hne.
    destruct (run_loop_returns transcript st Hdet Hne)
      as (out & final & st' & Hrun).
    exists out, st'. split.
    { unfold run_text_pipeline. by rewrite (bind_returns _ _ _ _ _ Hrun). }
    pose proof (run_loop_shape _ _ _ _ _ Hrun)
      as (_ & _ & _ & Hlabels & _ & _ & _ & _).
    apply (run_loop_inv _ _ degraded_spec) in Hrun
      as (_ & tl & st1 & dominant & _ & _ & -> & Hturns & _); [|done].
    split.
    + simpl in *.
      by rewrite <- (length_map ProcessedTurn.speaker_label), Hlabels,
                 length_map.
    + apply turn_with_fields in Hturns as (_ & _ & _ & _ & Hall). simpl.
      eapply Forall_impl; [exact Hall|].
      intros turn (r & -> & Hc & Hl & Ht & He).
      by rewrite Hc, Hl, Ht, He.
Qed.

(** The answers of [detect_all] are those [detect_language] returned on the
    texts of the turns. *)
Lemma detect_all_answers raw_turns : ∀ st turn_langs st',
  detect_all raw_turns st = (Returns turn_langs, st') →
  Forall2 (λ (t : str * str) lc,
             ∃ w w', detect_language t.2 w = (inr lc, w'))
          raw_turns turn_langs.
Proof.
  induction raw_turns as [|t l IH]; intros st turn_langs st' H;
    unfold detect_all in *; simpl in H.
  - injection H as <- <-. constructor.
  - apply bind_inv in H as (lc & st1 & Hc & H).
    apply bind_inv in H as (tl & st2 & Hl & H). injection H as <- <-.
    constructor; [|by eapply IH].
    unfold call in Hc.
    destruct (detect_language t.2 (world st)) as [[e|a] w'] eqn:Hd; [done|].
    injection Hc as -> <-. by exists (world st), w'.
Qed.

Lemma items_detections (R : str → str * Conf → Prop) P
    (raw_turns : list (str * str)) (turn_langs : list (str * Conf)) :
  Forall2 (λ t lc, R t.2 lc) raw_turns turn_langs →
  ∀ (g : nat → nat) turns,
  Forall2 (turn_with P) (imap (λ i x, (g i, x)) (zip raw_turns turn_langs))
          turns →
  Forall (λ turn, R (ProcessedTurn.original_text turn)
                    (ProcessedTurn.language turn,
                     ProcessedTurn.language_confidence turn)) turns.
Proof.
  induction 1 as [|[label text] [lang conf] raw tl HR _ IH];
    intros g turns Hturns; simpl in Hturns.
  - by apply Forall2_nil_inv_l in Hturns as ->.
  - apply Forall2_cons_inv_l in Hturns
      as (turn & turns' & (_ & r & _ & ->) & Hturns & ->).
    constructor; [done|]. by apply (IH (g ∘ S)).
Qed.

(** In a run that returns, the language and the confidence of a turn are
    what a call of [detect_language] on the turn's text returned. *)
Lemma run_detections transcript st out st' :
  run_text_pipeline transcript st = (Returns out, st') →
  Forall (λ turn,
            ∃ w w',
              detect_language (ProcessedTurn.original_text turn) w
              = (inr (ProcessedTurn.language turn,
                      ProcessedTurn.language_confidence turn), w'))
         (TextPipelineOutput.turns out).
Proof.
  intros H. apply run_text_pipeline_inv in H as [final Hrun].
  apply (run_loop_inv (λ _, True) (λ _ _ _, True) no_spec) in Hrun
    as (_ & tl & st1 & dominant & Hd & _ & -> & Hturns & _); [|done].
  apply detect_all_answers in Hd. simpl.
  exact (items_detections
           (λ text lc, ∃ w w', detect_language text w = (inr lc, w'))
           _ _ _ Hd id _ Hturns).
Qed.



Lemma parse_scenario_2 :
  _parse_turns scenario_2
  = [(lit "Agent", lit "Hello, how can I help?");
     (lit "Customer", lit "Thanks.")].
Proof. by vm_compute. Qed.

Lemma run_turns_length transcript st out st' :
  run_text_pipeline transcript st = (Returns out, st') →
  length (TextPipelineOutput.turns out) = length (_parse_turns transcript).
Proof.
  intros H. apply run_text_pipeline_inv in H as [final Hrun].
  pose proof (run_loop_shape _ _ _ _ _ Hrun)
    as (_ & _ & _ & Hlabels & _ & _ & _ & _).
  by rewrite <- (length_map ProcessedTurn.speaker_label), Hlabels, length_map.
Qed.

(** C6.  The parser yields one turn per label line, and so does every run
    that returns; a run returns when the transcript has a label line and the
    detector returns.  A label line followed, up to the end of the input, by
    lines that are not label lines yields the turn of its label whose text is
    the remainder of the label line and the non-blank lines after it, stripped
    and joined by single spaces; lines with no label line before them yield
    nothing.  The transcript  Agent: Hello, / how can I help? /
    Customer: Thanks.  yields two turns, the first with the text
    Hello, how can I help? *)
Theorem one_turn_per_label_line :
  (∀ transcript,
     length (_parse_turns transcript) = label_line_count transcript) ∧
  (∀ transcript st out st',
     run_text_pipeline transcript st = (Returns out, st') →
     length (TextPipelineOutput.turns out) = label_line_count transcript) ∧
  (∀ transcript st,
     detector_returns → 0 < label_line_count transcript →
     ∃ out st', run_text_pipeline transcript st = (Returns out, st')) ∧
  (∀ before label_line after m,
     Py.strip label_line ≠ [] →
     re_match _TURN_RE (Py.strip label_line) = Some m →
     Forall (λ l, is_label_line l = false) after →
     parse_lines (before ++ label_line :: after)
     = parse_lines before
       ++ [(Py.strip (group 1 m),
            Py.strip (Py.join (lit " ")
                        (Py.strip (group 2 m) :: continuation after)))]) ∧
  (∀ lines,
     Forall (λ l, is_label_line l = false) lines → parse_lines lines = []) ∧
  _parse_turns scenario_2
  = [(lit "Agent", lit "Hello, how can I help?");
     (lit "Customer", lit "Thanks.")].
Proof.
  split_and!.
  - intros transcript. apply parse_lines_length.
  - intros transcript st out st' H.
    rewrite (run_turns_length _ _ _ _ H). apply parse_lines_length.
  - intros transcript st Hdet Hpos.
    destruct (run_loop_returns transcript st Hdet) as (out & final & st' & H).
    { intros Hnil. unfold label_line_count in Hpos.
      rewrite <- parse_lines_length in Hpos. fold (_parse_turns transcript) in Hpos.
      rewrite Hnil in Hpos. simpl in Hpos. lia. }
    exists out, st'. unfold run_text_pipeline.
    by rewrite (bind_returns _ _ _ _ _ H).
  - apply parse_lines_block.
  - intros lines. apply parse_lines_nil.
  - apply parse_scenario_2.
Qed.

(** [process_text] when Stanza answers: the pipeline of the resolved language
    is fetched, it is called on the cleaned text, and the result is read off
    the document it returns. *)
Lemma process_text_document text lang st nlp st1 doc w2 :
  _get_pipeline (_resolve_nlp_lang lang) st = (Returns nlp, st1) →
  Pipeline_call nlp (clean_text text) (world st1) = (inr doc, w2) →
  process_text text lang st
  = (Returns (NlpResult.mk (clean_text text)
                (Py.join (lit " ") (map lemma_or_text (doc_words doc)))
                (map Stanza.Word.text (doc_words doc))
                (doc_entities doc)),
     State w2 (pipeline_cache st1)).
Proof.
  intros Hg Hc. unfold process_text. unfold bind at 1. unfold try_except.
  rewrite (bind_returns _ _ _ _ _ Hg). unfold bind at 1. unfold call.
  by rewrite Hc.
Qed.

(** A result of [process_text] is the result of its handler, or is read off
    a document that the pipeline of the resolved language returned on the
    cleaned text. *)
Lemma process_text_inv text lang st r st' :
  process_text text lang st = (Returns r, st') →
  r = degraded_result (clean_text text) ∨
  ∃ nlp st1 doc w2,
    _get_pipeline (_resolve_nlp_lang lang) st = (Returns nlp, st1) ∧
    Pipeline_call nlp (clean_text text) (world st1) = (inr doc, w2) ∧
    st' = State w2 (pipeline_cache st1) ∧
    r = NlpResult.mk (clean_text text)
          (Py.join (lit " ") (map lemma_or_text (doc_words doc)))
          (map Stanza.Word.text (doc_words doc))
          (doc_entities doc).
Proof.
  intros H.
  destruct (_get_pipeline (_resolve_nlp_lang lang) st) as [[nlp|e] st1] eqn:Hg.
  - destruct (Pipeline_call nlp (clean_text text) (world st1))
      as [[e|doc] w2] eqn:Hc.
    + left. unfold process_text in H. unfold bind at 1 in H.
      unfold try_except in H. rewrite (bind_returns _ _ _ _ _ Hg) in H.
      rewrite (bind_raises _ _ _ _ _ (call_raises _ _ _ _ Hc)) in H.
      by injection H as <- <-.
    + right. rewrite (process_text_document _ _ _ _ _ _ _ Hg Hc) in H.
      injection H as <- <-. by exists nlp, st1, doc, w2.
  - left. unfold process_text in H. unfold bind at 1 in H.
    unfold try_except in H. rewrite (bind_raises _ _ _ _ _ Hg) in H.
    by injection H as <- <-.
Qed.

Lemma document_spec : ∀ text lang (st : St) (r : NlpResult.t) (st' : St),
  True → process_text text lang st = (Returns r, st') →
  True ∧
  (λ text lang r,
     NlpResult.cleaned_text r = clean_text text ∧
     (r = degraded_result (clean_text text) ∨
      ∃ st0 nlp st1 doc w2,
        _get_pipeline (_resolve_nlp_lang lang) st0 = (Returns nlp, st1) ∧
        Pipeline_call nlp (clean_text text) (world st1) = (inr doc, w2) ∧
        r = NlpResult.mk (clean_text text)
              (Py.join (lit " ") (map lemma_or_text (doc_words doc)))
              (map Stanza.Word.text (doc_words doc))
              (doc_entities doc))) text lang r.
Proof.
  intros text lang st r st' _ H. split; [done|].
  apply process_text_inv in H as [->|(nlp & st1 & doc & w2 & Hg & Hc & _ & ->)].
  - split; [done|]. by left.
  - split; [done|]. right. by exists st, nlp, st1, doc, w2.
Qed.

(** The entities kept before a kept entity are those kept of what was
    emitted before its first occurrence. *)
Lemma dedupe_split l : ∀ k1 e k2,
  dedupe_entities l = k1 ++ e :: k2 →
  ∃ pre post, l = pre ++ e :: post ∧ k1 = dedupe_entities pre
              ∧ entity_key e ∉ entity_key <$> pre.
Proof.
  induction l as [|x l IH] using rev_ind; intros k1 e k2 H.
  - by destruct k1.
  - rewrite dedupe_snoc in H.
    destruct (decide (entity_key x ∈ entity_key <$> l)) as [Hin|Hin].
    + rewrite app_nil_r in H.
      destruct (IH _ _ _ H) as (pre & post & -> & -> & Hpre).
      exists pre, (post ++ [x]). by rewrite <- app_assoc.
    + apply snoc_eq_middle in H as [(-> & <- & ->)|(k2' & -> & H)].
      * by exists l, [].
      * destruct (IH _ _ _ H) as (pre & post & -> & -> & Hpre).
        exists pre, (post ++ [x]). by rewrite <- app_assoc.
Qed.

(** Two entities have the same key when their lower-cased texts and their
    labels are equal. *)
Lemma entity_key_eq e1 e2 :
  entity_key e1 = entity_key e2 ↔
  str_lower (NamedEntity.text e1) = str_lower (NamedEntity.text e2) ∧
  NamedEntity.label e1 = NamedEntity.label e2.
Proof.
  unfold entity_key. split.
  - by intros [= -> ->].
  - by intros [-> ->].
Qed.

Lemma entity_key_fresh e (pre : list NamedEntity.t) :
  entity_key e ∉ entity_key <$> pre ↔
  ∀ e', e' ∈ pre →
    ¬ (str_lower (NamedEntity.text e') = str_lower (NamedEntity.text e) ∧
       NamedEntity.label e' = NamedEntity.label e).
Proof.
  rewrite list_elem_of_fmap. split.
  - intros Hn e' He' Hk. apply Hn. exists e'. split; [|done].
    symmetry. by apply entity_key_eq.
  - intros Hn (e' & Hk & He'). apply (Hn e' He'). apply entity_key_eq.
    by symmetry.
Qed.

(** C7.  In every run that returns, whatever the entity extractor emits:
    - no two elements of [all_entities] have equal lower-cased texts and
      equal labels;
    - [all_entities] is drawn, in order, from the entities of the turns taken
      in turn order and within a turn in the order of the turn's list;
    - its members are exactly the first occurrences: the entities before
      which none with an equal lower-cased text and an equal label was
      emitted;
    - every emitted entity is represented: one with an equal lower-cased
      text and an equal label is kept;
    - the order is that of the first occurrences: what is kept before a kept
      entity is drawn from what was emitted before its first occurrence;
    - the turns are numbered from zero in the order of the output;
    - the entities of a turn are none, or the spans, with their text, type and
      offsets, of the sentences in order of a document that a pipeline
      returned on the turn's cleaned text;
    - and when the pipeline of the resolved language returns a document on
      the cleaned text, [process_text] returns those spans in that order. *)
Theorem all_entities_first_occurrences transcript st out st' :
  run_text_pipeline transcript st = (Returns out, st') →
  let turns := TextPipelineOutput.turns out in
  let emitted := concat (map ProcessedTurn.entities turns) in
  let kept := TextPipelineOutput.all_entities out in
  let same_key (e1 e2 : NamedEntity.t) :=
    str_lower (NamedEntity.text e1) = str_lower (NamedEntity.text e2) ∧
    NamedEntity.label e1 = NamedEntity.label e2 in
  let spans (doc : Stanza.Document.t) :=
    map (λ ent, NamedEntity.mk (Stanza.Span.text ent) (Stanza.Span.type ent)
                  (Stanza.Span.start_char ent) (Stanza.Span.end_char ent))
        (concat (map Stanza.Sentence.ents (Stanza.Document.sentences doc))) in
  (∀ i j e1 e2, kept !! i = Some e1 → kept !! j = Some e2 →
     same_key e1 e2 → i = j) ∧
  kept `sublist_of` emitted ∧
  (∀ e, e ∈ kept ↔
        ∃ pre post, emitted = pre ++ e :: post
                    ∧ ∀ e', e' ∈ pre → ¬ same_key e' e) ∧
  (∀ e, e ∈ emitted → ∃ e', e' ∈ kept ∧ same_key e' e) ∧
  (∀ k1 e k2, kept = k1 ++ e :: k2 →
     ∃ pre post, emitted = pre ++ e :: post
                 ∧ (∀ e', e' ∈ pre → ¬ same_key e' e)
                 ∧ k1 `sublist_of` pre) ∧
  map ProcessedTurn.turn_index turns = seq 0 (length turns) ∧
  Forall (λ turn,
            ProcessedTurn.entities turn = [] ∨
            ∃ nlp w doc w',
              Pipeline_call nlp (ProcessedTurn.cleaned_text turn) w
              = (inr doc, w') ∧
              ProcessedTurn.entities turn = spans doc) turns ∧
  (∀ text lang st0 nlp st1 doc w2,
     _get_pipeline (_resolve_nlp_lang lang) st0 = (Returns nlp, st1) →
     Pipeline_call nlp (clean_text text) (world st1) = (inr doc, w2) →
     ∃ r st2, process_text text lang st0 = (Returns r, st2)
              ∧ NlpResult.entities r = spans doc).
Proof.
  intros H turns emitted kept same_key spans.
  apply run_text_pipeline_inv in H as [final Hrun].
  pose proof (run_loop_shape _ _ _ _ _ Hrun)
    as (_ & _ & _ & _ & _ & _ & _ & Hents & _).
  fold turns emitted kept in Hents.
  apply (run_loop_inv (λ _, True) _ document_spec) in Hrun
    as (_ & tl & st1 & dominant & _ & Hlen & Hout & Hturns & _); [|done].
  pose proof Hturns as Hturns'.
  replace (processed_turns final) with turns in Hturns'
    by (unfold turns; by rewrite Hout).
  clear Hturns Hout. clearbody kept. subst kept.
  pose proof (dedupe_keys_NoDup emitted) as Hnd.
  split_and!.
  - intros i j e1 e2 Hi Hj Hk.
    eapply (NoDup_lookup _ i j (entity_key e1)); [exact Hnd| |].
    + by rewrite list_lookup_fmap, Hi.
    + rewrite list_lookup_fmap, Hj. simpl. f_equal. symmetry.
      by apply entity_key_eq.
  - apply dedupe_sublist.
  - intros e. rewrite dedupe_first_occurrences.
    split; intros (pre & post & Hl & Hpre); exists pre, post;
      (split; [done|]); by apply entity_key_fresh.
  - intros e He.
    assert (Hk : entity_key e ∈ entity_key <$> dedupe_entities emitted).
    { apply dedupe_keys_elem, list_elem_of_fmap. by exists e. }
    apply list_elem_of_fmap in Hk as (e' & Hk & He').
    exists e'. split; [done|]. apply entity_key_eq. by symmetry.
  - intros k1 e k2 Hk.
    destruct (dedupe_split _ _ _ _ Hk) as (pre & post & Hl & -> & Hpre).
    exists pre, post. split_and!; [done| |apply dedupe_sublist].
    by apply entity_key_fresh.
  - pose proof (Forall2_length _ _ _ Hturns') as Hl.
    unfold enumerate in Hl. rewrite length_imap in Hl.
    apply turn_with_fields in Hturns' as (Hidx & _).
    by rewrite Hidx, enumerate_indices, Hl.
  - apply turn_with_fields in Hturns' as (_ & _ & _ & _ & Hall).
    eapply Forall_impl; [exact Hall|].
    intros turn (r & (Hclean & Hr) & Hc & _ & _ & He). rewrite He, Hc.
    destruct Hr as [->|(st0 & nlp & st2 & doc & w2 & _ & Hcall & ->)].
    + by left.
    + right. by exists nlp, (world st2), doc, w2.
  - intros text lang st0 nlp st2 doc w2 Hg Hc.
    rewrite (process_text_document _ _ _ _ _ _ _ Hg Hc). by eexists _, _.
Qed.

(** C8, at the input on which the code departs from the claim.  A control
    character that is not whitespace, here the bell character between two
    letters, is neither removed nor replaced by a space. *)
Theorem clean_text_keeps_control_character :
  clean_text (lit "a" ++ [7%N] ++ lit "b") = lit "a" ++ [7%N] ++ lit "b".
Proof. by vm_compute. Qed.

(** C9, at the input on which the code departs from the claim.  The single
    line  Agent:  yields one turn, with the label Agent and an empty text. *)
Theorem label_without_text_yields_turn :
  _parse_turns (lit "Agent:") = [(lit "Agent", [])].
Proof. by vm_compute. Qed.

Lemma resolve_en : _resolve_nlp_lang (lit "en") = lit "en".
Proof. unfold _resolve_nlp_lang. by case_decide. Qed.

(** C10.  For a language code outside the supported set:
    - the code resolved for Stanza is the English one, which differs from the
      detected code;
    - when no English pipeline is cached, [process_text] builds the pipeline
      of the English code, calls it on the cleaned text and stores it under
      the English code; when one is cached it calls that one; and whenever
      the English pipeline is obtained and returns a document, the tokens are
      the texts of the document's words, the lemmatized text joins their
      lemmas (the text of a word without lemma) with single spaces, and the
      entities are the document's spans;
    - [process_text] returns and never raises, it does what it does for
      English, and it stores no pipeline under the detected code;
    - in every run that returns, a turn for which [detect_language] answered
      that code has it as its [language], while its cleaned and lemmatized
      text, tokens and entities are those of a call of [process_text] for
      English on the turn's text. *)
Theorem unsupported_language_uses_english lang :
  lang ∉ STANZA_SUPPORTED →
  let english_result (text : str) (doc : Stanza.Document.t) :=
    let words :=
      concat (map Stanza.Sentence.words (Stanza.Document.sentences doc)) in
    let spans :=
      concat (map Stanza.Sentence.ents (Stanza.Document.sentences doc)) in
    NlpResult.mk (clean_text text)
      (Py.join (lit " ")
         (map (λ w, match Stanza.Word.lemma w with
                    | Some (c :: l) => c :: l
                    | _ => Stanza.Word.text w
                    end) words))
      (map Stanza.Word.text words)
      (map (λ ent, NamedEntity.mk (Stanza.Span.text ent)
                     (Stanza.Span.type ent) (Stanza.Span.start_char ent)
                     (Stanza.Span.end_char ent)) spans) in
  _resolve_nlp_lang lang = lit "en" ∧
  _resolve_nlp_lang lang ≠ lang ∧
  (∀ text st nlp w1 doc w2,
     cache_find (lit "en") (pipeline_cache st) = None →
     stanza_Pipeline (lit "en") Stanza.REUSE_RESOURCES (world st)
     = (inr nlp, w1) →
     Pipeline_call nlp (clean_text text) w1 = (inr doc, w2) →
     process_text text lang st
     = (Returns (english_result text doc),
        State w2 (take lru_maxsize ((lit "en", nlp) :: pipeline_cache st)))) ∧
  (∀ text st nlp doc w2,
     cache_find (lit "en") (pipeline_cache st) = Some nlp →
     Pipeline_call nlp (clean_text text) (world st) = (inr doc, w2) →
     process_text text lang st
     = (Returns (english_result text doc),
        State w2 ((lit "en", nlp)
                  :: cache_remove (lit "en") (pipeline_cache st)))) ∧
  (∀ text st nlp st1 doc w2,
     _get_pipeline (lit "en") st = (Returns nlp, st1) →
     Pipeline_call nlp (clean_text text) (world st1) = (inr doc, w2) →
     process_text text lang st
     = (Returns (english_result text doc), State w2 (pipeline_cache st1))) ∧
  (∀ text st, ∃ r st', process_text text lang st = (Returns r, st')) ∧
  (∀ text, process_text text lang = process_text text (lit "en")) ∧
  (∀ text st o st',
     process_text text lang st = (o, st') →
     cache_find lang (pipeline_cache st) = None →
     cache_find lang (pipeline_cache st') = None) ∧
  (∀ transcript st out st',
     run_text_pipeline transcript st = (Returns out, st') →
     ∃ turn_langs st1,
       detect_all (_parse_turns transcript) st = (Returns turn_langs, st1) ∧
       map ProcessedTurn.language (TextPipelineOutput.turns out)
       = map fst turn_langs ∧
       ∀ i lc, turn_langs !! i = Some lc → lc.1 = lang →
         ∃ turn, TextPipelineOutput.turns out !! i = Some turn
                 ∧ ProcessedTurn.language turn = lang
                 ∧ _resolve_nlp_lang (ProcessedTurn.language turn)
                   ≠ ProcessedTurn.language turn
                 ∧ ∃ st2 r st3,
                     process_text (ProcessedTurn.original_text turn)
                       (lit "en") st2 = (Returns r, st3)
                     ∧ ProcessedTurn.cleaned_text turn
                       = NlpResult.cleaned_text r
                     ∧ ProcessedTurn.lemmatized_text turn
                       = NlpResult.lemmatized_text r
                     ∧ ProcessedTurn.tokens turn = NlpResult.tokens r
                     ∧ ProcessedTurn.entities turn = NlpResult.entities r).
Proof.
  intros Hlang english_result.
  assert (Hen : _resolve_nlp_lang lang = lit "en").
  { unfold _resolve_nlp_lang. by case_decide. }
  assert (Hne : _resolve_nlp_lang lang ≠ lang).
  { rewrite Hen. intros <-. apply Hlang. by vm_compute. }
  assert (Hsame : ∀ text, process_text text lang = process_text text (lit "en")).
  { intros text. unfold process_text. by rewrite Hen, resolve_en. }
  assert (Hdoc : ∀ text st nlp st1 doc w2,
     _get_pipeline (lit "en") st = (Returns nlp, st1) →
     Pipeline_call nlp (clean_text text) (world st1) = (inr doc, w2) →
     process_text text lang st
     = (Returns (english_result text doc), State w2 (pipeline_cache st1))).
  { intros text st nlp st1 doc w2 Hg Hc. rewrite <- Hen in Hg.
    by rewrite (process_text_document _ _ _ _ _ _ _ Hg Hc). }
  split_and!; [done|done| | |exact Hdoc| |exact Hsame| |].
  - intros text st nlp w1 doc w2 Hmiss Hp Hc.
    assert (Hg : _get_pipeline (lit "en") st
                 = (Returns nlp,
                    State w1 (take lru_maxsize
                                ((lit "en", nlp) :: pipeline_cache st)))).
    { rewrite (get_pipeline_miss _ _ Hmiss).
      unfold load_pipeline, try_except, call. by rewrite Hp. }
    by rewrite (Hdoc text _ _ _ doc w2 Hg Hc).
  - intros text st nlp doc w2 Hhit Hc.
    by rewrite (Hdoc text _ _ _ doc w2 (get_pipeline_hit _ _ _ Hhit) Hc).
  - intros text st.
    destruct (process_text_returns text lang st) as (r & st' & H & _).
    by exists r, st'.
  - intros text st o st' H Hnone.
    apply process_text_cache in H as (o1 & st1 & Hg & ->).
    eapply get_pipeline_other_key; [|exact Hg|exact Hnone].
    intros Heq. by apply Hne.
  - intros transcript st out st' H.
    apply run_text_pipeline_inv in H as [final Hrun].
    pose proof (run_loop_shape _ _ _ _ _ Hrun)
      as (tl & st1 & Hd & _ & _ & Hlangs & Hout & _).
    apply (run_loop_inv (λ _, True) _ trace_spec) in Hrun
      as (_ & tl' & st1' & dominant & Hd' & _ & _ & Hturns & _); [|done].
    rewrite <- Hout in Hturns.
    apply turn_with_fields in Hturns as (_ & _ & _ & _ & Hall).
    exists tl, st1. split_and!; [done|done|].
    intros i lc Hi Hlc.
    assert (Hl : (map fst tl) !! i = Some lang).
    { change (map fst tl) with (fst <$> tl).
      by rewrite list_lookup_fmap, Hi, <- Hlc. }
    rewrite <- Hlangs in Hl.
    change (map ProcessedTurn.language (TextPipelineOutput.turns out))
      with (ProcessedTurn.language <$> TextPipelineOutput.turns out) in Hl.
    rewrite list_lookup_fmap in Hl.
    destruct (TextPipelineOutput.turns out !! i) as [turn|] eqn:Hturn;
      [|done].
    injection Hl as Hl. exists turn. rewrite Hl. split_and!; [done..|].
    rewrite Forall_lookup in Hall.
    destruct (Hall i turn Hturn)
      as (r & (st2 & st3 & Hr) & Hc & Hlem & Htok & Hent).
    rewrite Hl, Hsame in Hr. by exists st2, r, st3.
Qed.

(** * Further properties of the pipeline *)

Lemma turn_with_roles P items turns :
  Forall2 (turn_with P) items turns →
  Forall (λ turn, ProcessedTurn.role turn
                  = _resolve_role (ProcessedTurn.speaker_label turn)) turns.
Proof.
  induction 1 as [|[idx [[label text] [lang conf]]] turn items turns
                   (Hconf & r & HP & ->) _ IH]; by constructor.
Qed.

Lemma turn_with_confidences P items turns :
  Forall2 (turn_with P) items turns →
  map ProcessedTurn.language_confidence turns
  = map (λ item, item.2.2.2) items ∧
  Forall (λ turn, confidence_in_bounds
                    (ProcessedTurn.language_confidence turn) = true) turns.
Proof.
  induction 1 as [|[idx [[label text] [lang conf]]] turn items turns
                   (Hconf & r & HP & ->) _ [IH1 IH2]]; [done|].
  simpl. rewrite IH1. split; [done|]. by constructor.
Qed.

Lemma cleaned_spec : ∀ text lang (st : St) (r : NlpResult.t) (st' : St),
  True → process_text text lang st = (Returns r, st') →
  True ∧ (λ text (_ : str) r, NlpResult.cleaned_text r = clean_text text)
           text lang r.
Proof.
  intros text lang st r st' _ H. split; [done|].
  destruct (process_text_returns text lang st) as (r' & st2 & H' & Hc).
  rewrite H in H'. by injection H' as -> ->.
Qed.

(** The turns of the output are numbered from zero, without gap or repeat,
    in the order of the parsed turns. *)
Theorem turn_indices_count_from_zero transcript st out st' :
  run_text_pipeline transcript st = (Returns out, st') →
  map ProcessedTurn.turn_index (TextPipelineOutput.turns out)
  = seq 0 (length (_parse_turns transcript)).
Proof.
  intros H. apply run_text_pipeline_inv in H as [final Hrun].
  apply (run_loop_inv (λ _, True) (λ _ _ _, True) no_spec) in Hrun
    as (_ & tl & st1 & dominant & _ & Hlen & -> & Hturns & _); [|done].
  apply turn_with_fields in Hturns as (Hidx & _). simpl.
  rewrite Hidx, enumerate_indices, length_zip_with_l_eq; [done|].
  by rewrite Hlen.
Qed.

(** The output echoes the transcript, and its turns carry the parsed pairs of
    label and text in order; the role of every turn is the one its label
    resolves to, and its cleaned text is [clean_text] of its original text,
    whether Stanza processed the turn or raised. *)
Theorem turns_carry_parsed_pairs transcript st out st' :
  run_text_pipeline transcript st = (Returns out, st') →
  TextPipelineOutput.raw_transcript out = transcript ∧
  map (λ turn, (ProcessedTurn.speaker_label turn,
                ProcessedTurn.original_text turn))
      (TextPipelineOutput.turns out)
  = _parse_turns transcript ∧
  Forall (λ turn,
            ProcessedTurn.role turn
            = _resolve_role (ProcessedTurn.speaker_label turn) ∧
            ProcessedTurn.cleaned_text turn
            = clean_text (ProcessedTurn.original_text turn))
         (TextPipelineOutput.turns out).
Proof.
  intros H. apply run_text_pipeline_inv in H as [final Hrun].
  pose proof (run_loop_shape _ _ _ _ _ Hrun)
    as (_ & _ & _ & Hlabels & Htexts & _ & _ & _).
  apply (run_loop_inv (λ _, True)
           (λ text _ r, NlpResult.cleaned_text r = clean_text text)
           cleaned_spec) in Hrun
    as (_ & tl & st1 & dominant & _ & Hlen & -> & Hturns & _); [|done].
  simpl in *. split_and!; [done| |].
  - revert Hlabels Htexts.
    generalize (_parse_turns transcript) (processed_turns final).
    intros raw turns. revert raw.
    induction turns as [|turn turns IH]; intros [|[l t] raw] Hl Ht;
      try done.
    simpl in *. injection Hl as -> Hl. injection Ht as -> Ht. f_equal.
    by apply IH.
  - pose proof (turn_with_roles _ _ _ Hturns) as Hroles.
    apply turn_with_fields in Hturns as (_ & _ & _ & _ & Hall).
    apply Forall_forall. intros turn Hin.
    rewrite Forall_forall in Hroles, Hall. split; [by apply Hroles|].
    destruct (Hall _ Hin) as (r & Hr & Hc & _). by rewrite Hc.
Qed.

(** [process_text] never raises: whatever Stanza returns or raises, on a
    cache hit or a miss, it returns a result whose cleaned text is
    [clean_text] of the input. *)
Theorem process_text_never_raises text lang st :
  ∃ r st', process_text text lang st = (Returns r, st')
           ∧ NlpResult.cleaned_text r = clean_text text.
Proof. apply process_text_returns. Qed.

(** ** Numbering of the speaker identifiers *)

Lemma speaker_step_counters acc label :
  counters_ok acc → counters_ok (speaker_step acc label).
Proof.
  destruct acc as [[rc seen] ids]. unfold counters_ok. simpl. intros Hc.
  unfold speaker_step, assign_speaker. cbn [fst snd].
  destruct (seen !! label) as [sid|] eqn:Hseen; [done|].
  rewrite _make_speaker_id_eq. fold (key_of_label label). cbn [fst snd].
  intros key. rewrite counter_get_insert, dom_insert_L.
  rewrite (filter_union_L (C := gset str)) by apply _.
  rewrite (filter_singleton_L (C := gset str)) by apply _.
  apply (not_elem_of_dom (D := gset str)) in Hseen.
  destruct (decide (key_of_label label = key)) as [Hk|Hk].
  - rewrite size_union, size_singleton, Hc, Hk; [done|].
    intros x Hx Hx'. apply elem_of_singleton in Hx. subst x.
    apply elem_of_filter in Hx' as [_ Hx']. done.
  - by rewrite (left_id_L ∅ (∪)).
Qed.

Lemma fold_speaker_step_counters ls : ∀ acc,
  counters_ok acc → counters_ok (fold_left speaker_step ls acc).
Proof.
  induction ls as [|l ls IH]; intros acc H; [done|].
  simpl. by apply IH, speaker_step_counters.
Qed.

Lemma speaker_fold_counters labels : counters_ok (speaker_fold labels).
Proof.
  apply fold_speaker_step_counters. intros key. simpl.
  unfold counter_get. rewrite lookup_empty, dom_empty_L.
  rewrite (filter_empty_L (C := gset str)) by apply _.
  by rewrite size_empty.
Qed.

Lemma fold_speaker_step_ids ls : ∀ acc,
  ∃ more, (fold_left speaker_step ls acc).2 = acc.2 ++ more.
Proof.
  induction ls as [|l ls IH]; intros acc.
  - exists []. by rewrite app_nil_r.
  - simpl. destruct (IH (speaker_step acc l)) as [more ->].
    unfold speaker_step. destruct (assign_speaker _ _ _) as [[[sid ?] ?] ?].
    simpl. exists (sid :: more). by rewrite <- app_assoc.
Qed.

Lemma speaker_fold_fresh pre label post :
  label ∉ pre →
  (speaker_fold (pre ++ label :: post)).2 !! length pre
  = Some (speaker_id_of (key_of_label label)
            (size (filter (λ l, key_of_label l = key_of_label label)
                          (list_to_set pre : gset str)))).
Proof.
  intros Hfresh. unfold speaker_fold. rewrite fold_left_app. simpl.
  fold (speaker_fold pre).
  pose proof (speaker_fold_ok pre) as (_ & _ & Hdom & Hids).
  pose proof (speaker_fold_counters pre (key_of_label label)) as Hc.
  destruct (fold_speaker_step_ids post (speaker_step (speaker_fold pre) label))
    as [more ->].
  destruct (speaker_fold pre) as [[rc seen] ids]. simpl in *.
  assert (Hnone : seen !! label = None).
  { apply (not_elem_of_dom (D := gset str)). rewrite Hdom.
    by rewrite elem_of_list_to_set. }
  unfold speaker_step, assign_speaker. cbn [fst snd]. rewrite Hnone.
  rewrite _make_speaker_id_eq. fold (key_of_label label). cbn [fst snd].
  apply Forall2_length in Hids. rewrite Hids, <- app_assoc. simpl.
  rewrite list_lookup_middle by done. by rewrite Hc, Hdom.
Qed.

(** The first turn of a label receives the identifier formed from the key
    of its role and the number of distinct labels met before it that count
    under the same key: identifiers of a role are numbered from zero in the
    order in which their labels first appear. *)
Theorem speaker_ids_numbered_by_first_appearance
    transcript st out final st' pre label post :
  run_text_pipeline_loop transcript st = (Returns (out, final), st') →
  map fst (_parse_turns transcript) = pre ++ label :: post →
  label ∉ pre →
  speaker_ids final !! length pre
  = Some (speaker_id_of (key_of_label label)
            (size (filter (λ l, key_of_label l = key_of_label label)
                          (list_to_set pre : gset str)))).
Proof.
  intros Hrun Hlabels Hfresh.
  pose proof (run_loop_shape _ _ _ _ _ Hrun)
    as (_ & _ & _ & _ & _ & _ & _ & _ & _ & Hs).
  apply speaker_fold_parts in Hs as [-> _]. rewrite Hlabels.
  by apply speaker_fold_fresh.
Qed.

Lemma size_list_to_set_le (l : list str) :
  size (list_to_set l : gset str) ≤ length l.
Proof.
  induction l as [|x l IH].
  - by rewrite list_to_set_nil, size_empty.
  - rewrite list_to_set_cons, size_union_alt, size_singleton. simpl.
    pose proof (subseteq_size (list_to_set l ∖ {[x]}) (list_to_set l : gset str))
      as Hle.
    assert (list_to_set l ∖ {[x]} ⊆ (list_to_set l : gset str)) as Hsub.
    { intros y Hy. by apply elem_of_difference in Hy as [Hy _]. }
    specialize (Hle Hsub). lia.
Qed.

Lemma run_labels_and_count
    transcript st out final st' :
  run_text_pipeline_loop transcript st = (Returns (out, final), st') →
  map ProcessedTurn.speaker_label (TextPipelineOutput.turns out)
  = map fst (_parse_turns transcript) ∧
  TextPipelineOutput.speaker_count out
  = size (list_to_set
            (map ProcessedTurn.speaker_label (TextPipelineOutput.turns out))
          : gset str).
Proof.
  intros Hrun.
  pose proof (run_loop_shape _ _ _ _ _ Hrun)
    as (tl & st1 & _ & Hlabels & _ & _ & _ & _ & Hcount & Hs).
  split; [done|]. rewrite Hcount, Hlabels.
  pose proof (speaker_fold_ok (map fst (_parse_turns transcript)))
    as (_ & _ & Hdom & _).
  rewrite <- Hs in Hdom. simpl in Hdom. by rewrite <- Hdom, size_dom.
Qed.

(** A run that returns counts at least one speaker and at most as many
    speakers as turns. *)
Theorem speaker_count_bounds transcript st out st' :
  run_text_pipeline transcript st = (Returns out, st') →
  1 ≤ TextPipelineOutput.speaker_count out
  ≤ length (TextPipelineOutput.turns out).
Proof.
  intros H. apply run_text_pipeline_inv in H as [final Hrun].
  pose proof (run_loop_inv (λ _, True) (λ _ _ _, True) no_spec
                _ _ _ _ _ I Hrun) as (Hne & _).
  pose proof (run_labels_and_count _ _ _ _ _ Hrun)
    as (Hlabels & Hcount).
  rewrite Hcount. split.
  - destruct (_parse_turns transcript) as [|[l t] raw]; [done|].
    rewrite Hlabels. simpl.
    assert (size ({[l]} ∪ list_to_set (map fst raw) : gset str) ≠ 0); [|lia].
    apply size_non_empty_iff. intros Hempty.
    assert (l ∈ ({[l]} ∪ list_to_set (map fst raw) : gset str)) as Hin
      by (apply elem_of_union_l; by apply elem_of_singleton).
    rewrite Hempty in Hin. by apply elem_of_empty in Hin.
  - rewrite <- (length_map ProcessedTurn.speaker_label).
    apply size_list_to_set_le.
Qed.

(** ** Validation of the confidence *)





(** ** The cache of pipelines *)

(** Memoisation: once [_get_pipeline] has returned a pipeline for a
    language, the next call for that language returns the same pipeline
    without any call to Stanza. *)
Theorem get_pipeline_memoizes lang st nlp st1 :
  _get_pipeline lang st = (Returns nlp, st1) →
  ∃ st2, _get_pipeline lang st1 = (Returns nlp, st2)
         ∧ world st2 = world st1.
Proof.
  intros H.
  assert (Hfind : cache_find lang (pipeline_cache st1) = Some nlp).
  { destruct (cache_find lang (pipeline_cache st)) as [nlp0|] eqn:Hc.
    - rewrite (get_pipeline_hit _ _ _ Hc) in H. injection H as -> <-.
      apply cache_find_head.
    - rewrite (get_pipeline_miss _ _ Hc) in H.
      destruct (load_pipeline lang st) as [[nlp0|e] s1]; [|done].
      injection H as -> <-. apply cache_find_head. }
  rewrite (get_pipeline_hit _ _ _ Hfind). by eexists.
Qed.

(** A call of [_get_pipeline] that raises stores nothing in the cache. *)
Theorem get_pipeline_failure_not_cached lang st e st1 :
  _get_pipeline lang st = (Raises e, st1) →
  pipeline_cache st1 = pipeline_cache st.
Proof.
  intros H.
  destruct (cache_find lang (pipeline_cache st)) as [nlp0|] eqn:Hc.
  - by rewrite (get_pipeline_hit _ _ _ Hc) in H.
  - rewrite (get_pipeline_miss _ _ Hc) in H.
    destruct (load_pipeline lang st) as [[nlp0|e0] s1] eqn:Hl; [done|].
    injection H as <- <-. by eapply load_pipeline_cache.
Qed.

Lemma supported_length (keys : list str) :
  NoDup keys → (∀ l, l ∈ keys → l ∈ STANZA_SUPPORTED) →
  length keys ≤ lru_maxsize.
Proof.
  intros Hnd Hsub.
  apply (submseteq_length keys
           [lit "en"; lit "hi"; lit "zh"; lit "fr"; lit "de"; lit "es";
            lit "ar"; lit "ja"]).
  apply NoDup_submseteq; [done|]. intros l Hl.
  apply Hsub in Hl. unfold STANZA_SUPPORTED in Hl.
  by apply elem_of_list_to_set in Hl.
Qed.

Lemma resolve_nlp_lang_supported lang :
  _resolve_nlp_lang lang ∈ STANZA_SUPPORTED.
Proof.
  unfold _resolve_nlp_lang. case_decide; [done|].
  unfold STANZA_SUPPORTED. apply elem_of_list_to_set. by left.
Qed.

Lemma get_pipeline_keeps_cache lang st o st' :
  lang ∈ STANZA_SUPPORTED →
  cache_supported (pipeline_cache st) →
  _get_pipeline lang st = (o, st') →
  cache_supported (pipeline_cache st') ∧
  ∀ l nlp, cache_find l (pipeline_cache st) = Some nlp →
           cache_find l (pipeline_cache st') = Some nlp.
Proof.
  intros Hlang [Hnd Hsub] H.
  destruct (cache_find lang (pipeline_cache st)) as [nlp0|] eqn:Hc.
  - rewrite (get_pipeline_hit _ _ _ Hc) in H. injection H as <- <-. simpl.
    split; [split|].
    + simpl. apply NoDup_cons. split; [|by apply cache_remove_NoDup].
      intros Hin. by apply cache_remove_keys in Hin as [_ ?].
    + intros l. simpl. rewrite elem_of_cons.
      intros [->|Hin]; [done|]. apply Hsub.
      by apply cache_remove_keys in Hin as [? _].
    + intros l nlp Hl. simpl. destruct (decide (lang = l)) as [<-|Hne].
      * congruence.
      * by rewrite cache_find_remove_ne.
  - rewrite (get_pipeline_miss _ _ Hc) in H.
    destruct (load_pipeline lang st) as [[nlp0|e0] s1] eqn:Hl.
    + injection H as <- <-. cbn [pipeline_cache].
      apply cache_find_None in Hc.
      assert (Hnd' : NoDup ((lang, nlp0) :: pipeline_cache st).*1)
        by (simpl; by apply NoDup_cons).
      assert (Hsub' : ∀ l, l ∈ ((lang, nlp0) :: pipeline_cache st).*1 →
                           l ∈ STANZA_SUPPORTED).
      { intros l. simpl. rewrite elem_of_cons. intros [->|?]; auto. }
      assert (Hlen : length ((lang, nlp0) :: pipeline_cache st) ≤ lru_maxsize)
        by (rewrite <- (length_fmap fst); by apply supported_length).
      rewrite (take_ge (pipeline_cache st) 7)
        by (simpl in Hlen; unfold lru_maxsize in Hlen; lia).
      split; [by split|].
      intros l nlp Hfind. simpl. destruct (decide (lang = l)) as [<-|Hne];
        [|done].
      apply cache_find_None in Hc. congruence.
    + injection H as <- <-. apply load_pipeline_cache in Hl. rewrite Hl.
      by split; [split|].
Qed.

(** The cache never evicts under [process_text]: as long as its keys are
    distinct supported languages, which holds of the empty cache and is kept
    by every call, a call of [process_text] leaves every cached pipeline in
    the cache, whatever it returns. *)
Theorem process_text_never_evicts text lang st o st' :
  cache_supported (pipeline_cache st) →
  process_text text lang st = (o, st') →
  cache_supported (pipeline_cache st') ∧
  ∀ l nlp, cache_find l (pipeline_cache st) = Some nlp →
           cache_find l (pipeline_cache st') = Some nlp.
Proof.
  intros Hinv H.
  apply process_text_cache in H as (o1 & st1 & Hg & ->).
  eapply get_pipeline_keeps_cache; [apply resolve_nlp_lang_supported|done..].
Qed.

(** * Further properties of the turn parser *)

(** ** Character classes *)

Ltac decide_comparisons :=
  repeat match goal with
  | |- context [(?a <=? ?b)%N] =>
      first [ rewrite (proj2 (N.leb_gt a b)) by lia
            | rewrite (proj2 (N.leb_le a b)) by lia ]
  | |- context [(?a =? ?b)%N] =>
      first [ rewrite (proj2 (N.eqb_neq a b)) by lia
            | rewrite (proj2 (N.eqb_eq a b)) by lia ]
  end.

Lemma letter_range c :
  is_letter c = true → (65 ≤ c ≤ 122)%N.
Proof.
  unfold is_letter, Py.isalpha_ascii.
  destruct (N.leb_spec 65 c), (N.leb_spec c 90), (N.leb_spec 97 c),
    (N.leb_spec c 122); simpl; intros Hl; try done; lia.
Qed.

Lemma letter_not_space c : is_letter c = true → Py.isspace c = false.
Proof.
  intros H%letter_range. unfold Py.isspace. by decide_comparisons.
Qed.

Lemma letter_not_colon c : is_letter c = true → is_colon c = false.
Proof.
  unfold is_letter, Py.isalpha_ascii, is_colon.
  destruct (N.eqb_spec c 58) as [->|]; [done|]. done.
Qed.

Lemma colon_not_space c : is_colon c = true → Py.isspace c = false.
Proof. unfold is_colon. by intros ->%N.eqb_eq. Qed.

Lemma letter_or_space_cases c :
  is_letter_or_space c = true → Py.isspace c = false → is_letter c = true.
Proof.
  unfold is_letter_or_space, is_letter. intros H Hs. rewrite Hs in H.
  by rewrite orb_false_r in H.
Qed.

Lemma letter_or_space_not_colon c :
  is_letter_or_space c = true → is_colon c = false.
Proof.
  intros H. destruct (is_colon c) eqn:Hc; [|done].
  pose proof (colon_not_space c Hc) as Hs.
  apply letter_or_space_cases, letter_not_colon in H; [|done]. congruence.
Qed.

(** ** Stripping *)

Lemma drop_while_length p s : length (Py.drop_while p s) ≤ length s.
Proof.
  destruct (drop_while_suffix p s) as [pre Hs].
  rewrite Hs at 2. rewrite length_app. lia.
Qed.

Lemma drop_while_all p ws s :
  Forall (λ c, p c = true) ws →
  Py.drop_while p (ws ++ s) = Py.drop_while p s.
Proof. induction 1 as [|c ws Hc _ IH]; simpl; [done|by rewrite Hc]. Qed.

Lemma drop_while_all_nil p ws :
  Forall (λ c, p c = true) ws → Py.drop_while p ws = [].
Proof.
  intros H. rewrite <- (app_nil_r ws). by rewrite drop_while_all.
Qed.

Lemma drop_while_head p s c tl :
  Py.drop_while p s = c :: tl → p c = false ∧ c ∈ s.
Proof.
  induction s as [|a s IH]; simpl; [done|].
  destruct (p a) eqn:Ha.
  - intros H. destruct (IH H) as [? ?]. split; [done|]. by right.
  - intros [= <- <-]. split; [done|]. by left.
Qed.

Lemma drop_while_app_cons p s t c tl :
  Py.drop_while p s = c :: tl → Py.drop_while p (s ++ t) = (c :: tl) ++ t.
Proof.
  induction s as [|a s IH]; simpl; [done|].
  destruct (p a); [done|]. by intros [= <- <-].
Qed.

Lemma drop_while_nil_all p s :
  Py.drop_while p s = [] → Forall (λ c, p c = true) s.
Proof.
  induction s as [|a s IH]; simpl; [done|].
  destruct (p a) eqn:Ha; [|done]. intros H. constructor; auto.
Qed.

Lemma drop_while_idemp p s :
  Py.drop_while p (Py.drop_while p s) = Py.drop_while p s.
Proof.
  destruct (Py.drop_while p s) as [|c tl] eqn:E; [done|].
  apply drop_while_head in E as [Hc _]. simpl. by rewrite Hc.
Qed.

Lemma rstrip_all_space s :
  Forall (λ c, Py.isspace c = true) s → Py.rstrip s = [].
Proof.
  intros H. unfold Py.rstrip. rewrite drop_while_all_nil; [done|].
  by apply Forall_reverse.
Qed.

Lemma rstrip_cons c s :
  ¬ Forall (λ c, Py.isspace c = true) (c :: s) →
  Py.rstrip (c :: s) = c :: Py.rstrip s.
Proof.
  intros Hnot. unfold Py.rstrip. rewrite reverse_cons.
  destruct (Py.drop_while Py.isspace (reverse s)) as [|d tl] eqn:E.
  - apply drop_while_nil_all in E. rewrite drop_while_all by done.
    simpl. destruct (Py.isspace c) eqn:Hc; [|reflexivity].
    destruct Hnot. constructor; [done|]. by apply Forall_reverse.
  - rewrite (drop_while_app_cons _ _ _ _ _ E).
    by rewrite reverse_app, reverse_singleton.
Qed.

Lemma rstrip_prefix s : ∃ sp, s = Py.rstrip s ++ sp.
Proof.
  unfold Py.rstrip. destruct (drop_while_suffix Py.isspace (reverse s))
    as [pre H].
  exists (reverse pre). rewrite <- reverse_app, <- H.
  by rewrite reverse_involutive.
Qed.

Lemma rstrip_idemp s : Py.rstrip (Py.rstrip s) = Py.rstrip s.
Proof.
  unfold Py.rstrip. by rewrite reverse_involutive, drop_while_idemp.
Qed.

Lemma lstrip_head c s : Py.isspace c = false → Py.lstrip (c :: s) = c :: s.
Proof. unfold Py.lstrip. simpl. by intros ->. Qed.

(** ** The engine on stars *)

Lemma exec_star_greedy_cons p c s pos caps k :
  exec (Star true p) (c :: s) pos caps k
  = if p c then
      match exec (Star true p) s (S pos) caps k with
      | Some m => Some m
      | None => k (c :: s) pos caps
      end
    else k (c :: s) pos caps.
Proof. reflexivity. Qed.

Lemma exec_star_lazy p s pos caps k :
  exec (Star false p) s pos caps k
  = match k s pos caps with
    | Some m => Some m
    | None =>
        match s with
        | c :: s' => if p c then exec (Star false p) s' (S pos) caps k
                     else None
        | [] => None
        end
    end.
Proof. by destruct s. Qed.

(** The offset reached after the characters of [p] at the head of [s]. *)
Lemma skipped_cons p c s pos :
  (S pos + (length s - length (Py.drop_while p s))
   = pos + (length (c :: s) - length (Py.drop_while p s)))%nat.
Proof. simpl. pose proof (drop_while_length p s). lia. Qed.

Lemma drop_while_cons_true p c s :
  p c = true → Py.drop_while p (c :: s) = Py.drop_while p s.
Proof. simpl. by intros ->. Qed.

Lemma drop_while_cons_false p c s :
  p c = false → Py.drop_while p (c :: s) = c :: s.
Proof. simpl. by intros ->. Qed.

(** A greedy star before a continuation that fails on every input beginning
    with a character of the class consumes all such characters. *)
Lemma star_greedy_skip p k caps :
  (∀ c t pos, p c = true → k (c :: t) pos caps = None) →
  ∀ s pos,
    exec (Star true p) s pos caps k
    = k (Py.drop_while p s)
        (pos + (length s - length (Py.drop_while p s)))%nat caps.
Proof.
  intros Hk. induction s as [|c s IH]; intros pos.
  - simpl. by rewrite Nat.add_0_r.
  - rewrite exec_star_greedy_cons. destruct (p c) eqn:Hc.
    + rewrite IH, (Hk c s pos Hc), (drop_while_cons_true p c s Hc).
      rewrite (skipped_cons p c s pos). by destruct (k _ _ caps).
    + rewrite (drop_while_cons_false p c s Hc).
      by rewrite Nat.sub_diag, Nat.add_0_r.
Qed.

(** A greedy star before a continuation that always succeeds consumes all
    the characters of the class. *)
Lemma star_greedy_total p k caps :
  (∀ s pos, is_Some (k s pos caps)) →
  ∀ s pos,
    exec (Star true p) s pos caps k
    = k (Py.drop_while p s)
        (pos + (length s - length (Py.drop_while p s)))%nat caps.
Proof.
  intros Hk. induction s as [|c s IH]; intros pos.
  - simpl. by rewrite Nat.add_0_r.
  - rewrite exec_star_greedy_cons. destruct (p c) eqn:Hc.
    + rewrite IH, (drop_while_cons_true p c s Hc).
      rewrite (skipped_cons p c s pos).
      by destruct (Hk (Py.drop_while p s)
                    (pos + (length (c :: s)
                            - length (Py.drop_while p s)))%nat)
        as [m ->].
    + rewrite (drop_while_cons_false p c s Hc).
      by rewrite Nat.sub_diag, Nat.add_0_r.
Qed.

(** ** [_TURN_RE] piece by piece *)

Lemma exec_cat r1 r2 s pos caps k :
  exec (Cat r1 r2) s pos caps k
  = exec r1 s pos caps (λ s' pos' caps', exec r2 s' pos' caps' k).
Proof. reflexivity. Qed.

Lemma exec_bol s pos caps k :
  exec Bol s pos caps k = if decide (pos = 0) then k s pos caps else None.
Proof. reflexivity. Qed.

Lemma exec_group n r s pos caps k :
  exec (Group n r) s pos caps k
  = exec r s pos caps
      (λ s' pos' caps', k s' pos' ((n, take (pos' - pos) s) :: caps')).
Proof. reflexivity. Qed.

Lemma exec_class_cons p c s pos caps k :
  exec (Class p) (c :: s) pos caps k
  = if p c then k s (S pos) caps else None.
Proof. reflexivity. Qed.

Lemma turn_re_unfold :
  _TURN_RE
  = Cat Bol
      (Cat (Star true Py.isspace)
         (Cat (Group 1 (Cat (Class is_letter) (Star false is_letter_or_space)))
              turn_tail)).
Proof. reflexivity. Qed.

Lemma drop_while_any s : Py.drop_while any_char s = [].
Proof. by induction s. Qed.

(** The second group takes everything that is left. *)
Lemma exec_group_rest t pos caps :
  exec (Group 2 (Star true any_char)) t pos caps (λ _ _ caps, Some caps)
  = Some ((2, t) :: caps).
Proof.
  rewrite exec_group, star_greedy_total by (intros; by eexists).
  rewrite drop_while_any. simpl. f_equal. f_equal. f_equal.
  apply take_ge. lia.
Qed.

(** After the label: optional whitespace, the colon, and the text after the
    colon without its leading whitespace as second group. *)
Lemma turn_tail_match s pos caps :
  exec turn_tail s pos caps (λ _ _ caps, Some caps)
  = match Py.drop_while Py.isspace s with
    | c :: rest =>
        if is_colon c then Some ((2, Py.lstrip rest) :: caps) else None
    | [] => None
    end.
Proof.
  unfold turn_tail. cbn [seq_re]. rewrite exec_cat, star_greedy_skip.
  2: { intros c t pos' Hc. rewrite exec_cat, exec_class_cons.
       destruct (is_colon c) eqn:Hcolon; [|done].
       apply colon_not_space in Hcolon. congruence. }
  destruct (Py.drop_while Py.isspace s) as [|c rest]; [done|].
  rewrite exec_cat, exec_class_cons. destruct (is_colon c); [|done].
  rewrite exec_cat, star_greedy_total.
  2: { intros t pos'. rewrite exec_group_rest. by eexists. }
  by rewrite exec_group_rest.
Qed.

(** The lazy star of the label stops at the first offset from which only
    whitespace separates it from the colon: after the last letter. *)
Lemma star_lazy_label (G : nat → str → captures) k caps mid rest :
  (∀ s' pos',
     k s' pos' caps
     = match Py.drop_while Py.isspace s' with
       | c :: r => if is_colon c then Some (G pos' r) else None
       | [] => None
       end) →
  Forall (λ c, is_letter_or_space c = true) mid →
  ∀ pos,
    exec (Star false is_letter_or_space) (mid ++ 58%N :: rest) pos caps k
    = Some (G (pos + length (Py.rstrip mid))%nat rest).
Proof.
  intros Hk Hmid. induction Hmid as [|c mid Hc Hmid IH]; intros pos.
  - rewrite exec_star_lazy, Hk. simpl. by rewrite Nat.add_0_r.
  - rewrite exec_star_lazy, Hk.
    destruct (Py.drop_while Py.isspace (c :: mid)) as [|d tl] eqn:E.
    + apply drop_while_nil_all in E.
      rewrite (drop_while_all _ (c :: mid)) by done.
      rewrite (rstrip_all_space (c :: mid)) by done. simpl.
      by rewrite Nat.add_0_r.
    + rewrite (drop_while_app_cons _ _ _ _ _ E). cbn [app].
      pose proof (drop_while_head _ _ _ _ E) as [Hd Hin].
      assert (Hlos : is_letter_or_space d = true).
      { assert (Hall : Forall (λ c, is_letter_or_space c = true) (c :: mid))
          by (by constructor).
        rewrite Forall_forall in Hall. by apply Hall. }
      rewrite (letter_not_colon d)
        by (by apply letter_or_space_cases).
      rewrite Hc, IH. rewrite rstrip_cons.
      * cbn [length]. by rewrite Nat.add_succ_r.
      * intros Hall. apply drop_while_all_nil in Hall. congruence.
Qed.

(** A line whose text before the colon is whitespace, a letter and then
    letters and whitespace matches: the first group is that text from its
    first letter to its last, the second group is the text after the colon
    from its first character that is not whitespace. *)
Lemma turn_re_match_label ws c0 mid rest :
  Forall (λ c, Py.isspace c = true) ws →
  is_letter c0 = true →
  Forall (λ c, is_letter_or_space c = true) mid →
  re_match _TURN_RE (ws ++ c0 :: mid ++ 58%N :: rest)
  = Some [(2, Py.lstrip rest); (1, c0 :: Py.rstrip mid)].
Proof.
  intros Hws Hc0 Hmid. unfold re_match. rewrite turn_re_unfold.
  rewrite exec_cat, exec_bol, decide_True by done.
  rewrite exec_cat, star_greedy_skip.
  2: { intros c t pos' Hc. rewrite exec_cat, exec_group, exec_cat,
         exec_class_cons.
       destruct (is_letter c) eqn:Hl; [|done].
       apply letter_not_space in Hl. congruence. }
  rewrite (drop_while_all _ ws) by done.
  rewrite (lstrip_head c0 _ (letter_not_space c0 Hc0) : Py.drop_while _ _ = _).
  set (p1 := (0 + (length (ws ++ c0 :: mid ++ 58%N :: rest)
                   - length (c0 :: mid ++ 58%N :: rest)))%nat).
  rewrite exec_cat, exec_group, exec_cat, exec_class_cons, Hc0.
  rewrite (star_lazy_label
             (λ pos' r, [(2, Py.lstrip r);
                         (1, take (pos' - p1)
                               (c0 :: mid ++ 58%N :: rest))])); [|  |done].
  2: { intros s' pos'. by rewrite turn_tail_match. }
  f_equal. f_equal. f_equal. f_equal.
  replace (S p1 + length (Py.rstrip mid) - p1)%nat
    with (S (length (Py.rstrip mid))) by lia.
  simpl. f_equal. destruct (rstrip_prefix mid) as [sp Hsp].
  rewrite Hsp at 2. rewrite <- app_assoc. by rewrite take_app_length.
Qed.

(** ** Which lines are label lines *)

Lemma drop_while_split p s :
  ∃ ws, s = ws ++ Py.drop_while p s ∧ Forall (λ c, p c = true) ws.
Proof.
  induction s as [|c s (ws & Hs & Hws)]; simpl.
  - by exists [].
  - destruct (p c) eqn:Hc.
    + exists (c :: ws). split; [simpl; by f_equal|by constructor].
    + by exists [].
Qed.

Lemma space_is_letter_or_space c :
  Py.isspace c = true → is_letter_or_space c = true.
Proof. unfold is_letter_or_space. intros ->. apply orb_true_r. Qed.

Lemma letter_is_letter_or_space c :
  is_letter c = true → is_letter_or_space c = true.
Proof. unfold is_letter_or_space, is_letter. by intros ->. Qed.

(** The text before the colon, when it is made of letters and whitespace and
    holds a letter: whitespace, then a letter and the rest. *)
Lemma label_text_split pre :
  Forall (λ c, is_letter_or_space c = true) pre →
  Exists (λ c, is_letter c = true) pre →
  ∃ ws c0 mid,
    pre = ws ++ c0 :: mid ∧
    Forall (λ c, Py.isspace c = true) ws ∧
    is_letter c0 = true ∧
    Forall (λ c, is_letter_or_space c = true) mid ∧
    Py.strip pre = c0 :: Py.rstrip mid.
Proof.
  intros Hlos Hex.
  destruct (drop_while_split Py.isspace pre) as (ws & Hpre & Hws).
  destruct (Py.drop_while Py.isspace pre) as [|c0 mid] eqn:E.
  - exfalso. apply drop_while_nil_all in E.
    apply Exists_exists in Hex as (c & Hin & Hc).
    rewrite Forall_forall in E. apply letter_not_space in Hc.
    rewrite (E c Hin) in Hc. done.
  - pose proof (drop_while_head _ _ _ _ E) as [Hsp Hin].
    assert (Hlos' : Forall (λ c, is_letter_or_space c = true) (c0 :: mid)).
    { rewrite Hpre in Hlos. by apply Forall_app in Hlos as [_ ?]. }
    apply Forall_cons in Hlos' as [Hc0 Hmid].
    exists ws, c0, mid. split_and!; [done|done| |done|].
    + by apply letter_or_space_cases.
    + unfold Py.strip, Py.lstrip. rewrite E. apply rstrip_cons.
      intros Hall. apply Forall_cons in Hall as [Hall _]. congruence.
Qed.

(** [_TURN_RE] matches every line whose text before the first colon is made
    of ASCII letters and whitespace and holds a letter; the first group is
    that text stripped and the second group is the text after that colon
    without its leading whitespace. *)
Lemma turn_re_groups pre rest :
  Forall (λ c, is_letter_or_space c = true) pre →
  Exists (λ c, is_letter c = true) pre →
  re_match _TURN_RE (pre ++ 58%N :: rest)
  = Some [(2, Py.lstrip rest); (1, Py.strip pre)].
Proof.
  intros Hlos Hex.
  destruct (label_text_split pre Hlos Hex)
    as (ws & c0 & mid & -> & Hws & Hc0 & Hmid & ->).
  rewrite <- app_assoc, <- app_comm_cons.
  by apply turn_re_match_label.
Qed.

(** [_TURN_RE] matches no other line: a line it matches has a colon, and the
    text before its first colon is made of ASCII letters and whitespace and
    holds a letter. *)
Lemma turn_re_match_inv line m :
  re_match _TURN_RE line = Some m →
  ∃ pre rest,
    line = pre ++ 58%N :: rest ∧
    Forall (λ c, is_letter_or_space c = true) pre ∧
    Exists (λ c, is_letter c = true) pre ∧
    m = [(2, Py.lstrip rest); (1, Py.strip pre)].
Proof.
  intros Hm. pose proof Hm as H. unfold re_match in H.
  apply exec_sound in H as (w & s' & caps' & -> & Hw & _).
  simpl in Hw.
  destruct Hw as (w0 & t0 & -> & [-> _] & Hw).
  destruct Hw as (w1 & t1 & -> & Hws & Hw).
  destruct Hw as (w2 & t2 & -> & Hlabel & Hw).
  destruct Hlabel as (wc & wl & -> & (c0 & -> & Hc0) & Hlazy).
  destruct Hw as (w3 & t3 & -> & Hws2 & Hw).
  destruct Hw as (w4 & t4 & -> & (c & -> & Hc) & _).
  apply N.eqb_eq in Hc. subst c.
  assert (Hlos : Forall (λ c, is_letter_or_space c = true)
                   (w1 ++ c0 :: wl ++ w3)).
  { apply Forall_app. split.
    - eapply Forall_impl; [exact Hws|]. apply space_is_letter_or_space.
    - constructor; [by apply letter_is_letter_or_space|].
      apply Forall_app. split; [done|].
      eapply Forall_impl; [exact Hws2|]. apply space_is_letter_or_space. }
  assert (Hex : Exists (λ c, is_letter c = true) (w1 ++ c0 :: wl ++ w3)).
  { apply Exists_app. right. by apply Exists_cons_hd. }
  exists (w1 ++ c0 :: wl ++ w3), (t4 ++ s').
  match type of Hm with
  | re_match _ ?l = _ =>
      assert (Heq : l = (w1 ++ c0 :: wl ++ w3) ++ 58%N :: t4 ++ s')
        by (simpl;
            repeat (rewrite <- app_assoc || rewrite <- app_comm_cons); done)
  end.
  split_and!; [done|done|done|].
  rewrite Heq in Hm. rewrite (turn_re_groups _ _ Hlos Hex) in Hm.
  by injection Hm as <-.
Qed.

(** A line opens a turn exactly when, once stripped, it has a colon and the
    text before its first colon is made of ASCII letters and whitespace and
    holds a letter. *)
Theorem is_label_line_iff raw_line :
  is_label_line raw_line = true ↔
  ∃ pre rest,
    Py.strip raw_line = pre ++ 58%N :: rest ∧
    Forall (λ c, is_letter_or_space c = true) pre ∧
    Exists (λ c, is_letter c = true) pre.
Proof.
  split.
  - intros H. apply is_label_line_match in H as [_ [m Hm]].
    apply turn_re_match_inv in Hm as (pre & rest & Hl & Hlos & Hex & _).
    by exists pre, rest.
  - intros (pre & rest & Hl & Hlos & Hex).
    pose proof (turn_re_groups pre rest Hlos Hex) as Hm.
    unfold is_label_line. rewrite Hl.
    destruct pre as [|a pre']; [by apply Exists_nil in Hex|].
    cbn [app] in *. apply bool_decide_eq_true. eexists. exact Hm.
Qed.

(** ** The turns the parser builds *)

Lemma strip_idemp s : Py.strip (Py.strip s) = Py.strip s.
Proof.
  unfold Py.strip at 2 3. unfold Py.lstrip.
  destruct (Py.drop_while Py.isspace s) as [|c t] eqn:E; [done|].
  apply drop_while_head in E as [Hc _].
  assert (Hnot : ¬ Forall (λ c, Py.isspace c = true) (c :: t)).
  { intros Hall. apply Forall_cons in Hall as [? _]. congruence. }
  rewrite (rstrip_cons c t Hnot). unfold Py.strip.
  rewrite (lstrip_head c _ Hc). rewrite rstrip_cons.
  - by rewrite rstrip_idemp.
  - intros Hall. apply Forall_cons in Hall as [? _]. congruence.
Qed.

Lemma strip_lstrip s : Py.strip (Py.lstrip s) = Py.strip s.
Proof. unfold Py.strip, Py.lstrip. by rewrite drop_while_idemp. Qed.

Lemma join_single sep (p : str) : Py.join sep [p] = p.
Proof. done. Qed.

(** The turn of a label line: its label is the text before the first colon,
    stripped, and its text is the text after that colon and the non-blank
    lines that follow up to the end of the input, stripped and joined by
    single spaces. *)
Theorem label_line_turn before raw_line after pre rest :
  Py.strip raw_line = pre ++ 58%N :: rest →
  Forall (λ c, is_letter_or_space c = true) pre →
  Exists (λ c, is_letter c = true) pre →
  Forall (λ l, is_label_line l = false) after →
  parse_lines (before ++ raw_line :: after)
  = parse_lines before
    ++ [(Py.strip pre,
         Py.strip (Py.join (lit " ") (Py.strip rest :: continuation after)))].
Proof.
  intros Hl Hlos Hex Hafter.
  assert (Hm : re_match _TURN_RE (Py.strip raw_line)
               = Some [(2, Py.lstrip rest); (1, Py.strip pre)])
    by (rewrite Hl; by apply turn_re_groups).
  assert (Hne : Py.strip raw_line ≠ []) by (rewrite Hl; by destruct pre).
  rewrite (parse_lines_block before raw_line after _ Hne Hm Hafter).
  change (group 1 [(2, Py.lstrip rest); (1, Py.strip pre)])
    with (Py.strip pre).
  change (group 2 [(2, Py.lstrip rest); (1, Py.strip pre)])
    with (Py.lstrip rest).
  by rewrite strip_idemp, strip_lstrip.
Qed.

Lemma parse_line_blank st raw_line :
  Py.strip raw_line = [] → parse_line st raw_line = st.
Proof. unfold parse_line. by intros ->. Qed.

(** Blank lines, empty or made of whitespace, change nothing wherever they
    stand. *)
Theorem blank_lines_are_ignored before blank after :
  Py.strip blank = [] →
  parse_lines (before ++ blank :: after) = parse_lines (before ++ after).
Proof.
  intros H. unfold parse_lines. rewrite !fold_left_app. simpl.
  by rewrite parse_line_blank.
Qed.

Lemma flush_turn_prefix T st :
  flush_turn (ParserState (T ++ turns st) (current_label st)
                          (current_lines st))
  = T ++ flush_turn st.
Proof.
  unfold flush_turn. simpl.
  destruct (current_label st), (current_lines st); try done.
  by rewrite app_assoc.
Qed.

Lemma parse_line_prefix T st raw_line :
  parse_line (ParserState (T ++ turns st) (current_label st)
                          (current_lines st)) raw_line
  = let st' := parse_line st raw_line in
    ParserState (T ++ turns st') (current_label st') (current_lines st').
Proof.
  destruct st as [t lb ls]. unfold parse_line.
  cbn [turns current_label current_lines].
  destruct (Py.strip raw_line) as [|c l]; [done|].
  destruct (re_match _TURN_RE (c :: l)) as [m|]; [|by destruct lb].
  cbv zeta. cbn [turns current_label current_lines].
  by rewrite <- (flush_turn_prefix T (ParserState t lb ls)).
Qed.

Lemma fold_parse_line_prefix lines : ∀ T st,
  flush_turn (fold_left parse_line lines
                (ParserState (T ++ turns st) (current_label st)
                             (current_lines st)))
  = T ++ flush_turn (fold_left parse_line lines st).
Proof.
  induction lines as [|l lines IH]; intros T st.
  - apply flush_turn_prefix.
  - simpl. rewrite parse_line_prefix. apply IH.
Qed.

(** Parsing splits at label lines: the turns of the lines before a label
    line are those of these lines parsed alone, and the turns from the label
    line on are those of the remaining lines parsed alone. *)
Theorem parsing_splits_at_label_lines before label_line after :
  is_label_line label_line = true →
  parse_lines (before ++ label_line :: after)
  = parse_lines before ++ parse_lines (label_line :: after).
Proof.
  intros H. apply is_label_line_match in H as [Hne [m Hm]].
  unfold parse_lines. rewrite fold_left_app. simpl.
  rewrite !(parse_line_label _ _ m) by done.
  set (st := fold_left parse_line before (ParserState [] None [])).
  change (flush_turn (ParserState [] None [])) with (@nil (str * str)).
  rewrite <- (fold_parse_line_prefix after (flush_turn st)
                (ParserState [] (Some (Py.strip (group 1 m)))
                             [Py.strip (group 2 m)])).
  cbn [turns current_label current_lines]. by rewrite app_nil_r.
Qed.

Lemma match_label_wellformed line m :
  re_match _TURN_RE line = Some m →
  label_wellformed (Py.strip (group 1 m)).
Proof using.
  intros Hm.
  apply turn_re_match_inv in Hm as (pre & rest & _ & Hlos & Hex & ->).
  change (group 1 [(2, Py.lstrip rest); (1, Py.strip pre)])
    with (Py.strip pre).
  rewrite strip_idemp.
  destruct (label_text_split pre Hlos Hex)
    as (ws & c0 & mid & Hpre & _ & Hc0 & _ & Hstrip).
  split_and!.
  - rewrite Hstrip. by eexists _, _.
  - apply Forall_forall. intros c Hc. apply strip_elem in Hc.
    rewrite Forall_forall in Hlos. by apply Hlos.
  - apply strip_idemp.
Qed.

Lemma parse_line_wellformed st raw_line :
  (Forall (λ t, label_wellformed t.1 ∧ Py.strip t.2 = t.2) (turns st) ∧
   ∀ lb, current_label st = Some lb → label_wellformed lb) →
  let st' := parse_line st raw_line in
  Forall (λ t, label_wellformed t.1 ∧ Py.strip t.2 = t.2) (turns st') ∧
  ∀ lb, current_label st' = Some lb → label_wellformed lb.
Proof using.
  intros [Hturns Hlabel]. cbv zeta.
  assert (Hflush : Forall (λ t, label_wellformed t.1 ∧ Py.strip t.2 = t.2)
                          (flush_turn st)).
  { unfold flush_turn.
    destruct (current_label st) as [lb|] eqn:E; [|done].
    destruct (current_lines st) as [|x ls]; [done|].
    apply Forall_app. split; [done|]. constructor; [|done].
    simpl. split; [by apply Hlabel|apply strip_idemp]. }
  destruct (is_label_line raw_line) eqn:E.
  - apply is_label_line_match in E as [Hne [m Hm]].
    rewrite (parse_line_label _ _ m) by done. simpl. split; [done|].
    intros lb [= <-]. by eapply match_label_wellformed.
  - rewrite parse_line_other by done.
    destruct (current_label st) as [lb|] eqn:El; simpl.
    + split; [done|]. intros lb' [= <-]. by apply Hlabel.
    + split; [done|]. intros lb'. rewrite El. done.
Qed.

(** Every parsed turn has a label that begins with an ASCII letter, is made
    of ASCII letters and whitespace only and is stripped, and a text that is
    stripped. *)
Theorem parsed_turns_wellformed transcript label text :
  (label, text) ∈ _parse_turns transcript →
  label_wellformed label ∧ Py.strip text = text.
Proof using.
  unfold _parse_turns, parse_lines.
  assert (Hinv : ∀ lines st,
            (Forall (λ t, label_wellformed t.1 ∧ Py.strip t.2 = t.2)
                    (turns st) ∧
             ∀ lb, current_label st = Some lb → label_wellformed lb) →
            Forall (λ t, label_wellformed t.1 ∧ Py.strip t.2 = t.2)
                   (flush_turn (fold_left parse_line lines st))).
  { induction lines as [|l lines IH]; intros st [Hturns Hlabel].
    - simpl. unfold flush_turn.
      destruct (current_label st) as [lb|] eqn:E; [|done].
      destruct (current_lines st) as [|x ls]; [done|].
      apply Forall_app. split; [done|]. constructor; [|done].
      simpl. split; [by apply Hlabel|apply strip_idemp].
    - simpl. apply IH. by apply parse_line_wellformed. }
  intros Hin.
  assert (Hinit :
    Forall (λ t : str * str, label_wellformed t.1 ∧ Py.strip t.2 = t.2)
           (turns (ParserState [] None [])) ∧
    ∀ lb, current_label (ParserState [] None []) = Some lb →
          label_wellformed lb).
  { split; [constructor|]. intros lb H. discriminate H. }
  specialize (Hinv (Py.splitlines transcript) _ Hinit).
  rewrite Forall_forall in Hinv. exact (Hinv (label, text) Hin).
Qed.

(** * Further properties of text cleaning *)

Lemma rstrip_snoc c Z :
  Py.isspace c = false → Py.rstrip (Z ++ [c]) = Z ++ [c].
Proof.
  intros Hc. unfold Py.rstrip. rewrite reverse_snoc.
  rewrite (drop_while_cons_false _ _ _ Hc).
  by rewrite reverse_cons, reverse_involutive.
Qed.

Lemma rstrip_snoc_space c Z :
  Py.isspace c = true → Py.rstrip (Z ++ [c]) = Py.rstrip Z.
Proof.
  intros Hc. unfold Py.rstrip. rewrite reverse_snoc.
  by rewrite (drop_while_cons_true _ _ _ Hc).
Qed.

Lemma rstrip_app_keep Y Z :
  Py.rstrip Z ≠ [] → Py.rstrip (Y ++ Z) = Y ++ Py.rstrip Z.
Proof.
  unfold Py.rstrip. rewrite reverse_app.
  destruct (Py.drop_while Py.isspace (reverse Z)) as [|d tl] eqn:E; [done|].
  intros _. rewrite (drop_while_app_cons _ _ _ _ _ E).
  by rewrite reverse_app, reverse_involutive.
Qed.

Lemma rstrip_token Y cur :
  cur ≠ [] → Forall (λ c, Py.isspace c = false) cur →
  Py.rstrip (Y ++ reverse cur) = Y ++ reverse cur.
Proof.
  destruct cur as [|c cur]; [done|]. intros _ [Hc _]%Forall_cons.
  rewrite reverse_cons, app_assoc. by apply rstrip_snoc.
Qed.

Lemma split_from_nonempty s : ∀ cur, cur ≠ [] → Py.split_from cur s ≠ [].
Proof.
  induction s as [|c s IH]; intros cur Hcur; simpl.
  - by destruct cur.
  - destruct (Py.isspace c).
    + by destruct cur.
    + by apply IH.
Qed.

Lemma join_cons sep (p : str) (q : str) (ps : list str) :
  Py.join sep (p :: q :: ps) = p ++ sep ++ Py.join sep (q :: ps).
Proof. done. Qed.

(** The substitution of single spaces for runs of whitespace, read from
    inside a token ([in_run] false) and from inside a run ([in_run] true),
    against the tokens of [split]. *)
Lemma sub_space_tokens s :
  (∀ Y cur, cur ≠ [] → Forall (λ c, Py.isspace c = false) cur →
     Py.rstrip (Y ++ reverse cur
                ++ re_sub_plus_from false Py.isspace (lit " ") s)
     = Y ++ Py.join (lit " ") (Py.split_from cur s)) ∧
  (Py.split_from [] s = [] →
   re_sub_plus_from true Py.isspace (lit " ") s = []) ∧
  (∀ Y, Py.split_from [] s ≠ [] →
     Py.rstrip (Y ++ re_sub_plus_from true Py.isspace (lit " ") s)
     = Y ++ Py.join (lit " ") (Py.split_from [] s)).
Proof.
  change (lit " ") with [32%N].
  induction s as [|c s (IH1 & IH2 & IH3)].
  - split_and!; [|done|done].
    intros Y cur Hcur Hns. simpl. rewrite app_nil_r.
    rewrite (rstrip_token Y cur Hcur Hns). by destruct cur.
  - destruct (Py.isspace c) eqn:Hc.
    + split_and!.
      * intros Y cur Hcur Hns. simpl. rewrite Hc.
        assert (Hsplit : Py.split_from cur (c :: s)
                         = reverse cur :: Py.split_from [] s).
        { simpl. rewrite Hc. by destruct cur. }
        simpl in Hsplit. rewrite Hc in Hsplit. rewrite Hsplit.
        destruct (Py.split_from [] s) as [|t ts] eqn:E.
        -- rewrite (IH2 eq_refl). simpl.
           rewrite (app_assoc Y), rstrip_snoc_space by done.
           by apply rstrip_token.
        -- rewrite join_cons.
           transitivity
             (Py.rstrip ((Y ++ reverse cur ++ [32%N])
                         ++ re_sub_plus_from true Py.isspace [32%N] s)).
           { f_equal. by rewrite <- !app_assoc. }
           etrans; [apply (IH3 (Y ++ reverse cur ++ [32%N])); done|].
           by rewrite <- !app_assoc.
      * simpl. rewrite Hc. apply IH2.
      * intros Y. simpl. rewrite Hc. apply IH3.
    + split_and!.
      * intros Y cur Hcur Hns. simpl. rewrite Hc.
        specialize (IH1 Y (c :: cur) ltac:(done) ltac:(by constructor)).
        rewrite reverse_cons, <- app_assoc in IH1. exact IH1.
      * simpl. rewrite Hc. intros H.
        by destruct (split_from_nonempty s [c]).
      * intros Y _. simpl. rewrite Hc.
        apply (IH1 Y [c] ltac:(done) ltac:(by repeat constructor)).
Qed.

Lemma sub_space_in_run_head s :
  match re_sub_plus_from true Py.isspace (lit " ") s with
  | [] => True
  | d :: _ => Py.isspace d = false
  end.
Proof.
  induction s as [|c s IH]; simpl; [done|].
  by destruct (Py.isspace c) eqn:Hc.
Qed.

Lemma sub_space_lstrip s :
  Py.lstrip (re_sub_plus Py.isspace (lit " ") s)
  = re_sub_plus_from true Py.isspace (lit " ") s.
Proof.
  unfold re_sub_plus. destruct s as [|c s]; [done|]. simpl.
  destruct (Py.isspace c) eqn:Hc.
  - change (lit " ") with [32%N]. cbn [app]. unfold Py.lstrip.
    rewrite drop_while_cons_true by done.
    pose proof (sub_space_in_run_head s) as Hh.
    change (lit " ") with [32%N] in Hh.
    destruct (re_sub_plus_from true Py.isspace [32%N] s) as [|d tl]; [done|].
    by apply drop_while_cons_false.
  - by apply lstrip_head.
Qed.

(** Substituting single spaces for the runs of whitespace and stripping
    leaves the tokens of [split] joined by single spaces. *)
Lemma sub_space_strip s :
  Py.strip (re_sub_plus Py.isspace (lit " ") s)
  = Py.join (lit " ") (Py.split s).
Proof.
  unfold Py.strip. rewrite sub_space_lstrip. unfold Py.split.
  destruct (sub_space_tokens s) as (_ & H2 & H3).
  destruct (Py.split_from [] s) as [|t ts] eqn:E.
  - by rewrite (H2 eq_refl).
  - apply (H3 [] ltac:(done)).
Qed.

Lemma odd_space_is_space c : odd_space c = true → Py.isspace c = true.
Proof. unfold odd_space. by destruct (Py.isspace c). Qed.

(** The first substitution of [clean_text] changes no token. *)
Lemma sub_odd_split s : ∀ cur b,
  (b = true → cur = []) →
  Py.split_from cur (re_sub_plus_from b odd_space (lit " ") s)
  = Py.split_from cur s.
Proof.
  change (lit " ") with [32%N].
  induction s as [|c s IH]; intros cur b Hb; [done|].
  simpl. destruct (odd_space c) eqn:Ho.
  - rewrite (odd_space_is_space c Ho). destruct b.
    + rewrite (Hb eq_refl). by apply IH.
    + simpl. destruct cur; by rewrite IH.
  - simpl. destruct (Py.isspace c).
    + destruct cur; by rewrite IH.
    + by apply IH.
Qed.

(** [clean_text] is the whitespace split of the normalised text joined by
    single spaces: runs of whitespace become one space, leading and trailing
    whitespace goes, and every other character stays as it is, in place. *)
Theorem clean_text_is_split_join text :
  clean_text text
  = Py.join (lit " ") (Py.split (unicodedata_normalize_NFC text)).
Proof.
  unfold clean_text. rewrite sub_space_strip. f_equal.
  unfold Py.split, re_sub_plus. by apply sub_odd_split.
Qed.

(** * Further properties of deduplication and role resolution *)

Lemma dedupe_NoDup_id l :
  NoDup (entity_key <$> l) → dedupe_entities l = l.
Proof.
  induction l as [|x l IH] using rev_ind; [done|].
  rewrite fmap_app. intros Hnd. apply NoDup_app in Hnd as (Hl & Hx & _).
  rewrite dedupe_snoc, IH by done.
  rewrite decide_False; [done|].
  intros Hin. apply (Hx _ Hin). simpl. by left.
Qed.

(** Deduplicating twice is deduplicating once, and a list without two
    entities of equal lower-cased text and equal label is left as it is. *)
Theorem dedupe_idempotent l :
  dedupe_entities (dedupe_entities l) = dedupe_entities l ∧
  ((∀ i j e1 e2, l !! i = Some e1 → l !! j = Some e2 →
      str_lower (NamedEntity.text e1) = str_lower (NamedEntity.text e2) →
      NamedEntity.label e1 = NamedEntity.label e2 → i = j) →
   dedupe_entities l = l).
Proof.
  split; [apply dedupe_NoDup_id, dedupe_keys_NoDup|].
  intros Hdistinct. apply dedupe_NoDup_id. apply (proj2 (NoDup_alt _)).
  intros i j k Hi Hj.
  rewrite list_lookup_fmap in Hi, Hj.
  destruct (l !! i) as [e1|] eqn:Hi'; [|done].
  destruct (l !! j) as [e2|] eqn:Hj'; [|done].
  injection Hi as <-. injection Hj as Ht Hl.
  by apply (Hdistinct i j e1 e2).
Qed.

Lemma dedupe_length l :
  length (dedupe_entities l)
  = size (list_to_set (entity_key <$> l) : gset (str * str)).
Proof.
  rewrite <- (length_fmap entity_key).
  rewrite <- (size_list_to_set (C := gset (str * str)))
    by apply dedupe_keys_NoDup.
  f_equal. apply set_eq. intros k.
  by rewrite !elem_of_list_to_set, dedupe_keys_elem.
Qed.

(** In every run that returns, [all_entities] has one entry for each
    distinct pair of lower-cased text and label among the entities of the
    turns. *)
Theorem all_entities_one_per_key transcript st out st' :
  run_text_pipeline transcript st = (Returns out, st') →
  length (TextPipelineOutput.all_entities out)
  = size (list_to_set
            ((λ e, (str_lower (NamedEntity.text e), NamedEntity.label e))
               <$> concat (map ProcessedTurn.entities
                             (TextPipelineOutput.turns out)))
          : gset (str * str)).
Proof.
  intros H. apply run_text_pipeline_inv in H as [final Hrun].
  pose proof (run_loop_shape _ _ _ _ _ Hrun)
    as (_ & _ & _ & _ & _ & _ & _ & Hents & _).
  rewrite Hents. apply dedupe_length.
Qed.

Lemma lower_upper_ascii c :
  Py.lower_ascii (Py.upper_ascii c) = Py.lower_ascii c.
Proof.
  unfold Py.lower_ascii, Py.upper_ascii.
  destruct (N.leb_spec 97 c), (N.leb_spec c 122); simpl;
    destruct (N.leb_spec 65 c), (N.leb_spec c 90); simpl; try lia;
    try done.
  decide_comparisons. simpl. lia.
Qed.

Lemma lower_lower_ascii c :
  Py.lower_ascii (Py.lower_ascii c) = Py.lower_ascii c.
Proof.
  unfold Py.lower_ascii.
  destruct (N.leb_spec 65 c), (N.leb_spec c 90); simpl; try done;
    decide_comparisons; simpl; try done.
  all: destruct (N.leb_spec 65 c), (N.leb_spec c 90); simpl; try lia; done.
Qed.

Lemma upper_ascii_isascii c :
  Py.isascii c = true → Py.isascii (Py.upper_ascii c) = true.
Proof.
  unfold Py.isascii, Py.upper_ascii. intros H%N.ltb_lt.
  destruct (_ && _); apply N.ltb_lt; lia.
Qed.

Lemma lower_ascii_isascii c :
  Py.isascii c = true → Py.isascii (Py.lower_ascii c) = true.
Proof.
  unfold Py.isascii, Py.lower_ascii. intros H%N.ltb_lt.
  destruct (N.leb_spec 65 c), (N.leb_spec c 90); simpl;
    apply N.ltb_lt; lia.
Qed.

Lemma forallb_map_isascii f (s : str) :
  (∀ c, Py.isascii c = true → Py.isascii (f c) = true) →
  forallb Py.isascii s = true → forallb Py.isascii (map f s) = true.
Proof.
  intros Hf. induction s as [|c s IH]; [done|]. simpl.
  intros [Hc Hs]%andb_true_iff. by rewrite (Hf c Hc), IH.
Qed.

(** Role resolution does not depend on the case of an ASCII label. *)
Theorem resolve_role_ignores_case label :
  forallb Py.isascii label = true →
  _resolve_role (str_upper label) = _resolve_role label ∧
  _resolve_role (str_lower label) = _resolve_role label.
Proof.
  intros Hascii. unfold _resolve_role.
  assert (Hlow : str_lower label = map Py.lower_ascii label)
    by (unfold str_lower; by rewrite Hascii).
  split; f_equal; f_equal; f_equal.
  - unfold str_upper. rewrite Hascii. unfold str_lower at 1.
    rewrite (forallb_map_isascii _ _ upper_ascii_isascii Hascii).
    rewrite Hlow, map_map. apply map_ext. apply lower_upper_ascii.
  - rewrite Hlow. unfold str_lower.
    rewrite (forallb_map_isascii _ _ lower_ascii_isascii Hascii).
    rewrite map_map. apply map_ext. apply lower_lower_ascii.
Qed.

(** ** Tokens of the cleaned text *)

Lemma split_from_token t : ∀ cur s,
  Forall (λ c, Py.isspace c = false) t →
  Py.split_from cur (t ++ s) = Py.split_from (reverse t ++ cur) s.
Proof.
  induction t as [|c t IH]; intros cur s Ht; [done|].
  apply Forall_cons in Ht as [Hc Ht]. simpl. rewrite Hc.
  rewrite IH by done. by rewrite reverse_cons, <- app_assoc.
Qed.

Lemma split_from_tokens s : ∀ cur,
  Forall (λ c, Py.isspace c = false) cur →
  Forall (λ t, t ≠ [] ∧ Forall (λ c, Py.isspace c = false) t)
         (Py.split_from cur s).
Proof.
  induction s as [|c s IH]; intros cur Hcur; simpl.
  - destruct cur as [|d cur]; [constructor|].
    constructor; [|constructor]. split.
    + rewrite reverse_cons. by destruct (reverse cur).
    + by apply Forall_reverse.
  - destruct (Py.isspace c) eqn:Hc.
    + destruct cur as [|d cur]; [by apply IH|].
      constructor; [|by apply IH]. split.
      * rewrite reverse_cons. by destruct (reverse cur).
      * by apply Forall_reverse.
    + apply IH. by constructor.
Qed.

Lemma split_from_space c cur s :
  Py.isspace c = true → cur ≠ [] →
  Py.split_from cur (c :: s) = reverse cur :: Py.split_from [] s.
Proof. intros Hc Hcur. simpl. rewrite Hc. by destruct cur. Qed.

Lemma split_from_end cur :
  cur ≠ [] → Py.split_from cur [] = [reverse cur].
Proof. by destruct cur. Qed.

Lemma reverse_nonempty {A} (t : list A) : t ≠ [] → reverse t ≠ [].
Proof.
  intros Ht E. apply (f_equal reverse) in E.
  by rewrite reverse_involutive in E.
Qed.

Lemma split_join toks :
  Forall (λ t, t ≠ [] ∧ Forall (λ c, Py.isspace c = false) t) toks →
  Py.split (Py.join (lit " ") toks) = toks.
Proof.
  change (lit " ") with [32%N]. unfold Py.split.
  induction toks as [|t toks IH]; intros Hall; [done|].
  apply Forall_cons in Hall as [[Hne Ht] Hall].
  destruct toks as [|q toks].
  - rewrite join_single. rewrite <- (app_nil_r t) at 1.
    rewrite split_from_token, app_nil_r by done.
    rewrite split_from_end by (by apply reverse_nonempty).
    by rewrite reverse_involutive.
  - rewrite join_cons, split_from_token, app_nil_r by done.
    change ([32%N] ++ Py.join [32%N] (q :: toks))
      with (32%N :: Py.join [32%N] (q :: toks)).
    rewrite split_from_space; [|done|by apply reverse_nonempty].
    rewrite reverse_involutive. f_equal. by apply IH.
Qed.

(** The whitespace split of the cleaned text, which is what [process_text]
    returns as tokens when Stanza raises, is the whitespace split of the
    normalised text. *)
Theorem clean_text_keeps_tokens text :
  Py.split (clean_text text) = Py.split (unicodedata_normalize_NFC text).
Proof.
  unfold clean_text. rewrite sub_space_strip.
  rewrite split_join by (apply split_from_tokens; constructor).
  unfold Py.split, re_sub_plus. by apply sub_odd_split.
Qed.

(** [_TURN_RE] matches a line exactly when the line has a colon and the text
    before its first colon is made of ASCII letters and whitespace and holds
    a letter; the first group is then that text stripped, and the second
    group the text after that colon without its leading whitespace. *)
Theorem turn_re_matches_iff line m :
  re_match _TURN_RE line = Some m ↔
  ∃ pre rest,
    line = pre ++ 58%N :: rest ∧
    Forall (λ c, is_letter_or_space c = true) pre ∧
    Exists (λ c, is_letter c = true) pre ∧
    m = [(2, Py.lstrip rest); (1, Py.strip pre)].
Proof.
  split; [apply turn_re_match_inv|].
  intros (pre & rest & -> & Hlos & Hex & ->). by apply turn_re_groups.
Qed.

(** * Further properties of the order of calls *)

(** The dominant language of the output is what [dominant_language] returns
    for the texts of all parsed turns, in order, when called once the
    per-turn detections are over. *)
Theorem dominant_language_after_detection transcript st out st' :
  run_text_pipeline transcript st = (Returns out, st') →
  ∃ turn_langs st1 w2,
    detect_all (_parse_turns transcript) st = (Returns turn_langs, st1) ∧
    dominant_language (map snd (_parse_turns transcript)) (world st1)
    = (inr (TextPipelineOutput.dominant_language out), w2).
Proof.
  intros H. apply run_text_pipeline_inv in H as [final H].
  unfold run_text_pipeline_loop in H.
  destruct (_parse_turns transcript) as [|t raw]; [done|].
  apply bind_inv in H as (turn_langs & st1 & Hd & H).
  apply bind_inv in H as (dominant & st2 & Hdom & H).
  apply bind_inv in H as (final' & st3 & _ & H).
  injection H as <- <- <-.
  exists turn_langs, st1, (world st2). split; [done|].
  cbn [TextPipelineOutput.dominant_language].
  unfold call in Hdom.
  destruct (dominant_language (map snd (t :: raw)) (world st1))
    as [[e|d] w]; [discriminate Hdom|].
  injection Hdom as Hd' Hs. by subst.
Qed.


End TextPipeline.

(** * Failure of language detection *)

Section DetectionFailure.

Context {World Err Conf Pipeline : Type}.
Variables unicode_lower unicode_upper unicode_NFC : str → str.
Variable confidence_in_bounds : Conf → bool.

(** The external language model behind [detect_language], and the answer
    [detect_language] gives in its place when it fails. *)
Variable language_model : str → extcall World Err (str * Conf).
Variable fallback : str * Conf.

Variable dominant_language : list str → extcall World Err str.
Variable stanza_Pipeline :
  str → Stanza.DownloadMethod → extcall World Err Pipeline.
Variable stanza_download : str → extcall World Err unit.
Variable Pipeline_call : Pipeline → str → extcall World Err Stanza.Document.t.

Lemma detect_language_returns :
  confidence_in_bounds fallback.2 = true →
  (∀ text w answer w',
     language_model text w = (inr answer, w') →
     confidence_in_bounds answer.2 = true) →
  (∀ texts w, ∃ lang w', dominant_language texts w = (inr lang, w')) →
  detector_returns confidence_in_bounds
    (language_detector.detect_language language_model fallback)
    dominant_language.
Proof.
  intros Hfb Hmodel Hdom. split; [|done].
  intros text w. unfold language_detector.detect_language.
  destruct (language_model text w) as [[e|[lang conf]] w'] eqn:Hm.
  - exists fallback.1, fallback.2, w'. by destruct fallback.
  - exists lang, conf, w'. split; [done|]. exact (Hmodel _ _ _ _ Hm).
Qed.

(** C5.  With [detect_language] as the spec describes it, a boundary around
    the language model that answers the fallback values when the model
    raises, a run over a transcript with a parsed turn returns a full output
    whatever the language model does on each turn, as long as the
    confidences are within the bounds of the schema and [dominant_language]
    returns.  The output has one turn per parsed turn, in order, with the
    parsed texts; a turn has the fallback language and confidence when the
    model raised on its text and the model's answer otherwise; and when the
    model raises on every call, every turn has the fallback values. *)
Theorem detection_failure_never_aborts transcript st :
  _parse_turns transcript ≠ [] →
  confidence_in_bounds fallback.2 = true →
  (∀ text w answer w',
     language_model text w = (inr answer, w') →
     confidence_in_bounds answer.2 = true) →
  (∀ texts w, ∃ lang w', dominant_language texts w = (inr lang, w')) →
  ∃ out st',
    run_text_pipeline unicode_lower unicode_upper unicode_NFC
      confidence_in_bounds
      (language_detector.detect_language language_model fallback)
      dominant_language stanza_Pipeline stanza_download Pipeline_call
      transcript st
    = (Returns out, st') ∧
    length (TextPipelineOutput.turns out) = length (_parse_turns transcript) ∧
    map ProcessedTurn.original_text (TextPipelineOutput.turns out)
    = map snd (_parse_turns transcript) ∧
    Forall (λ turn,
              (∃ w e w',
                 language_model (ProcessedTurn.original_text turn) w
                 = (inl e, w') ∧
                 ProcessedTurn.language turn = fallback.1 ∧
                 ProcessedTurn.language_confidence turn = fallback.2) ∨
              (∃ w w',
                 language_model (ProcessedTurn.original_text turn) w
                 = (inr (ProcessedTurn.language turn,
                         ProcessedTurn.language_confidence turn), w')))
           (TextPipelineOutput.turns out) ∧
    ((∀ text w, ∃ e w', language_model text w = (inl e, w')) →
     Forall (λ turn,
               ProcessedTurn.language turn = fallback.1 ∧
               ProcessedTurn.language_confidence turn = fallback.2)
            (TextPipelineOutput.turns out)).
Proof.
  intros Hne Hfb Hmodel Hdom.
  pose proof (detect_language_returns Hfb Hmodel Hdom) as Hdet.
  destruct (run_loop_returns unicode_lower unicode_upper unicode_NFC
              confidence_in_bounds _ dominant_language stanza_Pipeline
              stanza_download Pipeline_call transcript st Hdet Hne)
    as (out & final & st' & Hrun).
  assert (Hret : run_text_pipeline unicode_lower unicode_upper unicode_NFC
                   confidence_in_bounds
                   (language_detector.detect_language language_model fallback)
                   dominant_language stanza_Pipeline stanza_download
                   Pipeline_call transcript st = (Returns out, st')).
  { unfold run_text_pipeline. by rewrite (bind_returns _ _ _ _ _ Hrun). }
  exists out, st'. split; [exact Hret|].
  pose proof (run_loop_shape _ _ _ _ _ _ _ _ _ _ _ _ _ _ Hrun)
    as (_ & _ & _ & Hlabels & Htexts & _).
  pose proof (run_detections _ _ _ _ _ _ _ _ _ _ _ _ _ Hret) as Hall.
  assert (Hcases : Forall (λ turn,
              (∃ w e w',
                 language_model (ProcessedTurn.original_text turn) w
                 = (inl e, w') ∧
                 ProcessedTurn.language turn = fallback.1 ∧
                 ProcessedTurn.language_confidence turn = fallback.2) ∨
              (∃ w w',
                 language_model (ProcessedTurn.original_text turn) w
                 = (inr (ProcessedTurn.language turn,
                         ProcessedTurn.language_confidence turn), w')))
           (TextPipelineOutput.turns out)).
  { eapply Forall_impl; [exact Hall|].
    intros turn (w & w' & Hd). unfold language_detector.detect_language in Hd.
    destruct (language_model (ProcessedTurn.original_text turn) w)
      as [[e|answer] w1] eqn:Hm.
    - left. exists w, e, w1. injection Hd as Hd _. rewrite Hd. by split.
    - right. exists w, w1. by injection Hd as -> _. }
  split_and!.
  - by rewrite <- (length_map ProcessedTurn.speaker_label), Hlabels,
               length_map.
  - exact Htexts.
  - exact Hcases.
  - intros Hfails. eapply Forall_impl; [exact Hcases|].
    intros turn [(w & e & w' & _ & Hl & Hc)|(w & w' & Hm)]; [done|].
    destruct (Hfails (ProcessedTurn.original_text turn) w) as (e & w1 & He).
    by rewrite He in Hm.
Qed.

End DetectionFailure.

(** * Instances

    The theorems above at concrete transcripts and collaborators. *)

Local Close Scope N_scope.

Lemma stub_detector_returns :
  detector_returns Stub.in_bounds Stub.detect_en Stub.dominant_en.
Proof.
  split.
  - intros text w. exists (lit "en"), true, w. by split.
  - intros texts w. by exists (lit "en"), w.
Defined.

Lemma stub_stanza_raises :
  stanza_raises Stub.Pipeline_fails Stub.call_fails (@nil (str * unit)).
Proof. left. intros nlp text w. by exists tt, w. Defined.

Lemma scenario_1_speaker_ids_witness :
  detector_returns Stub.in_bounds Stub.detect_en Stub.dominant_en ∧
  ∃ out final st',
    run_text_pipeline_loop Stub.unicode Stub.unicode Stub.unicode
      Stub.in_bounds Stub.detect_en Stub.dominant_en Stub.Pipeline_fails
      Stub.download_fails Stub.call_fails scenario_1 Stub.st0
    = (Returns (out, final), st') ∧
    run_text_pipeline Stub.unicode Stub.unicode Stub.unicode
      Stub.in_bounds Stub.detect_en Stub.dominant_en Stub.Pipeline_fails
      Stub.download_fails Stub.call_fails scenario_1 Stub.st0
    = (Returns out, st') ∧
    length (TextPipelineOutput.turns out) = 3 ∧
    map ProcessedTurn.speaker_label (TextPipelineOutput.turns out)
    = [lit "Agent"; lit "Customer"; lit "Agent"] ∧
    speaker_ids final = [lit "AGENT_0"; lit "CUSTOMER_0"; lit "AGENT_0"] ∧
    TextPipelineOutput.speaker_count out = 2.
Proof.
  split; [exact stub_detector_returns|].
  exact (scenario_1_speaker_ids Stub.unicode Stub.unicode Stub.unicode
           Stub.in_bounds Stub.detect_en Stub.dominant_en Stub.Pipeline_fails
           Stub.download_fails Stub.call_fails Stub.st0
           stub_detector_returns).
Defined.

Lemma speaker_ids_function_and_injective_witness :
  ∃ out final st',
    run_text_pipeline_loop Stub.unicode Stub.unicode Stub.unicode
      Stub.in_bounds Stub.detect_en Stub.dominant_en Stub.Pipeline_fails
      Stub.download_fails Stub.call_fails scenario_1 Stub.st0
    = (Returns (out, final), st') ∧
    let labels :=
      map ProcessedTurn.speaker_label (TextPipelineOutput.turns out) in
    let ids := speaker_ids final in
    labels = map fst (_parse_turns scenario_1) ∧
    length ids = length labels ∧
    (∀ i label sid, labels !! i = Some label → ids !! i = Some sid →
       seen_speakers final !! label = Some sid) ∧
    (∀ i j li lj si sj,
       labels !! i = Some li → labels !! j = Some lj →
       ids !! i = Some si → ids !! j = Some sj →
       (li = lj ↔ si = sj)) ∧
    (∀ l1 l2 sid, seen_speakers final !! l1 = Some sid →
       seen_speakers final !! l2 = Some sid → l1 = l2) ∧
    TextPipelineOutput.speaker_count out
    = size (list_to_set labels : gset str).
Proof.
  eexists _, _, _. split; [vm_compute; reflexivity|].
  eapply (speaker_ids_function_and_injective Stub.unicode Stub.unicode
           Stub.unicode Stub.in_bounds Stub.detect_en Stub.dominant_en
           Stub.Pipeline_fails Stub.download_fails Stub.call_fails
           scenario_1 Stub.st0).
  vm_compute. reflexivity.
Defined.

Lemma parse_failure_is_fatal_witness :
  _parse_turns (lit "hello there") = [] ∧
  run_text_pipeline Stub.unicode Stub.unicode Stub.unicode
    Stub.in_bounds Stub.detect_en Stub.dominant_en Stub.Pipeline_fails
    Stub.download_fails Stub.call_fails (lit "hello there") Stub.st0
  = (Raises (ValueError no_turns_message), Stub.st0).
Proof.
  split; [vm_compute; reflexivity|].
  apply (proj1 (parse_failure_is_fatal Stub.unicode Stub.unicode
                  Stub.unicode Stub.in_bounds Stub.detect_en
                  Stub.dominant_en Stub.Pipeline_fails Stub.download_fails
                  Stub.call_fails (lit "hello there") Stub.st0)).
  vm_compute. reflexivity.
Defined.

Lemma nlp_failure_degrades_witness :
  stanza_raises Stub.Pipeline_fails Stub.call_fails (pipeline_cache Stub.st0) ∧
  detector_returns Stub.in_bounds Stub.detect_en Stub.dominant_en ∧
  _parse_turns scenario_1 ≠ [] ∧
  ∃ out st',
    run_text_pipeline Stub.unicode Stub.unicode Stub.unicode
      Stub.in_bounds Stub.detect_en Stub.dominant_en Stub.Pipeline_fails
      Stub.download_fails Stub.call_fails scenario_1 Stub.st0
    = (Returns out, st') ∧
    length (TextPipelineOutput.turns out) = length (_parse_turns scenario_1) ∧
    Forall (λ turn,
              ProcessedTurn.cleaned_text turn
              = clean_text Stub.unicode (ProcessedTurn.original_text turn) ∧
              ProcessedTurn.lemmatized_text turn
              = ProcessedTurn.cleaned_text turn ∧
              ProcessedTurn.tokens turn
              = Py.split (ProcessedTurn.cleaned_text turn) ∧
              ProcessedTurn.entities turn = [])
           (TextPipelineOutput.turns out).
Proof.
  assert (Hne : _parse_turns scenario_1 ≠ []) by (vm_compute; discriminate).
  split_and!; [exact stub_stanza_raises|exact stub_detector_returns|exact Hne|].
  exact (proj2 (nlp_failure_degrades Stub.unicode Stub.unicode Stub.unicode
                  Stub.in_bounds Stub.detect_en Stub.dominant_en
                  Stub.Pipeline_fails Stub.download_fails Stub.call_fails)
               scenario_1 Stub.st0 stub_stanza_raises stub_detector_returns
               Hne).
Defined.


Lemma one_turn_per_label_line_witness :
  detector_returns Stub.in_bounds Stub.detect_en Stub.dominant_en ∧
  0 < label_line_count scenario_2 ∧
  ∃ out st',
    run_text_pipeline Stub.unicode Stub.unicode Stub.unicode
      Stub.in_bounds Stub.detect_en Stub.dominant_en Stub.Pipeline_fails
      Stub.download_fails Stub.call_fails scenario_2 Stub.st0
    = (Returns out, st').
Proof.
  assert (Hpos : 0 < label_line_count scenario_2) by (vm_compute; lia).
  split_and!; [exact stub_detector_returns|exact Hpos|].
  exact (proj1 (proj2 (proj2
           (one_turn_per_label_line Stub.unicode Stub.unicode Stub.unicode
              Stub.in_bounds Stub.detect_en Stub.dominant_en
              Stub.Pipeline_fails Stub.download_fails Stub.call_fails)))
           scenario_2 Stub.st0 stub_detector_returns Hpos).
Defined.

Lemma all_entities_first_occurrences_witness :
  ∃ out st',
    run_text_pipeline Stub.unicode Stub.unicode Stub.unicode
      Stub.in_bounds Stub.detect_en Stub.dominant_en Stub.Pipeline_loads
      Stub.download_fails Stub.call_two_labels Stub.three_mentions Stub.st0
    = (Returns out, st') ∧
    map (λ e, (NamedEntity.text e, NamedEntity.label e))
        (concat (map ProcessedTurn.entities (TextPipelineOutput.turns out)))
    = [(lit "Rahul Menon", lit "PERSON"); (lit "Rahul Menon", lit "ORG");
       (lit "rahul menon", lit "PERSON"); (lit "rahul menon", lit "ORG");
       (lit "Kochi", lit "PERSON"); (lit "Kochi", lit "ORG")] ∧
    map (λ e, (NamedEntity.text e, NamedEntity.label e))
        (TextPipelineOutput.all_entities out)
    = [(lit "Rahul Menon", lit "PERSON"); (lit "Rahul Menon", lit "ORG");
       (lit "Kochi", lit "PERSON"); (lit "Kochi", lit "ORG")] ∧
    let turns := TextPipelineOutput.turns out in
    let emitted := concat (map ProcessedTurn.entities turns) in
    let kept := TextPipelineOutput.all_entities out in
    let same_key (e1 e2 : NamedEntity.t) :=
      str_lower Stub.unicode (NamedEntity.text e1)
      = str_lower Stub.unicode (NamedEntity.text e2) ∧
      NamedEntity.label e1 = NamedEntity.label e2 in
    let spans (doc : Stanza.Document.t) :=
      map (λ ent, NamedEntity.mk (Stanza.Span.text ent) (Stanza.Span.type ent)
                    (Stanza.Span.start_char ent) (Stanza.Span.end_char ent))
          (concat (map Stanza.Sentence.ents
                     (Stanza.Document.sentences doc))) in
    (∀ i j e1 e2, kept !! i = Some e1 → kept !! j = Some e2 →
       same_key e1 e2 → i = j) ∧
    kept `sublist_of` emitted ∧
    (∀ e, e ∈ kept ↔
          ∃ pre post, emitted = pre ++ e :: post
                      ∧ ∀ e', e' ∈ pre → ¬ same_key e' e) ∧
    (∀ e, e ∈ emitted → ∃ e', e' ∈ kept ∧ same_key e' e) ∧
    (∀ k1 e k2, kept = k1 ++ e :: k2 →
       ∃ pre post, emitted = pre ++ e :: post
                   ∧ (∀ e', e' ∈ pre → ¬ same_key e' e)
                   ∧ k1 `sublist_of` pre) ∧
    map ProcessedTurn.turn_index turns = seq 0 (length turns) ∧
    Forall (λ turn,
              ProcessedTurn.entities turn = [] ∨
              ∃ nlp w doc w',
                Stub.call_two_labels nlp (ProcessedTurn.cleaned_text turn) w
                = (inr doc, w') ∧
                ProcessedTurn.entities turn = spans doc) turns ∧
    (∀ text lang st0 nlp st1 doc w2,
       _get_pipeline Stub.Pipeline_loads Stub.download_fails
         (_resolve_nlp_lang lang) st0 = (Returns nlp, st1) →
       Stub.call_two_labels nlp (clean_text Stub.unicode text) (world st1)
       = (inr doc, w2) →
       ∃ r st2,
         process_text Stub.unicode Stub.Pipeline_loads Stub.download_fails
           Stub.call_two_labels text lang st0 = (Returns r, st2)
         ∧ NlpResult.entities r = spans doc).
Proof.
  eexists _, _. split; [vm_compute; reflexivity|].
  split; [vm_compute; reflexivity|]. split; [vm_compute; reflexivity|].
  eapply (all_entities_first_occurrences Stub.unicode Stub.unicode
           Stub.unicode Stub.in_bounds Stub.detect_en Stub.dominant_en
           Stub.Pipeline_loads Stub.download_fails Stub.call_two_labels
           Stub.three_mentions Stub.st0).
  vm_compute. reflexivity.
Defined.

Lemma ml_not_supported : lit "ml" ∉ STANZA_SUPPORTED.
Proof.
  unfold STANZA_SUPPORTED. rewrite elem_of_list_to_set.
  intros H. repeat (apply elem_of_cons in H as [H|H]; [discriminate H|]).
  by apply elem_of_nil in H.
Defined.

Lemma unsupported_language_uses_english_witness :
  (lit "ml" ∉ STANZA_SUPPORTED) ∧
  _resolve_nlp_lang (lit "ml") = lit "en" ∧
  _resolve_nlp_lang (lit "ml") ≠ lit "ml" ∧
  process_text Stub.unicode Stub.Pipeline_named Stub.download_fails
    Stub.call_named (lit "namaskaram") (lit "ml") (State tt [])
  = (Returns (NlpResult.mk (lit "namaskaram") (lit "en") [lit "namaskaram"]
                [NamedEntity.mk (lit "namaskaram") (lit "en") 0 10]),
     State tt [(lit "en", lit "en")]) ∧
  ∀ text,
    process_text Stub.unicode Stub.Pipeline_named Stub.download_fails
      Stub.call_named text (lit "ml")
    = process_text Stub.unicode Stub.Pipeline_named Stub.download_fails
        Stub.call_named text (lit "en").
Proof.
  split; [exact ml_not_supported|].
  destruct (unsupported_language_uses_english Stub.unicode Stub.unicode
              Stub.unicode Stub.in_bounds Stub.detect_ml Stub.dominant_en
              Stub.Pipeline_named Stub.download_fails Stub.call_named
              (lit "ml") ml_not_supported)
    as (Hen & Hne & Hmiss & _ & _ & _ & Hsame & _).
  split_and!; [exact Hen|exact Hne| |exact Hsame].
  etrans; [eapply Hmiss; reflexivity|]. vm_compute. reflexivity.
Defined.

Lemma stub_model_in_bounds :
  ∀ text w answer w',
    Stub.model_fails_on_hi text w = (inr answer, w') →
    Stub.in_bounds answer.2 = true.
Proof.
  intros text w answer w'. unfold Stub.model_fails_on_hi.
  destruct (decide (text = lit "hi")); [discriminate|].
  intros H. injection H as <- _. reflexivity.
Defined.

Lemma detection_failure_never_aborts_witness :
  _parse_turns Stub.greeting ≠ [] ∧
  Stub.in_bounds Stub.fallback_en.2 = true ∧
  (∀ w, Stub.model_fails_on_hi (lit "hi") w = (inl tt, w)) ∧
  ∃ out st',
    run_text_pipeline Stub.unicode Stub.unicode Stub.unicode Stub.in_bounds
      (language_detector.detect_language Stub.model_fails_on_hi
         Stub.fallback_en)
      Stub.dominant_en Stub.Pipeline_fails Stub.download_fails Stub.call_fails
      Stub.greeting Stub.st0
    = (Returns out, st') ∧
    map (λ turn, (ProcessedTurn.original_text turn,
                  ProcessedTurn.language turn,
                  ProcessedTurn.language_confidence turn))
        (TextPipelineOutput.turns out)
    = [(lit "hi", lit "en", true); (lit "hello", lit "ml", true)] ∧
    length (TextPipelineOutput.turns out)
    = length (_parse_turns Stub.greeting) ∧
    map ProcessedTurn.original_text (TextPipelineOutput.turns out)
    = map snd (_parse_turns Stub.greeting).
Proof.
  assert (Hne : _parse_turns Stub.greeting ≠ [])
    by (vm_compute; discriminate).
  split_and!; [exact Hne|reflexivity|reflexivity|].
  destruct (detection_failure_never_aborts Stub.unicode Stub.unicode
              Stub.unicode Stub.in_bounds Stub.model_fails_on_hi
              Stub.fallback_en Stub.dominant_en Stub.Pipeline_fails
              Stub.download_fails Stub.call_fails Stub.greeting Stub.st0
              Hne eq_refl stub_model_in_bounds
              (proj2 stub_detector_returns))
    as (out & st' & Hret & Hlen & Htexts & _).
  exists out, st'. split_and!; [exact Hret| |exact Hlen|exact Htexts].
  vm_compute in Hret. injection Hret as <- <-. vm_compute. reflexivity.
Defined.

(** ** Instances of the further properties *)

Lemma turn_indices_count_from_zero_witness :
  ∃ out st',
    run_text_pipeline Stub.unicode Stub.unicode Stub.unicode
      Stub.in_bounds Stub.detect_en Stub.dominant_en Stub.Pipeline_fails
      Stub.download_fails Stub.call_fails scenario_1 Stub.st0
    = (Returns out, st') ∧
    map ProcessedTurn.turn_index (TextPipelineOutput.turns out) = [0; 1; 2] ∧
    map ProcessedTurn.turn_index (TextPipelineOutput.turns out)
    = seq 0 (length (_parse_turns scenario_1)).
Proof.
  eexists _, _. split; [vm_compute; reflexivity|].
  split; [vm_compute; reflexivity|].
  eapply (turn_indices_count_from_zero Stub.unicode Stub.unicode
            Stub.unicode Stub.in_bounds Stub.detect_en Stub.dominant_en
            Stub.Pipeline_fails Stub.download_fails Stub.call_fails
            scenario_1 Stub.st0).
  vm_compute. reflexivity.
Defined.

Lemma turns_carry_parsed_pairs_witness :
  ∃ out st',
    run_text_pipeline Stub.unicode Stub.unicode Stub.unicode
      Stub.in_bounds Stub.detect_en Stub.dominant_en Stub.Pipeline_loads
      Stub.download_fails Stub.call_person scenario_2 Stub.st0
    = (Returns out, st') ∧
    TextPipelineOutput.raw_transcript out = scenario_2 ∧
    map (λ turn, (ProcessedTurn.speaker_label turn,
                  ProcessedTurn.original_text turn))
        (TextPipelineOutput.turns out)
    = _parse_turns scenario_2 ∧
    Forall (λ turn,
              ProcessedTurn.role turn
              = _resolve_role Stub.unicode (ProcessedTurn.speaker_label turn) ∧
              ProcessedTurn.cleaned_text turn
              = clean_text Stub.unicode (ProcessedTurn.original_text turn))
           (TextPipelineOutput.turns out).
Proof.
  eexists _, _. split; [vm_compute; reflexivity|].
  eapply (turns_carry_parsed_pairs Stub.unicode Stub.unicode
            Stub.unicode Stub.in_bounds Stub.detect_en Stub.dominant_en
            Stub.Pipeline_loads Stub.download_fails Stub.call_person
            scenario_2 Stub.st0).
  vm_compute. reflexivity.
Defined.

Lemma rep_is_new : lit "Rep" ∉ [lit "Agent"].
Proof.
  intros H. apply elem_of_cons in H as [H|H]; [discriminate H|].
  by apply elem_of_nil in H.
Defined.

Lemma speaker_ids_numbered_by_first_appearance_witness :
  ∃ out final st',
    run_text_pipeline_loop Stub.unicode Stub.unicode Stub.unicode
      Stub.in_bounds Stub.detect_en Stub.dominant_en Stub.Pipeline_fails
      Stub.download_fails Stub.call_fails Stub.two_agents Stub.st0
    = (Returns (out, final), st') ∧
    map fst (_parse_turns Stub.two_agents)
    = [lit "Agent"] ++ lit "Rep" :: [lit "Agent"; lit "Bob"] ∧
    speaker_ids final
    = [lit "AGENT_0"; lit "AGENT_1"; lit "AGENT_0"; lit "UNKNOWN_0"] ∧
    speaker_ids final !! 1
    = Some (speaker_id_of
              (key_of_label Stub.unicode Stub.unicode (lit "Rep"))
              (size (filter (λ l, key_of_label Stub.unicode Stub.unicode l
                                  = key_of_label Stub.unicode Stub.unicode
                                      (lit "Rep"))
                            (list_to_set [lit "Agent"] : gset str)))).
Proof.
  eexists _, _, _. split; [vm_compute; reflexivity|].
  split; [vm_compute; reflexivity|]. split; [vm_compute; reflexivity|].
  eapply (speaker_ids_numbered_by_first_appearance Stub.unicode Stub.unicode
            Stub.unicode Stub.in_bounds Stub.detect_en Stub.dominant_en
            Stub.Pipeline_fails Stub.download_fails Stub.call_fails
            Stub.two_agents Stub.st0 _ _ _ [lit "Agent"] (lit "Rep")
            [lit "Agent"; lit "Bob"]).
  - vm_compute. reflexivity.
  - vm_compute. reflexivity.
  - exact rep_is_new.
Defined.

Lemma speaker_count_bounds_witness :
  ∃ out st',
    run_text_pipeline Stub.unicode Stub.unicode Stub.unicode
      Stub.in_bounds Stub.detect_en Stub.dominant_en Stub.Pipeline_fails
      Stub.download_fails Stub.call_fails Stub.two_agents Stub.st0
    = (Returns out, st') ∧
    TextPipelineOutput.speaker_count out = 3 ∧
    1 ≤ TextPipelineOutput.speaker_count out
    ≤ length (TextPipelineOutput.turns out).
Proof.
  eexists _, _. split; [vm_compute; reflexivity|].
  split; [vm_compute; reflexivity|].
  eapply (speaker_count_bounds Stub.unicode Stub.unicode
            Stub.unicode Stub.in_bounds Stub.detect_en Stub.dominant_en
            Stub.Pipeline_fails Stub.download_fails Stub.call_fails
            Stub.two_agents Stub.st0).
  vm_compute. reflexivity.
Defined.


Lemma get_pipeline_memoizes_witness :
  _get_pipeline Stub.Pipeline_named Stub.download_fails (lit "en")
    (State tt [])
  = (Returns (lit "en"), State tt [(lit "en", lit "en")]) ∧
  ∃ st2,
    _get_pipeline Stub.Pipeline_named Stub.download_fails (lit "en")
      (State tt [(lit "en", lit "en")])
    = (Returns (lit "en"), st2) ∧
    world st2 = tt.
Proof.
  assert (H : _get_pipeline Stub.Pipeline_named Stub.download_fails
                (lit "en") (State tt [])
              = (Returns (lit "en"), State tt [(lit "en", lit "en")]))
    by (vm_compute; reflexivity).
  split; [exact H|].
  exact (get_pipeline_memoizes Stub.Pipeline_named Stub.download_fails
           (lit "en") (State tt []) (lit "en")
           (State tt [(lit "en", lit "en")]) H).
Defined.

Lemma get_pipeline_failure_not_cached_witness :
  _get_pipeline Stub.Pipeline_fails Stub.download_fails (lit "en")
    (State tt [(lit "hi", tt)])
  = (Raises (Raised tt), State tt [(lit "hi", tt)]) ∧
  pipeline_cache (State tt [(lit "hi", tt)] : state unit unit)
  = pipeline_cache (State tt [(lit "hi", tt)] : state unit unit).
Proof.
  assert (H : _get_pipeline Stub.Pipeline_fails Stub.download_fails
                (lit "en") (State tt [(lit "hi", tt)])
              = (Raises (Raised tt), State tt [(lit "hi", tt)]))
    by (vm_compute; reflexivity).
  split; [exact H|].
  exact (get_pipeline_failure_not_cached Stub.Pipeline_fails
           Stub.download_fails (lit "en") (State tt [(lit "hi", tt)])
           (Raised tt) (State tt [(lit "hi", tt)]) H).
Defined.

Lemma stub_cache_supported :
  cache_supported [(lit "hi", lit "hi")].
Proof.
  split.
  - apply NoDup_singleton.
  - intros lang H. apply list_elem_of_singleton in H. subst lang.
    unfold STANZA_SUPPORTED. apply elem_of_list_to_set.
    apply elem_of_cons. right. apply elem_of_cons. by left.
Defined.

Lemma process_text_never_evicts_witness :
  cache_supported (pipeline_cache (State tt [(lit "hi", lit "hi")])) ∧
  process_text Stub.unicode Stub.Pipeline_named Stub.download_fails
    Stub.call_named (lit "namaskaram") (lit "ml")
    (State tt [(lit "hi", lit "hi")])
  = (Returns (NlpResult.mk (lit "namaskaram") (lit "en") [lit "namaskaram"]
                [NamedEntity.mk (lit "namaskaram") (lit "en") 0 10]),
     State tt [(lit "en", lit "en"); (lit "hi", lit "hi")]) ∧
  cache_supported [(lit "en", lit "en"); (lit "hi", lit "hi")] ∧
  ∀ l nlp,
    cache_find l [(lit "hi", lit "hi")] = Some nlp →
    cache_find l [(lit "en", lit "en"); (lit "hi", lit "hi")] = Some nlp.
Proof.
  assert (H : process_text Stub.unicode Stub.Pipeline_named
                Stub.download_fails Stub.call_named (lit "namaskaram")
                (lit "ml") (State tt [(lit "hi", lit "hi")])
              = (Returns (NlpResult.mk (lit "namaskaram") (lit "en")
                            [lit "namaskaram"]
                            [NamedEntity.mk (lit "namaskaram") (lit "en") 0
                               10]),
                 State tt [(lit "en", lit "en"); (lit "hi", lit "hi")]))
    by (vm_compute; reflexivity).
  split_and!; [exact stub_cache_supported|exact H|..];
    apply (process_text_never_evicts Stub.unicode Stub.Pipeline_named
             Stub.download_fails Stub.call_named (lit "namaskaram")
             (lit "ml") (State tt [(lit "hi", lit "hi")]) _ _
             stub_cache_supported H).
Defined.

Lemma is_label_line_iff_witness :
  is_label_line (lit "  Agent : hi") = true ∧
  ∃ pre rest,
    Py.strip (lit "  Agent : hi") = pre ++ 58%N :: rest ∧
    Forall (λ c, is_letter_or_space c = true) pre ∧
    Exists (λ c, is_letter c = true) pre.
Proof.
  split; [reflexivity|].
  exact (proj1 (is_label_line_iff (lit "  Agent : hi")) eq_refl).
Defined.

Lemma label_line_turn_witness :
  Py.strip (lit "Agent: Hello,") = lit "Agent" ++ 58%N :: lit " Hello," ∧
  parse_lines ([] ++ lit "Agent: Hello," :: [lit "how can I help?"])
  = parse_lines []
    ++ [(Py.strip (lit "Agent"),
         Py.strip (Py.join (lit " ")
                     (Py.strip (lit " Hello,")
                      :: continuation [lit "how can I help?"])))] ∧
  parse_lines [lit "Agent: Hello,"; lit "how can I help?"]
  = [(lit "Agent", lit "Hello, how can I help?")].
Proof.
  split; [reflexivity|]. split; [|vm_compute; reflexivity].
  apply (label_line_turn [] (lit "Agent: Hello,") [lit "how can I help?"]
           (lit "Agent") (lit " Hello,")).
  - reflexivity.
  - repeat constructor.
  - apply Exists_cons_hd. reflexivity.
  - repeat constructor.
Defined.

Lemma blank_lines_are_ignored_witness :
  Py.strip (lit "   ") = [] ∧
  parse_lines ([lit "Agent: a"] ++ lit "   " :: [lit "b"])
  = parse_lines ([lit "Agent: a"] ++ [lit "b"]).
Proof.
  split; [reflexivity|].
  exact (blank_lines_are_ignored [lit "Agent: a"] (lit "   ") [lit "b"]
           eq_refl).
Defined.

Lemma parsing_splits_at_label_lines_witness :
  is_label_line (lit "Customer: c") = true ∧
  parse_lines ([lit "Agent: a"; lit "b"] ++ lit "Customer: c" :: [lit "d"])
  = parse_lines [lit "Agent: a"; lit "b"]
    ++ parse_lines (lit "Customer: c" :: [lit "d"]).
Proof.
  split; [reflexivity|].
  exact (parsing_splits_at_label_lines [lit "Agent: a"; lit "b"]
           (lit "Customer: c") [lit "d"] eq_refl).
Defined.

Lemma scenario_2_first_turn :
  (lit "Agent", lit "Hello, how can I help?") ∈ _parse_turns scenario_2.
Proof.
  replace (_parse_turns scenario_2)
    with [(lit "Agent", lit "Hello, how can I help?");
          (lit "Customer", lit "Thanks.")]
    by (vm_compute; reflexivity).
  apply elem_of_cons. by left.
Defined.

Lemma parsed_turns_wellformed_witness :
  (lit "Agent", lit "Hello, how can I help?") ∈ _parse_turns scenario_2 ∧
  label_wellformed (lit "Agent") ∧
  Py.strip (lit "Hello, how can I help?") = lit "Hello, how can I help?".
Proof.
  split; [exact scenario_2_first_turn|].
  exact (parsed_turns_wellformed scenario_2 (lit "Agent")
           (lit "Hello, how can I help?") scenario_2_first_turn).
Defined.

Lemma person_and_org_distinct :
  ∀ i j e1 e2,
    [NamedEntity.mk (lit "Kochi") (lit "PERSON") 0 5;
     NamedEntity.mk (lit "Kochi") (lit "ORG") 0 5] !! i = Some e1 →
    [NamedEntity.mk (lit "Kochi") (lit "PERSON") 0 5;
     NamedEntity.mk (lit "Kochi") (lit "ORG") 0 5] !! j = Some e2 →
    str_lower Stub.unicode (NamedEntity.text e1)
    = str_lower Stub.unicode (NamedEntity.text e2) →
    NamedEntity.label e1 = NamedEntity.label e2 → i = j.
Proof.
  intros [|[|i]] [|[|j]] e1 e2 H1 H2 Ht Hl; try reflexivity;
    try discriminate H1; try discriminate H2;
    injection H1 as <-; injection H2 as <-; discriminate Hl.
Defined.

Lemma dedupe_idempotent_witness :
  dedupe_entities Stub.unicode
    [NamedEntity.mk (lit "Kochi") (lit "PERSON") 0 5;
     NamedEntity.mk (lit "Kochi") (lit "ORG") 0 5]
  = [NamedEntity.mk (lit "Kochi") (lit "PERSON") 0 5;
     NamedEntity.mk (lit "Kochi") (lit "ORG") 0 5].
Proof.
  exact (proj2 (dedupe_idempotent Stub.unicode
                  [NamedEntity.mk (lit "Kochi") (lit "PERSON") 0 5;
                   NamedEntity.mk (lit "Kochi") (lit "ORG") 0 5])
               person_and_org_distinct).
Defined.

Lemma all_entities_one_per_key_witness :
  ∃ out st',
    run_text_pipeline Stub.unicode Stub.unicode Stub.unicode
      Stub.in_bounds Stub.detect_en Stub.dominant_en Stub.Pipeline_loads
      Stub.download_fails Stub.call_two_labels Stub.three_mentions Stub.st0
    = (Returns out, st') ∧
    length (concat (map ProcessedTurn.entities
                      (TextPipelineOutput.turns out))) = 6 ∧
    length (TextPipelineOutput.all_entities out) = 4 ∧
    length (TextPipelineOutput.all_entities out)
    = size (list_to_set
              ((λ e, (str_lower Stub.unicode (NamedEntity.text e),
                      NamedEntity.label e))
                 <$> concat (map ProcessedTurn.entities
                               (TextPipelineOutput.turns out)))
            : gset (str * str)).
Proof.
  eexists _, _. split; [vm_compute; reflexivity|].
  split; [vm_compute; reflexivity|]. split; [vm_compute; reflexivity|].
  eapply (all_entities_one_per_key Stub.unicode Stub.unicode
            Stub.unicode Stub.in_bounds Stub.detect_en Stub.dominant_en
            Stub.Pipeline_loads Stub.download_fails Stub.call_two_labels
            Stub.three_mentions Stub.st0).
  vm_compute. reflexivity.
Defined.

Lemma resolve_role_ignores_case_witness :
  forallb Py.isascii (lit "Agent") = true ∧
  _resolve_role Stub.unicode (str_upper Stub.unicode (lit "Agent"))
  = _resolve_role Stub.unicode (lit "Agent") ∧
  _resolve_role Stub.unicode (str_lower Stub.unicode (lit "Agent"))
  = _resolve_role Stub.unicode (lit "Agent").
Proof.
  split; [reflexivity|].
  exact (resolve_role_ignores_case Stub.unicode Stub.unicode (lit "Agent")
           eq_refl).
Defined.

Lemma turn_re_matches_iff_witness :
  re_match _TURN_RE (lit "Agent : hi")
  = Some [(2, Py.lstrip (lit " hi")); (1, Py.strip (lit "Agent "))].
Proof.
  apply (proj2 (turn_re_matches_iff (lit "Agent : hi")
                  [(2, Py.lstrip (lit " hi")); (1, Py.strip (lit "Agent "))])).
  exists (lit "Agent "), (lit " hi"). split_and!.
  - reflexivity.
  - repeat constructor.
  - apply Exists_cons_hd. reflexivity.
  - reflexivity.
Defined.

Lemma dominant_language_after_detection_witness :
  ∃ out st',
    run_text_pipeline Stub.unicode Stub.unicode Stub.unicode
      Stub.in_bounds Stub.detect_ml Stub.dominant_en Stub.Pipeline_fails
      Stub.download_fails Stub.call_fails scenario_2 Stub.st0
    = (Returns out, st') ∧
    TextPipelineOutput.dominant_language out = lit "en" ∧
    ∃ turn_langs st1 w2,
      detect_all Stub.detect_ml (_parse_turns scenario_2) Stub.st0
      = (Returns turn_langs, st1) ∧
      Stub.dominant_en (map snd (_parse_turns scenario_2)) (world st1)
      = (inr (TextPipelineOutput.dominant_language out), w2).
Proof.
  eexists _, _. split; [vm_compute; reflexivity|].
  split; [vm_compute; reflexivity|].
  eapply (dominant_language_after_detection Stub.unicode Stub.unicode
            Stub.unicode Stub.in_bounds Stub.detect_ml Stub.dominant_en
            Stub.Pipeline_fails Stub.download_fails Stub.call_fails
            scenario_2 Stub.st0).
  vm_compute. reflexivity.
Defined.

